(** * Configuration resolution of ESLint: merge algebra, caches and resolver

    A shallow embedding of [lib/config/config-ops.js], [lib/config/config-cache.js]
    and [lib/config.js].  JavaScript values are a tagged union, objects are
    insertion-ordered association lists, the four cache tables are finite maps
    keyed by strings, and every function that can throw returns a [result]. *)

From Stdlib Require Import ZArith String Ascii List Bool Lia.
From stdpp Require Import base option list gmap strings pretty.

Open Scope Z_scope.
Open Scope string_scope.
Open Scope list_scope.

(** ** Outcomes: a value, or a thrown exception *)

Inductive error :=
| TypeError
| NoConfigFound (directory : string) (filesExamined : list string).

Inductive result (A : Type) :=
| Ok (a : A)
| Throw (e : error).
Arguments Ok {A} a.
Arguments Throw {A} e.

Global Instance result_ret : MRet result := @Ok.
Global Instance result_bind : MBind result := λ A B f m,
  match m with
  | Ok a => f a
  | Throw e => Throw e
  end.

(** ** JavaScript values *)

Local Set Warnings "-register-all".

Module JS.

(** Numbers are the integers: the code compares them, indexes with them and
    uses them as severities, nothing else.  [VFun] is an opaque built-in
    function object; it only appears as the value of a property inherited from
    [Object.prototype]. *)
Inductive value :=
| VUndef
| VNull
| VBool (b : bool)
| VNum (n : Z)
| VStr (s : string)
| VFun (name : string)
| VArr (l : list value)
| VObj (o : list (string * value)).

Definition obj := list (string * value).

Definition typeof (v : value) : string :=
  match v with
  | VUndef => "undefined"
  | VNull => "object"
  | VBool _ => "boolean"
  | VNum _ => "number"
  | VStr _ => "string"
  | VFun _ => "function"
  | VArr _ => "object"
  | VObj _ => "object"
  end.

Definition isArray (v : value) : bool :=
  match v with VArr _ => true | _ => false end.

(** ToBoolean. *)
Definition truthy (v : value) : bool :=
  match v with
  | VUndef | VNull => false
  | VBool b => b
  | VNum n => negb (n =? 0)%Z
  | VStr s => negb (String.eqb s "")
  | VFun _ | VArr _ | VObj _ => true
  end.

(** [a || b] *)
Definition or_else (a b : value) : value := if truthy a then a else b.

(** *** Own properties of objects *)

Fixpoint obj_get (k : string) (o : obj) : option value :=
  match o with
  | [] => None
  | (k', v) :: o' => if String.eqb k k' then Some v else obj_get k o'
  end.

(** [o[k] = v] for a key other than [__proto__]: an existing key keeps its
    place, a new key goes last.  (On an object without an own [__proto__]
    the source hands an assignment under that name to the accessor inherited
    from [Object.prototype], which stores no property.) *)
Fixpoint obj_set (k : string) (v : value) (o : obj) : obj :=
  match o with
  | [] => [(k, v)]
  | (k', v') :: o' =>
      if String.eqb k k' then (k, v) :: o' else (k', v') :: obj_set k v o'
  end.

(** [delete o[k]] *)
Fixpoint obj_delete (k : string) (o : obj) : obj :=
  match o with
  | [] => []
  | (k', v') :: o' =>
      if String.eqb k k' then obj_delete k o' else (k', v') :: obj_delete k o'
  end.

Definition obj_keys (o : obj) : list string := map fst o.

Definition has_key (k : string) (v : value) : bool :=
  match v with
  | VObj o => bool_decide (is_Some (obj_get k o))
  | _ => false
  end.

(** *** Arrays and strings *)

Definition string_of_nat (n : nat) : string := pretty n.

Fixpoint string_to_list (s : string) : list ascii :=
  match s with
  | EmptyString => []
  | String c s' => c :: string_to_list s'
  end.

Definition char_at (i : nat) (s : string) : value :=
  match String.get i s with
  | Some c => VStr (String c EmptyString)
  | None => VUndef
  end.

(** [a[i]] for a number [i]. *)
Definition arr_get (i : nat) (l : list value) : value :=
  match l !! i with
  | Some v => v
  | None => VUndef
  end.

(** [a[i] = v]: in range the slot is replaced, past the end the array grows. *)
Definition arr_set (i : nat) (v : value) (l : list value) : list value :=
  if (i <? length l)%nat then <[i:=v]> l
  else l ++ replicate (i - length l) VUndef ++ [v].

(** The array index a property key denotes, if it is the canonical decimal
    form of one. *)
Definition index_of_key (k : string) (len : nat) : option nat :=
  find (λ i, String.eqb (string_of_nat i) k) (seq 0 len).

(** [v[k]] for a string key [k] on a receiver that is neither [undefined]
    nor [null]; own properties only. *)
Definition prop (v : value) (k : string) : value :=
  match v with
  | VObj o => default VUndef (obj_get k o)
  | VArr l =>
      if String.eqb k "length" then VNum (Z.of_nat (length l))
      else match index_of_key k (length l) with
           | Some i => arr_get i l
           | None => VUndef
           end
  | VStr s =>
      if String.eqb k "length" then VNum (Z.of_nat (String.length s))
      else match index_of_key k (String.length s) with
           | Some i => char_at i s
           | None => VUndef
           end
  | _ => VUndef
  end.

(** [v[k]]: reading a property of [undefined] or [null] throws. *)
Definition get (v : value) (k : string) : result value :=
  match v with
  | VUndef | VNull => Throw TypeError
  | _ => Ok (prop v k)
  end.

(** [delete v[k]] *)
Definition delete_prop (v : value) (k : string) : value :=
  match v with
  | VObj o => VObj (obj_delete k o)
  | _ => v
  end.

(** [v[i]] for a number [i]. *)
Definition get_index (v : value) (i : nat) : result value :=
  match v with
  | VArr l => Ok (arr_get i l)
  | VStr s => Ok (char_at i s)
  | _ => get v (string_of_nat i)
  end.

(** [Object.keys(v)] *)
Definition keys (v : value) : result (list string) :=
  match v with
  | VUndef | VNull => Throw TypeError
  | VObj o => Ok (obj_keys o)
  | VArr l => Ok (map string_of_nat (seq 0 (length l)))
  | VStr s => Ok (map string_of_nat (seq 0 (String.length s)))
  | VBool _ | VNum _ | VFun _ => Ok []
  end.

(** Own enumerable properties, in [Object.keys] order. *)
Definition own_entries (v : value) : obj :=
  match v with
  | VObj o => o
  | VArr l => imap (λ i e, (string_of_nat i, e)) l
  | VStr s => imap (λ i c, (string_of_nat i, VStr (String c EmptyString)))
                   (string_to_list s)
  | _ => []
  end.

(** [Object.assign(t, s)] on a target object [t]. *)
Definition object_assign (t : obj) (s : value) : obj :=
  foldl (λ acc kv, obj_set kv.1 kv.2 acc) t (own_entries s).

(** [===] with a primitive (or built-in function) on the left, as
    [Array.prototype.indexOf] uses it. *)
Definition strict_eq (e x : value) : bool :=
  match e, x with
  | VUndef, VUndef => true
  | VNull, VNull => true
  | VBool a, VBool b => Bool.eqb a b
  | VNum a, VNum b => (a =? b)%Z
  | VStr a, VStr b => String.eqb a b
  | VFun a, VFun b => String.eqb a b
  | _, _ => false
  end.

(** ToString, as [String.prototype.concat] and [Array.prototype.join]
    apply it. *)
Fixpoint to_string (v : value) : string :=
  match v with
  | VUndef => "undefined"
  | VNull => "null"
  | VBool true => "true"
  | VBool false => "false"
  | VNum n => pretty n
  | VStr s => s
  | VFun name => "function " +:+ name +:+ "() { [native code] }"
  | VObj _ => "[object Object]"
  | VArr l =>
      String.concat ","
        ((fix each (l : list value) : list string :=
            match l with
            | [] => []
            | VUndef :: l' => "" :: each l'
            | VNull :: l' => "" :: each l'
            | e :: l' => to_string e :: each l'
            end) l)
  end.

(** [a.join(sep)]: [undefined] and [null] elements give the empty string. *)
Definition join (sep : string) (l : list value) : string :=
  String.concat sep
    (map (λ e, match e with
               | VUndef | VNull => ""
               | _ => to_string e
               end) l).

(** [v[key]] for a key that is any value. *)
Definition get_value (v key : value) : result value :=
  match key with
  | VNum n => if (0 <=? n)%Z then get_index v (Z.to_nat n)
              else get v (to_string key)
  | _ => get v (to_string key)
  end.

(** [x.concat(y)] for a truthy receiver [x]. *)
Definition concat_values (x y : value) : result value :=
  match x with
  | VArr a => Ok (VArr (a ++ match y with VArr b => b | _ => [y] end))
  | VStr s => Ok (VStr (s +:+ to_string y))
  | _ => Throw TypeError
  end.

(** The members every plain object inherits from [Object.prototype]. *)
Definition Object_prototype (k : string) : option value :=
  if String.eqb k "__proto__" then Some (VObj [])
  else if existsb (String.eqb k)
       ["constructor"; "hasOwnProperty"; "isPrototypeOf";
        "propertyIsEnumerable"; "toLocaleString"; "toString"; "valueOf";
        "__defineGetter__"; "__defineSetter__";
        "__lookupGetter__"; "__lookupSetter__"]
  then Some (VFun k)
  else None.

(** [o[k]] on a plain object, prototype chain included. *)
Definition obj_lookup (o : obj) (k : string) : value :=
  match obj_get k o with
  | Some v => v
  | None => default VUndef (Object_prototype k)
  end.

(** [String.prototype.toLowerCase], on the ASCII letters. *)
Definition lower_ascii (c : ascii) : ascii :=
  let n := nat_of_ascii c in
  if ((65 <=? n) && (n <=? 90))%nat then ascii_of_nat (n + 32) else c.

Fixpoint toLowerCase (s : string) : string :=
  match s with
  | EmptyString => EmptyString
  | String c s' => String (lower_ascii c) (toLowerCase s')
  end.

End JS.
Import JS.

(** ** lib/config/config-cache.js *)

Module ConfigCache.

(** A config vector: config file paths (strings), each followed by the
    indices (numbers) of its override blocks that apply. *)
Definition vector := list value.

Definition VECTOR_SEP : string := ",".

(** [hash(vector)]: an array is always truthy, so it is joined. *)
Definition hash (vector : vector) : string := join VECTOR_SEP vector.

Record t := mk {
  filePathCache : gmap string value;
  localHierarchyCache : gmap string (list value);
  mergedVectorCache : gmap string value;
  mergedCache : gmap string value
}.

Definition init : t :=
  {| filePathCache := ∅; localHierarchyCache := ∅;
     mergedVectorCache := ∅; mergedCache := ∅ |}.

Definition getConfig (c : t) (filePath : string) : value :=
  default VUndef (filePathCache c !! filePath).

Definition setConfig (c : t) (filePath : string) (config : value) : t :=
  {| filePathCache := <[filePath := config]> (filePathCache c);
     localHierarchyCache := localHierarchyCache c;
     mergedVectorCache := mergedVectorCache c;
     mergedCache := mergedCache c |}.

Definition getHierarchyLocalConfigs (c : t) (directory : string)
  : option (list value) :=
  localHierarchyCache c !! directory.

(** [a.slice(0, e)]: a negative end counts from the end of the array. *)
Definition slice_to (e : Z) (l : list value) : list value :=
  let len := Z.of_nat (length l) in
  take (Z.to_nat (if (e <? 0)%Z then Z.max (len + e) 0 else Z.min e len)) l.

(** The [forEach] of [setHierarchyLocalConfigs], from index [i] on. *)
Fixpoint setHierarchy_from (i : nat) (parentDirectories : list string)
    (parentConfigs : list value) (h : gmap string (list value))
  : gmap string (list value) :=
  match parentDirectories with
  | [] => h
  | localConfigDirectory :: rest =>
      let directoryParentConfigs :=
        slice_to (Z.of_nat (length parentConfigs) - Z.of_nat i) parentConfigs in
      setHierarchy_from (S i) rest parentConfigs
        (<[localConfigDirectory := directoryParentConfigs]> h)
  end.

Definition setHierarchyLocalConfigs (c : t) (parentDirectories : list string)
    (parentConfigs : list value) : t :=
  {| filePathCache := filePathCache c;
     localHierarchyCache :=
       setHierarchy_from 0 parentDirectories parentConfigs
         (localHierarchyCache c);
     mergedVectorCache := mergedVectorCache c;
     mergedCache := mergedCache c |}.

Definition getMergedVectorConfig (c : t) (v : vector) : value :=
  default VUndef (mergedVectorCache c !! hash v).

Definition setMergedVectorKey (c : t) (key : string) (config : value) : t :=
  {| filePathCache := filePathCache c;
     localHierarchyCache := localHierarchyCache c;
     mergedVectorCache := <[key := config]> (mergedVectorCache c);
     mergedCache := mergedCache c |}.

Definition setMergedVectorConfig (c : t) (v : vector) (config : value) : t :=
  setMergedVectorKey c (hash v) config.

Definition getMergedConfig (c : t) (v : vector) : value :=
  default VUndef (mergedCache c !! hash v).

Definition setMergedConfig (c : t) (v : vector) (config : value) : t :=
  {| filePathCache := filePathCache c;
     localHierarchyCache := localHierarchyCache c;
     mergedVectorCache := mergedVectorCache c;
     mergedCache := <[hash v := config]> (mergedCache c) |}.

End ConfigCache.

(** ** Collaborators of the core *)

(** [minimatch(path, pattern, { matchBase: true })] *)
Class GlobMatcher := minimatch : string → string → bool.

(** [Environments.get(name)]: the environment's definition object, or
    [undefined]. *)
Class EnvironmentRegistry := Environments_get : string → value.

(** ** lib/config/config-ops.js *)

Module ConfigOps.
Import ConfigCache.

Definition RULE_SEVERITY_STRINGS : list value :=
  [VStr "off"; VStr "warn"; VStr "error"].

(** The [reduce] that inverts [RULE_SEVERITY_STRINGS] into a plain object. *)
Definition RULE_SEVERITY : obj :=
  foldl (λ map vi, obj_set (to_string vi.2) (VNum (Z.of_nat vi.1)) map) []
        (imap (λ index value, (index, value)) RULE_SEVERITY_STRINGS).

Definition VALID_SEVERITIES : list value :=
  [VNum 0; VNum 1; VNum 2; VStr "off"; VStr "warn"; VStr "error"].

Definition createEmptyConfig : obj :=
  [("globals", VObj []); ("env", VObj []); ("rules", VObj []);
   ("parserOptions", VObj [])].

(** *** merge *)

(** One turn of the [forEach] in the array branch: [e] is [src[i]] and
    [recur t] is [deepmerge(t, e, combine, isRule)]. *)
Definition array_step (target : value) (combine isRule : bool) (i : nat)
    (e : value) (recur : value → result value) (dst : list value)
  : result (list value) :=
  if String.eqb (typeof (arr_get i dst)) "undefined" then
    Ok (arr_set i e dst)
  else if String.eqb (typeof e) "object" then
    if isRule then Ok (arr_set i e dst)
    else
      ti ← get_index target i;
      r ← recur ti;
      Ok (arr_set i r dst)
  else if negb combine then Ok (arr_set i e dst)
  else if negb (existsb (strict_eq e) dst) then Ok (dst ++ [e])
  else Ok dst.

Fixpoint array_loop (target : value) (combine isRule : bool)
    (elems : list (value * (value → result value))) (i : nat)
    (dst : list value) : result (list value) :=
  match elems with
  | [] => Ok dst
  | (e, recur) :: rest =>
      dst' ← array_step target combine isRule i e recur dst;
      array_loop target combine isRule rest (S i) dst'
  end.

(** What one turn of the [forEach] over [Object.keys(src)] in the object
    branch assigns to [dst[key]]: [sv] is [src[key]] and [recur t c r] is
    [deepmerge(t, sv, c, r)].  [target[key]] is read as an own property,
    which is what the source reads unless [key] is the name of a member of
    [Object.prototype] that [target] does not have itself. *)
Definition object_value (target : value) (combine isRule : bool)
    (key : string) (sv : value)
    (recur : value → bool → bool → result value) : result value :=
  tk ← get target key;
  if String.eqb key "overrides" then
    concat_values (or_else tk (VArr [])) (or_else sv (VArr []))
  else if isArray sv || isArray tk then
    recur tk (String.eqb key "plugins") isRule
  else if negb (String.eqb (typeof sv) "object") || negb (truthy sv)
          || String.eqb key "exported" || String.eqb key "astGlobals" then
    Ok sv
  else
    recur (or_else tk (VObj [])) combine (String.eqb key "rules").

Definition object_step (target : value) (combine isRule : bool)
    (key : string) (sv : value)
    (recur : value → bool → bool → result value) (dst : obj) : result obj :=
  x ← object_value target combine isRule key sv recur;
  Ok (obj_set key x dst).

Fixpoint object_loop (target : value) (combine isRule : bool)
    (entries : list (string * value * (value → bool → bool → result value)))
    (dst : obj) : result obj :=
  match entries with
  | [] => Ok dst
  | (key, sv, recur) :: rest =>
      dst' ← object_step target combine isRule key sv recur dst;
      object_loop target combine isRule rest dst'
  end.

(** [[].concat(v)] *)
Definition concat_into_empty (v : value) : list value :=
  match v with
  | VArr l => l
  | _ => [v]
  end.

(** The array branch when [src] is not of type "object": it is wrapped into
    a one-element array, whose element is never merged recursively. *)
Definition merge_wrapped (target src : value) (combine isRule : bool)
  : result value :=
  let target := or_else target (VArr []) in
  dst ← array_loop target combine isRule [(src, λ _, Throw TypeError)] 0
        (concat_into_empty target);
  Ok (VArr dst).

(** [deepmerge(target, src, combine, isRule)].  The recursion follows the
    components of [src]. *)
Fixpoint merge (target src : value) (combine isRule : bool) {struct src}
  : result value :=
  if isArray src || isArray target then
    match src with
    | VNull => Throw TypeError
    | VArr l =>
        let target := or_else target (VArr []) in
        let dst := if isRule && (1 <? length l)%nat then l
                   else concat_into_empty target in
        dst ← array_loop target combine isRule
                ((fix elems (l : list value) :=
                    match l with
                    | [] => []
                    | e :: l' =>
                        (e, λ t, merge t e combine isRule) :: elems l'
                    end) l) 0 dst;
        Ok (VArr dst)
    | VObj o =>
        let target := or_else target (VArr []) in
        dst ← array_loop target combine isRule
                ((fix elems (keys : obj) (i : nat) :=
                    match keys with
                    | [] => []
                    | _ :: keys' =>
                        (fix find (o' : obj) :=
                           match o' with
                           | [] => (VUndef, λ _, Throw TypeError)
                           | (k, v) :: o'' =>
                               if String.eqb (string_of_nat i) k
                               then (v, λ t, merge t v combine isRule)
                               else find o''
                           end) o :: elems keys' (S i)
                    end) o 0%nat) 0 (concat_into_empty target);
        Ok (VArr dst)
    | _ => merge_wrapped target src combine isRule
    end
  else
    let dst := match target with VObj t => t | _ => [] end in
    match src with
    | VUndef | VNull => Throw TypeError
    | VObj o =>
        dst ← object_loop target combine isRule
                ((fix entries (o : obj) :=
                    match o with
                    | [] => []
                    | (key, sv) :: o' =>
                        (key, sv, λ t c r, merge t sv c r) :: entries o'
                    end) o) dst;
        Ok (VObj dst)
    | VStr s =>
        dst ← object_loop target combine isRule
                (map (λ kv, (kv.1, kv.2, λ t c r, merge_wrapped t kv.2 c r))
                     (own_entries src)) dst;
        Ok (VObj dst)
    | _ => Ok (VObj dst)
    end.

(** *** Severities *)

(** [RULE_SEVERITY[text.toLowerCase()] || 0] *)
Definition severity_of_text (text : string) : value :=
  or_else (obj_lookup RULE_SEVERITY (toLowerCase text)) (VNum 0).

(** [RULE_SEVERITY_STRINGS[n] || RULE_SEVERITY_STRINGS[0]] *)
Definition text_of_severity (n : Z) : value :=
  or_else (if (n <? 0)%Z then VUndef
           else arr_get (Z.to_nat n) RULE_SEVERITY_STRINGS)
          (arr_get 0 RULE_SEVERITY_STRINGS).

(** What [normalize] does to one entry of [config.rules]. *)
Definition normalize_rule (ruleConfig : value) : value :=
  match ruleConfig with
  | VStr s => severity_of_text s
  | VArr l =>
      match arr_get 0 l with
      | VStr s => VArr (arr_set 0 (severity_of_text s) l)
      | _ => ruleConfig
      end
  | _ => ruleConfig
  end.

(** What [normalizeToStrings] does to one entry of [config.rules]. *)
Definition normalizeToStrings_rule (ruleConfig : value) : value :=
  match ruleConfig with
  | VNum n => text_of_severity n
  | VArr l =>
      match arr_get 0 l with
      | VNum n => VArr (arr_set 0 (text_of_severity n) l)
      | _ => ruleConfig
      end
  | _ => ruleConfig
  end.

(** [config.rules = rules] seen from the caller after the in-place updates. *)
Definition with_rules (config rules : value) : value :=
  match config with
  | VObj c => VObj (obj_set "rules" rules c)
  | _ => config
  end.

(** [normalize(config)]; the result is [config] after the call.  A string
    for [rules] enumerates its characters, and assigning to one throws in
    strict mode. *)
Definition normalize (config : value) : result value :=
  rules ← get config "rules";
  if truthy rules then
    match rules with
    | VObj o => Ok (with_rules config (VObj (map (λ kv, (kv.1, normalize_rule kv.2)) o)))
    | VArr l => Ok (with_rules config (VArr (map normalize_rule l)))
    | VStr _ => Throw TypeError
    | _ => Ok config
    end
  else Ok config.

(** [normalizeToStrings(config)]; the result is [config] after the call. *)
Definition normalizeToStrings (config : value) : result value :=
  rules ← get config "rules";
  if truthy rules then
    match rules with
    | VObj o =>
        Ok (with_rules config
              (VObj (map (λ kv, (kv.1, normalizeToStrings_rule kv.2)) o)))
    | VArr l => Ok (with_rules config (VArr (map normalizeToStrings_rule l)))
    | _ => Ok config
    end
  else Ok config.

Definition severity_part (ruleConfig : value) : value :=
  match ruleConfig with
  | VArr l => arr_get 0 l
  | _ => ruleConfig
  end.

Definition isErrorSeverity (ruleConfig : value) : bool :=
  let severity := severity_part ruleConfig in
  let severity := match severity with
                  | VStr s => severity_of_text s
                  | _ => severity
                  end in
  String.eqb (typeof severity) "number" && strict_eq severity (VNum 2).

Definition isValidSeverity (ruleConfig : value) : bool :=
  let severity := severity_part ruleConfig in
  let severity := match severity with
                  | VStr s => VStr (toLowerCase s)
                  | _ => severity
                  end in
  existsb (strict_eq severity) VALID_SEVERITIES.

Definition isEverySeverityValid (config : value) : result bool :=
  ks ← keys config;
  Ok (forallb (λ ruleId, isValidSeverity (prop config ruleId)) ks).

(** *** Environments *)

Definition sub_object (envConfig : obj) (k : string) : obj :=
  match obj_get k envConfig with
  | Some (VObj o) => o
  | _ => []
  end.

Definition createEnvironmentConfig `{EnvironmentRegistry} (env : value) : obj :=
  let envConfig := createEmptyConfig in
  if truthy env then
    let envConfig := obj_set "env" env envConfig in
    foldl
      (λ envConfig name,
         let environment := Environments_get name in
         if truthy environment then
           let envConfig :=
             if truthy (prop environment "globals") then
               obj_set "globals"
                 (VObj (object_assign (sub_object envConfig "globals")
                                      (prop environment "globals")))
                 envConfig
             else envConfig in
           if truthy (prop environment "parserOptions") then
             obj_set "parserOptions"
               (VObj (object_assign (sub_object envConfig "parserOptions")
                                    (prop environment "parserOptions")))
               envConfig
           else envConfig
         else envConfig)
      envConfig
      (filter (λ name, truthy (prop env name)) (obj_keys (own_entries env)))
  else envConfig.

Definition applyEnvironments `{EnvironmentRegistry} (config : value)
  : result value :=
  env ← get config "env";
  if truthy env && String.eqb (typeof env) "object" then
    merge (VObj (createEnvironmentConfig env)) config false false
  else Ok config.

(** *** getConfigFromVector *)

(** The probing loop: [k] is [nearestCacheIndex + 1], the length of the
    subvector about to be probed.  A hit carries that length. *)
Fixpoint probe (cache : ConfigCache.t) (vector : vector) (k : nat)
  : option (nat * value) :=
  match k with
  | O => None
  | S k' =>
      let config := getMergedVectorConfig cache (take k vector) in
      if truthy config then Some (k, config) else probe cache vector k'
  end.

(** The backward walk to the nearest token that is a string; [before] is
    what precedes [parentConfigKey], nearest first. *)
Fixpoint find_parent (parentConfigKey : value) (before : list value) : value :=
  match parentConfigKey with
  | VStr _ => parentConfigKey
  | _ =>
      match before with
      | [] => parentConfigKey
      | t :: before' => find_parent t before'
      end
  end.

(** [configCache.getConfig(key)]: the table is keyed by strings, any other
    value finds nothing. *)
Definition getConfig_value (cache : ConfigCache.t) (key : value) : value :=
  match key with
  | VStr s => getConfig cache s
  | _ => VUndef
  end.

(** The deletions after each merge. *)
Definition strip_bookkeeping (config : value) : value :=
  if truthy (prop config "filePath") then
    delete_prop (delete_prop config "filePath") "baseDirectory"
  else if truthy (prop config "files") then delete_prop config "files"
  else config.

(** The merging loop over the tokens [rest] of [vector] not covered by the
    cache.  The outcome of a loop that returns is the config with the cache
    as written; a loop that throws gives the exception alone, without the
    entries the turns before it wrote. *)
Fixpoint fold_vector (vector : vector) (rest : list value)
    (config subConfigs : value) (cache : ConfigCache.t)
  : result (value * ConfigCache.t) :=
  match rest with
  | [] => Ok (config, cache)
  | configKey :: rest' =>
      sc ← match configKey with
           | VStr s =>
               let shallowConfig := getConfig cache s in
               subConfigs ← get shallowConfig "overrides";
               Ok (shallowConfig, subConfigs)
           | _ =>
               shallowConfig ← get_value subConfigs configKey;
               Ok (shallowConfig, subConfigs)
           end;
      config ← merge config sc.1 false false;
      let config := strip_bookkeeping config in
      let cache := setMergedVectorConfig cache vector config in
      fold_vector vector rest' config sc.2 cache
  end.

Definition getConfigFromVector (cache : ConfigCache.t) (vector : vector)
  : result (value * ConfigCache.t) :=
  match probe cache vector (length vector) with
  | Some (k, config) =>
      if (k =? length vector)%nat then Ok (config, cache)
      else
        subConfigs ←
          match vector !! k with
          | Some (VNum _) =>
              let parentConfigKey :=
                match rev (take k vector) with
                | t :: before => find_parent t before
                | [] => VUndef
                end in
              get (getConfig_value cache parentConfigKey) "overrides"
          | _ => Ok VUndef
          end;
        fold_vector vector (drop k vector) config subConfigs cache
  | None => fold_vector vector vector (VObj []) VUndef cache
  end.

(** *** pathMatchesGlobs *)

(** [minimatch] accepts only a string as its pattern. *)
Definition minimatch_value `{GlobMatcher} (filePath : string) (pattern : value)
  : result bool :=
  match pattern with
  | VStr p => Ok (minimatch filePath p)
  | _ => Throw TypeError
  end.

(** [patterns.every(...)]: stops at the first pattern that does not match. *)
Fixpoint every_matches `{GlobMatcher} (filePath : string)
    (patterns : list value) : result bool :=
  match patterns with
  | [] => Ok true
  | pattern :: rest =>
      m ← minimatch_value filePath pattern;
      if m : bool then every_matches filePath rest else Ok false
  end.

Definition pathMatchesGlobs `{GlobMatcher} (filePath : string)
    (patterns : value) : result bool :=
  every_matches filePath (concat_into_empty patterns).

End ConfigOps.

(** The file system side of the resolver: [user-home], Node's [path],
    [path-is-inside], [FileFinder] and the parsing half of [ConfigFile]. *)
Class FileSystem := {
  (** [require("user-home")] *)
  userHome : option string;
  (** [path.dirname] *)
  dirname : string → string;
  (** [pathIsInside(thePath, potentialParent)] *)
  pathIsInside : string → string → bool;
  (** [ConfigFile.getFilenameForDirectory(directory)]: the config file of a
      directory, if it has one *)
  getFilenameForDirectory : string → option string;
  (** what parsing the config file at a path gives; falsy for an empty file *)
  ConfigFile_load : string → value;
  (** [ConfigFile.loadObject(configObject)] *)
  ConfigFile_loadObject : value → value;
  (** [new FileFinder(ConfigFile.CONFIG_FILES, cwd)
        .findAllInDirectoryAndParents(directory)], nearest first *)
  findAllInDirectoryAndParents : string → string → list string;
  (** the path a [configFile] option of the command line stands for *)
  resolveConfigFile : string → string → string
}.

(** ** lib/config.js *)

Module Config.
Import ConfigCache ConfigOps.

Section WithCollaborators.
Context `{GlobMatcher} `{EnvironmentRegistry} `{FileSystem}.

(** [userHome || null] *)
Definition PERSONAL_CONFIG_DIR : option string :=
  match userHome with
  | Some home => if String.eqb home "" then None else Some home
  | None => None
  end.

Definition SUBCONFIG_SEP : ascii := ":"%char.

(** Modelled from the spec: [ConfigFile.loadCached] is in
    lib/config/config-file.js, which is missing from the sources.  Given a
    path it returns the parsed config source, or the cached previous result
    for the same path from the shallow-config-by-path table. *)
Definition loadCached (cache : ConfigCache.t) (filePath : string)
  : value * ConfigCache.t :=
  let cached := getConfig cache filePath in
  if truthy cached then (cached, cache)
  else
    let config := ConfigFile_load filePath in
    if truthy config then (config, setConfig cache filePath config)
    else (config, cache).

(** The options given to the constructor. *)
Record options := {
  cwd : string;
  opt_parser : value;
  opt_parserOptions : value;
  opt_baseConfig : value;
  opt_useEslintrc : value;
  opt_envs : list string;
  opt_globals : list string;
  opt_configFile : option string;
  opt_plugins : value;
  opt_rules : value
}.

Definition hasRules (o : options) : bool :=
  truthy (opt_rules o) && (0 <? length (own_entries (opt_rules o)))%nat.

(** The fields of a [Config] instance the resolver reads.  [personalConfig]
    is [None] while the property is still [undefined]. *)
Record t := mk {
  opts : options;
  parser : value;
  parserOptions : value;
  baseConfig : value;
  useEslintrc : bool;
  env : value;
  globals : value;
  useSpecificConfig : value;
  cliConfig : value;
  personalConfig : option value
}.

Definition set_personalConfig (self : t) (p : value) : t :=
  {| opts := opts self; parser := parser self;
     parserOptions := parserOptions self; baseConfig := baseConfig self;
     useEslintrc := useEslintrc self; env := env self;
     globals := globals self; useSpecificConfig := useSpecificConfig self;
     cliConfig := cliConfig self; personalConfig := Some p |}.

(** [s.split(sep)] *)
Fixpoint split_on (sep : ascii) (s : string) : list string :=
  match s with
  | EmptyString => [EmptyString]
  | String c s' =>
      if Ascii.eqb c sep then EmptyString :: split_on sep s'
      else match split_on sep s' with
           | part :: parts => String c part :: parts
           | [] => [String c EmptyString]
           end
  end.

Definition set_prop (v : value) (k : string) (x : value) : value :=
  match v with
  | VObj o => VObj (obj_set k x o)
  | _ => v
  end.

(** [new Config(options)]: the instance and the freshly initialised cache. *)
Definition constructor (o : options) : result (t * ConfigCache.t) :=
  let parserOptions := or_else (opt_parserOptions o) (VObj []) in
  baseConfig ←
    (if truthy (opt_baseConfig o)
     then merge (VObj []) (ConfigFile_loadObject (opt_baseConfig o)) false false
     else Ok (VObj [("rules", VObj [])]));
  let baseConfig := set_prop baseConfig "filePath" (VStr "") in
  let baseConfig := set_prop baseConfig "baseDirectory" (VStr (cwd o)) in
  let cache := ConfigCache.init in
  let cache := setConfig cache "" baseConfig in
  (* hash("") is "": the falsy branch of hash *)
  let cache := setMergedVectorKey cache "" baseConfig in
  let useEslintrc := negb (strict_eq (VBool false) (opt_useEslintrc o)) in
  let env := VObj (foldl (λ envs name, obj_set name (VBool true) envs) []
                         (opt_envs o)) in
  let globals :=
    VObj (foldl
            (λ globals def,
               let parts := split_on SUBCONFIG_SEP def in
               obj_set (List.hd "" parts)
                 (VBool ((1 <? length parts)%nat
                         && strict_eq (VStr "true") (arr_get 1 (map VStr parts))))
                 globals)
            [] (opt_globals o)) in
  let '(useSpecificConfig, cache) :=
    match opt_configFile o with
    | Some useConfig =>
        if String.eqb useConfig "" then (VUndef, cache)
        else loadCached cache (resolveConfigFile (cwd o) useConfig)
    | None => (VUndef, cache)
    end in
  let cliConfigOptions :=
    [("env", env); ("rules", opt_rules o); ("globals", globals);
     ("parserOptions", parserOptions); ("plugins", opt_plugins o)] in
  let cliConfig :=
    VObj (foldl (λ cliConfig kv,
                   if truthy kv.2 then obj_set kv.1 kv.2 cliConfig
                   else cliConfig)
                [] cliConfigOptions) in
  Ok ({| opts := o; parser := opt_parser o; parserOptions := parserOptions;
         baseConfig := baseConfig; useEslintrc := useEslintrc; env := env;
         globals := globals; useSpecificConfig := useSpecificConfig;
         cliConfig := cliConfig; personalConfig := None |}, cache).

Definition getPersonalConfig (self : t) (cache : ConfigCache.t)
  : value * t * ConfigCache.t :=
  match personalConfig self with
  | Some p => (p, self, cache)
  | None =>
      let '(config, cache) :=
        match PERSONAL_CONFIG_DIR with
        | Some home =>
            match getFilenameForDirectory home with
            | Some filename => loadCached cache filename
            | None => (VUndef, cache)
            end
        | None => (VUndef, cache)
        end in
      let p := or_else config VNull in
      (p, set_personalConfig self p, cache)
  end.

Definition findLocalConfigFiles (self : t) (directory : string) : list string :=
  findAllInDirectoryAndParents (cwd (opts self)) directory.

(** What the [for ... of] loop of [getLocalConfigHierarchy] leaves behind. *)
Record walked := {
  w_configs : list value;
  w_searched : list string;
  w_cache : option (list value);
  w_store : ConfigCache.t
}.

(** The loop over [localConfigFiles]; a cache hit is the [break]. *)
Fixpoint walk (projectConfigPath : option string)
    (localConfigFiles : list string) (configs : list value)
    (searched : list string) (rootPath : option string)
    (cache : ConfigCache.t) : walked :=
  match localConfigFiles with
  | [] => {| w_configs := configs; w_searched := searched;
             w_cache := None; w_store := cache |}
  | localConfigFile :: rest =>
      let localConfigDirectory := dirname localConfigFile in
      match getHierarchyLocalConfigs cache localConfigDirectory with
      | Some hit => {| w_configs := configs; w_searched := searched;
                       w_cache := Some hit; w_store := cache |}
      | None =>
          if bool_decide (Some localConfigDirectory = PERSONAL_CONFIG_DIR)
             && negb (bool_decide (Some localConfigFile = projectConfigPath))
          then walk projectConfigPath rest configs searched rootPath cache
          else if match rootPath with
                  | Some root =>
                      negb (String.eqb root "")
                      && negb (pathIsInside (dirname localConfigFile) root)
                  | None => false
                  end
          then walk projectConfigPath rest configs searched rootPath cache
          else
            let '(localConfig, cache) := loadCached cache localConfigFile in
            if negb (truthy localConfig)
            then walk projectConfigPath rest configs searched rootPath cache
            else
              let rootPath :=
                if strict_eq (VBool true) (prop localConfig "root")
                then Some (dirname localConfigFile) else rootPath in
              walk projectConfigPath rest (configs ++ [localConfig])
                   (searched ++ [localConfigDirectory]) rootPath cache
      end
  end.

Definition getLocalConfigHierarchy (self : t) (cache : ConfigCache.t)
    (directory : string) : result (list value * t * ConfigCache.t) :=
  let localConfigFiles := findLocalConfigFiles self directory in
  let projectConfigPath := getFilenameForDirectory (cwd (opts self)) in
  let w := walk projectConfigPath localConfigFiles [] [] None cache in
  let configs := w_configs w in
  r ← (if (length configs =? 0)%nat && negb (bool_decide (is_Some (w_cache w)))
          && negb (truthy (useSpecificConfig self))
       then
         let '(personalConfig, self, cache) :=
           getPersonalConfig self (w_store w) in
         if truthy personalConfig then Ok (configs ++ [personalConfig], self, cache)
         else if negb (hasRules (opts self))
                 && negb (truthy (opt_baseConfig (opts self)))
         then Throw (NoConfigFound directory localConfigFiles)
         else Ok (configs, self, cache)
       else Ok (configs, self, w_store w));
  let '(configs, self, cache) := r in
  let configs := rev configs in
  let result := match w_cache w with
                | Some hit => hit ++ configs
                | None => configs
                end in
  Ok (result, self, setHierarchyLocalConfigs cache (w_searched w) result).

Definition getConfigHierarchy (self : t) (cache : ConfigCache.t)
    (directory : string) : result (list value * t * ConfigCache.t) :=
  let configs := [baseConfig self] in
  r ← (if useEslintrc self then
         r ← getLocalConfigHierarchy self cache directory;
         let '(locals, self, cache) := r in
         Ok (configs ++ locals, self, cache)
       else Ok (configs, self, cache));
  let '(configs, self, cache) := r in
  if truthy (useSpecificConfig self)
  then Ok (configs ++ [useSpecificConfig self], self, cache)
  else Ok (configs, self, cache).

(** [s.substr(start)] *)
Definition substr (start : nat) (s : string) : string :=
  String.substring start (String.length s - start) s.

(** The inner [overrides.forEach]: the indices of the blocks whose [files]
    all match, from index [i] on. *)
Fixpoint matching_overrides (relativePath : string) (overrides : list value)
    (i : nat) : result (list value) :=
  match overrides with
  | [] => Ok []
  | override :: rest =>
      files ← get override "files";
      m ← pathMatchesGlobs relativePath files;
      more ← matching_overrides relativePath rest (S i);
      Ok (if m : bool then VNum (Z.of_nat i) :: more else more)
  end.

(** What one config of the hierarchy appends to the vector. *)
Definition vector_entries (path : string) (config : value)
  : result (list value) :=
  overrides ← get config "overrides";
  filePath ← get config "filePath";
  if negb (truthy overrides) then Ok [filePath]
  else
    baseDirectory ← get config "baseDirectory";
    len ← get baseDirectory "length";
    let start := match len with
                 | VNum n => Z.to_nat (n + 1)
                 | _ => 0%nat
                 end in
    let relativePath := substr start path in
    match overrides with
    | VArr blocks =>
        indices ← matching_overrides relativePath blocks 0;
        Ok (filePath :: indices)
    | _ => Throw TypeError
    end.

Fixpoint vector_of_hierarchy (path : string) (configs : list value)
  : result vector :=
  match configs with
  | [] => Ok []
  | config :: rest =>
      entries ← vector_entries path config;
      more ← vector_of_hierarchy path rest;
      Ok (entries ++ more)
  end.

(** [filePath] is [None] for a call without an argument. *)
Definition truthy_path (filePath : option string) : option string :=
  match filePath with
  | Some p => if String.eqb p "" then None else Some p
  | None => None
  end.

Definition getConfigVector (self : t) (cache : ConfigCache.t)
    (filePath : option string) : result (vector * t * ConfigCache.t) :=
  let directory := match truthy_path filePath with
                   | Some p => dirname p
                   | None => cwd (opts self)
                   end in
  r ← getConfigHierarchy self cache directory;
  let '(configs, self, cache) := r in
  vector ← vector_of_hierarchy (default directory (truthy_path filePath)) configs;
  Ok (vector, self, cache).

(** [getConfig] from the cache probe on, for the vector just built. *)
Definition getConfigForVector (self : t) (cache : ConfigCache.t)
    (vector : vector) : result (value * ConfigCache.t) :=
  let config := getMergedConfig cache vector in
  if truthy config then Ok (config, cache)
  else
    r ← getConfigFromVector cache vector;
    let '(config, cache) := r in
    config ← merge config (cliConfig self) false false;
    parser' ← get config "parser";
    config ← (if truthy (parser self) || negb (truthy parser')
              then merge config (VObj [("parser", parser self)]) false false
              else Ok config);
    env ← get config "env";
    config ← (if truthy env then applyEnvironments config else Ok config);
    Ok (config, setMergedConfig cache vector config).

Definition getConfig (self : t) (cache : ConfigCache.t)
    (filePath : option string) : result (value * t * ConfigCache.t) :=
  r ← getConfigVector self cache filePath;
  let '(vector, self, cache) := r in
  r ← getConfigForVector self cache vector;
  Ok (r.1, self, r.2).

End WithCollaborators.
End Config.

(** ** Definitions used to state the properties *)

Import ConfigCache ConfigOps.

Section SelectedOverrides.
Context `{GlobMatcher}.

(** The indices of the pattern lists in [pats], counted from [i], all of
    whose patterns match [relativePath]. *)
Fixpoint selected (relativePath : string) (pats : list (list string)) (i : nat)
  : list nat :=
  match pats with
  | [] => []
  | ps :: rest =>
      if forallb (minimatch relativePath) ps
      then i :: selected relativePath rest (S i)
      else selected relativePath rest (S i)
  end.

End SelectedOverrides.

(** A rule entry that spells its severity as text, scalar or first element
    of the array form, where the lower-cased text is not the name of a
    member inherited from [Object.prototype]. *)
Definition textual_without_inherited_name (ruleConfig : value) : Prop :=
  match ruleConfig with
  | VStr s => Object_prototype (toLowerCase s) = None
  | VArr (VStr s :: _) => Object_prototype (toLowerCase s) = None
  | _ => False
  end.

(** The entry with its severity text lower-cased when that is a valid
    severity, and replaced by "off" otherwise. *)
Definition lowered_severity (ruleConfig : value) : value :=
  let lowered s :=
    VStr (if isValidSeverity (VStr s) then toLowerCase s else "off") in
  match ruleConfig with
  | VStr s => lowered s
  | VArr (VStr s :: rest) => VArr (lowered s :: rest)
  | _ => ruleConfig
  end.

(** The number of a severity text: 0, 1 and 2 for "off", "warn" and "error"
    in any letter case, and 0 for every other text. *)
Definition severity_number (s : string) : Z :=
  if String.eqb (toLowerCase s) "warn" then 1
  else if String.eqb (toLowerCase s) "error" then 2
  else 0.

(** The entry with its severity text replaced by its number. *)
Definition numbered_severity (ruleConfig : value) : value :=
  match ruleConfig with
  | VStr s => VNum (severity_number s)
  | VArr (VStr s :: rest) => VArr (VNum (severity_number s) :: rest)
  | _ => ruleConfig
  end.

(** A textual severity, scalar or first element of the array form, that is
    spelled in lower case. *)
Definition lower_case_text (ruleConfig : value) : Prop :=
  match severity_part ruleConfig with
  | VStr s => toLowerCase s = s
  | _ => False
  end.

(** The entries the object branch iterates over when [src] is an object. *)
Definition src_entries (o : obj)
  : list (string * value * (value → bool → bool → result value)) :=
  map (λ kv, (kv.1, kv.2, λ t c r, merge t kv.2 c r)) o.


(** ** A sample project

    <<
    /x/.eslintrc        rules.semi = "error", one override block for files
                        matching both "*.ts" and "src/**"
    /x/a/.eslintrc      root: true, rules.eqeqeq = 2
    >>
    with a matcher that knows the "*suffix" and "prefix/**" patterns. *)

Module Sample.

Fixpoint is_prefix (p s : string) : bool :=
  match p, s with
  | EmptyString, _ => true
  | String a p', String b s' => Ascii.eqb a b && is_prefix p' s'
  | String _ _, EmptyString => false
  end.

Definition is_suffix (p s : string) : bool :=
  is_prefix (String.rev p) (String.rev s).

Definition sample_minimatch (path pattern : string) : bool :=
  match pattern with
  | String "*"%char suffix => is_suffix suffix path
  | _ =>
      if is_suffix "/**" pattern
      then is_prefix (String.substring 0 (String.length pattern - 2) pattern) path
      else String.eqb path pattern
  end.

Global Instance matcher : GlobMatcher := sample_minimatch.

Definition browser_env : value :=
  VObj [("globals", VObj [("window", VBool false); ("document", VBool false)])].

Global Instance registry : EnvironmentRegistry := λ name,
  if String.eqb name "browser" then browser_env else VUndef.

(** [path.dirname] on absolute POSIX paths. *)
Definition posix_dirname (p : string) : string :=
  let parts := Config.split_on "/"%char p in
  let dir := String.concat "/" (take (length parts - 1) parts) in
  if String.eqb dir "" then "/" else dir.

Definition posix_pathIsInside (thePath potentialParent : string) : bool :=
  String.eqb thePath potentialParent
  || is_prefix (potentialParent +:+ "/") thePath.

Definition project_config : value :=
  VObj [("rules", VObj [("semi", VStr "error")]);
        ("overrides",
         VArr [VObj [("files", VArr [VStr "*.ts"; VStr "src/**"]);
                     ("rules", VObj [("semi", VStr "off")])]]);
        ("filePath", VStr "/x/.eslintrc");
        ("baseDirectory", VStr "/x")].

Definition root_config : value :=
  VObj [("root", VBool true);
        ("rules", VObj [("eqeqeq", VNum 2)]);
        ("filePath", VStr "/x/a/.eslintrc");
        ("baseDirectory", VStr "/x/a")].

Definition sample_load (path : string) : value :=
  if String.eqb path "/x/.eslintrc" then project_config
  else if String.eqb path "/x/a/.eslintrc" then root_config
  else VUndef.

(** The ancestors of a directory, itself first. *)
Fixpoint ancestors (fuel : nat) (directory : string) : list string :=
  match fuel with
  | O => []
  | S fuel' =>
      directory ::
      (if String.eqb directory "/" then []
       else ancestors fuel' (posix_dirname directory))
  end.

Definition sample_filename (directory : string) : option string :=
  let file := directory +:+ "/.eslintrc" in
  if truthy (sample_load file) then Some file else None.

Global Instance files : FileSystem := {|
  userHome := Some "/home/u";
  dirname := posix_dirname;
  pathIsInside := posix_pathIsInside;
  getFilenameForDirectory := sample_filename;
  ConfigFile_load := sample_load;
  ConfigFile_loadObject := λ o, o;
  findAllInDirectoryAndParents := λ _ directory,
    omap sample_filename (ancestors (String.length directory) directory);
  resolveConfigFile := λ cwd name, cwd +:+ "/" +:+ name
|}.

Definition sample_options : Config.options := {|
  Config.cwd := "/x";
  Config.opt_parser := VUndef;
  Config.opt_parserOptions := VUndef;
  Config.opt_baseConfig := VUndef;
  Config.opt_useEslintrc := VUndef;
  Config.opt_envs := [];
  Config.opt_globals := [];
  Config.opt_configFile := None;
  Config.opt_plugins := VUndef;
  Config.opt_rules := VUndef
|}.

(** The same options with the config files switched off. *)
Definition no_eslintrc_options : Config.options := {|
  Config.cwd := "/x";
  Config.opt_parser := VUndef;
  Config.opt_parserOptions := VUndef;
  Config.opt_baseConfig := VUndef;
  Config.opt_useEslintrc := VBool false;
  Config.opt_envs := [];
  Config.opt_globals := [];
  Config.opt_configFile := None;
  Config.opt_plugins := VUndef;
  Config.opt_rules := VUndef
|}.

(** The base config the constructor builds from [sample_options]. *)
Definition base_config : value :=
  VObj [("rules", VObj []); ("filePath", VStr ""); ("baseDirectory", VStr "/x")].

(** The cache once [/x/.eslintrc] has been loaded. *)
Definition loaded_cache : ConfigCache.t :=
  setConfig
    (setMergedVectorKey (setConfig ConfigCache.init "" base_config)
                        "" base_config)
    "/x/.eslintrc" project_config.

(** The vector of [/x/src/a.ts]. *)
Definition sample_vector : vector :=
  [VStr ""; VStr "/x/.eslintrc"; VNum 0].

End Sample.

(** ** Runs of the resolver *)

(** The two merge tables are the same in both caches. *)
Definition same_merged (c c' : ConfigCache.t) : Prop :=
  mergedCache c' = mergedCache c ∧ mergedVectorCache c' = mergedVectorCache c.

Section Runs.
Context `{GlobMatcher} `{EnvironmentRegistry} `{FileSystem}.

(** One call of [getConfig] on some file that returns.  A call that throws
    is not a step: runs are sequences of calls that all returned. *)
Inductive resolves : Config.t * ConfigCache.t → Config.t * ConfigCache.t → Prop :=
| resolves_call self cache filePath config self' cache' :
    Config.getConfig self cache filePath = Ok (config, self', cache') →
    resolves (self, cache) (self', cache').

End Runs.

(** ** Bookkeeping keys and well-formed vectors *)

(** [k] is an own enumerable property name of [v]. *)
Definition own_key (k : string) (v : value) : Prop :=
  k ∈ obj_keys (own_entries v).

(** No [filePath] and no [baseDirectory] key. *)
Definition clean (config : value) : Prop :=
  has_key "filePath" config = false ∧ has_key "baseDirectory" config = false.

(** What is merged in brings neither key along. *)
Definition clean_block (b : value) : Prop :=
  ¬ own_key "filePath" b ∧ ¬ own_key "baseDirectory" b.

(** The [overrides] of a source: absent, or an array of blocks without the
    two keys. *)
Definition overrides_ok (overrides : value) : Prop :=
  overrides = VUndef
  ∨ ∃ blocks, overrides = VArr blocks ∧ Forall clean_block blocks.

Definition digit_or_comma (c : ascii) : bool :=
  bool_decide (c ∈ string_to_list "0123456789,").

(** A key made of digits and commas only: the key of a vector whose only
    source is the base config, whose path is the empty string. *)
Definition base_key (k : string) : bool :=
  forallb digit_or_comma (string_to_list k).

(** A config file as the loader hands it over: an object tagged with the
    path it was loaded from, which is not made of digits and commas only. *)
Definition loaded_source (p : string) (src : value) : Prop :=
  ∃ o, src = VObj o ∧ NoDup (obj_keys o)
       ∧ obj_get "filePath" o = Some (VStr p) ∧ base_key p = false
       ∧ overrides_ok (prop src "overrides").

(** A base config object as [ConfigFile.loadObject] hands it over: an
    object whose override blocks do not carry the bookkeeping keys. *)
Definition base_source (src : value) : Prop :=
  ∃ o, src = VObj o ∧ NoDup (obj_keys o)
       ∧ overrides_ok (prop src "overrides").

(** A token after the first: the path of a loaded source or an index. *)
Definition token_ok (t : value) : Prop :=
  (∃ p, t = VStr p ∧ base_key p = false) ∨ (∃ n : nat, t = VNum (Z.of_nat n)).

(** A vector as [getConfigVector] builds it: the base first. *)
Definition vector_ok (v : vector) : Prop :=
  ∃ tail, v = VStr "" :: tail ∧ Forall token_ok tail.

(** The string a token contributes to the key. *)
Definition token_text (t : value) : string :=
  match t with
  | VUndef | VNull => ""
  | _ => to_string t
  end.


(** Every cached source has well-formed overrides, and every one but the
    base config, which sits under the empty path, is a loaded source. *)
Definition sources_ok (sources : gmap string value) : Prop :=
  ∀ p src, sources !! p = Some src →
    overrides_ok (prop src "overrides") ∧ (p ≠ "" → loaded_source p src).

(** Every entry of a merge table under a key that names a config file is
    clean. *)
Definition table_ok (table : gmap string value) : Prop :=
  ∀ key e, table !! key = Some e → base_key key = false → clean e.

(** ** What the resolver relies on *)

(** The file system's side of the contract: a parsed config file is an
    object tagged with its own path, its override blocks do not carry the
    resolver's bookkeeping keys, and no config file has the empty path, which
    is the identity of the base config. *)
Class FileSystemContract `{FileSystem} : Prop := {
  load_tagged p :
    truthy (ConfigFile_load p) = true → loaded_source p (ConfigFile_load p);
  finder_paths cwd directory f :
    f ∈ findAllInDirectoryAndParents cwd directory → f ≠ "";
  filename_path directory f : getFilenameForDirectory directory = Some f → f ≠ "";
  resolved_path cwd name : resolveConfigFile cwd name ≠ ""
}.

Definition is_loaded (config : value) : Prop := ∃ p, loaded_source p config.

Definition hierarchy_ok (h : gmap string (list value)) : Prop :=
  ∀ d l, h !! d = Some l → Forall is_loaded l.

Section ResolverInvariant.
Context `{FileSystem}.

Definition base_ok (b : value) : Prop :=
  get b "filePath" = Ok (VStr "") ∧ overrides_ok (prop b "overrides").

Definition self_ok (self : Config.t) : Prop :=
  clean_block (Config.cliConfig self)
  ∧ base_ok (Config.baseConfig self)
  ∧ (truthy (Config.useSpecificConfig self) = true →
     is_loaded (Config.useSpecificConfig self))
  ∧ (∀ x, Config.personalConfig self = Some x → truthy x = true → is_loaded x).

(** What holds of the instance and the cache between two calls. *)
Definition resolver_ok (s : Config.t * ConfigCache.t) : Prop :=
  self_ok s.1
  ∧ sources_ok (filePathCache s.2)
  ∧ hierarchy_ok (localHierarchyCache s.2)
  ∧ table_ok (mergedVectorCache s.2)
  ∧ table_ok (mergedCache s.2)
  ∧ truthy (getMergedVectorConfig s.2 [VStr ""]) = true.

End ResolverInvariant.
(** ** Definitions used to state further properties of the merge *)

(** The elements the array branch iterates over when [src] is an array. *)
Definition src_elems (combine isRule : bool) (l : list value)
  : list (value * (value → result value)) :=
  map (λ e, (e, λ t, merge t e combine isRule)) l.

(** What merging the plugin names [src] into the names [dst] gives, from
    index [i] of [src] on: a name whose slot in [dst] is taken is added only
    when it is not there yet, a name whose slot is free is put there. *)
Fixpoint combined (i : nat) (src dst : list string) : list string :=
  match src with
  | [] => dst
  | p :: rest =>
      combined (S i) rest
        (if (i <? length dst)%nat && bool_decide (p ∈ dst) then dst
         else dst ++ [p])
  end.

(** A key that names a member every plain object inherits from
    [Object.prototype], the accessor [__proto__] included.  Where the target
    has no own property of that name, [target[key]] is the inherited member
    in the source, and an assignment to [__proto__] creates no property. *)
Definition inherited_name (k : string) : bool :=
  bool_decide (is_Some (Object_prototype k)).

(** An object that [merge] copies as it is into an empty target: its keys
    are distinct and none of them is the name of an inherited member,
    [overrides] holds an array where present, and the same is true of every
    object nested under a key other than [exported] and [astGlobals]. *)
Fixpoint copyable (v : value) : bool :=
  match v with
  | VObj o =>
      bool_decide (NoDup (obj_keys o))
      && (fix fields (o : obj) : bool :=
            match o with
            | [] => true
            | (k, x) :: o' =>
                negb (inherited_name k)
                && (if String.eqb k "overrides" then isArray x
                    else if String.eqb k "exported" || String.eqb k "astGlobals"
                         then true
                         else copyable x)
                && fields o'
            end) o
  | _ => true
  end.

(** No environment of the registry has an own key named [__proto__] among
    its [globals] or its [parserOptions]. *)
Definition environments_without_proto `{EnvironmentRegistry} : Prop :=
  ∀ name,
    ¬ own_key "__proto__" (prop (Environments_get name) "globals")
    ∧ ¬ own_key "__proto__" (prop (Environments_get name) "parserOptions").

(** The environments a config switches on, in the order of the keys of
    [env]. *)
Definition enabled (env : value) : list string :=
  filter (λ name, truthy (prop env name)) (obj_keys (own_entries env)).

Section Contributions.
Context `{EnvironmentRegistry}.

(** The environment [name] exists and its [section] is an object that has
    [x] under [key]. *)
Definition contributes (name section key : string) (x : value) : Prop :=
  truthy (Environments_get name) = true
  ∧ ∃ S, prop (Environments_get name) section = VObj S
         ∧ NoDup (obj_keys S) ∧ obj_get key S = Some x.

(** The [section] of the environment [name] has no own property [key]. *)
Definition silent (name section key : string) : Prop :=
  ¬ own_key key (prop (Environments_get name) section).

(** [createEnvironmentConfig(env)[section]] *)
Definition environment_section (env : value) (section : string) : value :=
  prop (VObj (createEnvironmentConfig env)) section.

End Contributions.

(** A registry with two environments that both define the global [self]. *)
Definition two_environments : EnvironmentRegistry := λ name,
  if String.eqb name "browser"
  then VObj [("globals", VObj [("window", VBool false); ("self", VBool false)])]
  else if String.eqb name "worker"
  then VObj [("globals", VObj [("self", VBool true)])]
  else VUndef.

Section MatchingPatterns.
Context `{GlobMatcher}.

(** A pattern that is a string and matches the path. *)
Definition matching (filePath : string) (pattern : value) : Prop :=
  ∃ s, pattern = VStr s ∧ minimatch filePath s = true.

End MatchingPatterns.

(** ** Definitions used to state further properties of the caches *)

(** No separator inside. *)
Definition comma_free (s : string) : bool :=
  forallb (λ c, negb (Ascii.eqb c ","%char)) (string_to_list s).

(** A token whose text holds no separator: an index, or a path without a
    comma. *)
Definition comma_free_token (t : value) : Prop :=
  match t with
  | VStr p => comma_free p = true
  | _ => True
  end.

(** The cache with nothing in the merged-vector table. *)
Definition without_merged_vectors (cache : ConfigCache.t) : ConfigCache.t :=
  {| filePathCache := filePathCache cache;
     localHierarchyCache := localHierarchyCache cache;
     mergedVectorCache := ∅;
     mergedCache := mergedCache cache |}.

(** The config a call returned, the cache put aside. *)
Definition config_of {A} (r : result (value * A)) : result value :=
  p ← r; Ok p.1.

(** The merging loop of [getConfigFromVector] without its cache writes: the
    config and the [subConfigs] it ends with. *)
Fixpoint merged_from (sources : gmap string value) (rest : list value)
    (config subConfigs : value) : result (value * value) :=
  match rest with
  | [] => Ok (config, subConfigs)
  | configKey :: rest' =>
      sc ← match configKey with
           | VStr s =>
               let shallowConfig := default VUndef (sources !! s) in
               subConfigs ← get shallowConfig "overrides";
               Ok (shallowConfig, subConfigs)
           | _ =>
               shallowConfig ← get_value subConfigs configKey;
               Ok (shallowConfig, subConfigs)
           end;
      config ← merge config sc.1 false false;
      merged_from sources rest' (strip_bookkeeping config) sc.2
  end.

(** ** Induction on values through arrays and objects *)

Section ValueInduction.
Variable P : value → Prop.
Hypothesis Hundef : P VUndef.
Hypothesis Hnull : P VNull.
Hypothesis Hbool : ∀ b, P (VBool b).
Hypothesis Hnum : ∀ n, P (VNum n).
Hypothesis Hstr : ∀ s, P (VStr s).
Hypothesis Hfun : ∀ name, P (VFun name).
Hypothesis Harr : ∀ l, Forall P l → P (VArr l).
Hypothesis Hobj : ∀ o, Forall (λ kv, P kv.2) o → P (VObj o).

Fixpoint value_nested_ind (v : value) : P v :=
  match v with
  | VUndef => Hundef
  | VNull => Hnull
  | VBool b => Hbool b
  | VNum n => Hnum n
  | VStr s => Hstr s
  | VFun name => Hfun name
  | VArr l =>
      Harr l ((fix each (l : list value) : Forall P l :=
                 match l with
                 | [] => List.Forall_nil P
                 | e :: l' =>
                     @List.Forall_cons _ P e l' (value_nested_ind e) (each l')
                 end) l)
  | VObj o =>
      Hobj o ((fix each (o : obj) : Forall (λ kv, P kv.2) o :=
                 match o with
                 | [] => List.Forall_nil _
                 | (k, x) :: o' =>
                     @List.Forall_cons _ (λ kv, P kv.2) (k, x) o'
                                       (value_nested_ind x) (each o')
                 end) o)
  end.

End ValueInduction.

(** ** Definitions used to state further properties of the resolver *)

(** [localConfig.root === true] *)
Definition is_root (config : value) : bool :=
  strict_eq (VBool true) (prop config "root").

(** The sample file system with the project in the home directory. *)
Definition home_is_project : FileSystem := {|
  userHome := Some "/x";
  dirname := Sample.posix_dirname;
  pathIsInside := Sample.posix_pathIsInside;
  getFilenameForDirectory := Sample.sample_filename;
  ConfigFile_load := Sample.sample_load;
  ConfigFile_loadObject := λ o, o;
  findAllInDirectoryAndParents := λ _ directory,
    omap Sample.sample_filename
         (Sample.ancestors (String.length directory) directory);
  resolveConfigFile := λ cwd name, cwd +:+ "/" +:+ name
|}.

(** The name a [globals] option declares: what precedes its first colon. *)
Definition declared_name (def : string) : string :=
  List.hd "" (Config.split_on Config.SUBCONFIG_SEP def).

(** No colon inside. *)
Definition colon_free (s : string) : bool :=
  forallb (λ c, negb (Ascii.eqb c Config.SUBCONFIG_SEP)) (string_to_list s).

(** The sample options with two declared globals. *)
Definition globals_options : Config.options := {|
  Config.cwd := "/x";
  Config.opt_parser := VUndef;
  Config.opt_parserOptions := VUndef;
  Config.opt_baseConfig := VUndef;
  Config.opt_useEslintrc := VUndef;
  Config.opt_envs := [];
  Config.opt_globals := ["jQuery:true"; "process"];
  Config.opt_configFile := None;
  Config.opt_plugins := VUndef;
  Config.opt_rules := VUndef
|}.

(** A merged config that carries a parser: an object with a [parser] key.
    A merge that meets an array returns an array, which has no keys. *)
Definition parser_pinned (config : value) : Prop :=
  (∃ l, config = VArr l) ∨ has_key "parser" config = true.

(** The sample options with a parser given on the command line. *)
Definition parser_options : Config.options := {|
  Config.cwd := "/x";
  Config.opt_parser := VStr "babel-eslint";
  Config.opt_parserOptions := VUndef;
  Config.opt_baseConfig := VUndef;
  Config.opt_useEslintrc := VUndef;
  Config.opt_envs := [];
  Config.opt_globals := [];
  Config.opt_configFile := None;
  Config.opt_plugins := VUndef;
  Config.opt_rules := VUndef
|}.

(** ** Relations between two states of a run *)

Section StatesOfARun.
Context `{FileSystem}.

(** A path whose file parses to nothing and that is not cached stays
    uncached. *)
Definition stays_falsy (cache cache2 : ConfigCache.t) : Prop :=
  ∀ p, truthy (ConfigFile_load p) = false →
       truthy (getConfig cache p) = false →
       truthy (getConfig cache2 p) = false.

End StatesOfARun.

(** The instance but for the memoised personal config. *)
Definition same_instance (self self' : Config.t) : Prop :=
  Config.opts self' = Config.opts self
  ∧ Config.useSpecificConfig self' = Config.useSpecificConfig self
  ∧ Config.baseConfig self' = Config.baseConfig self
  ∧ Config.useEslintrc self' = Config.useEslintrc self.

(** Every truthy entry of the first table is in the second. *)
Definition kept (table table' : gmap string value) : Prop :=
  ∀ key e, table !! key = Some e → truthy e = true → table' !! key = Some e.
(** * Properties *)


(** ** Objects as association lists *)

Lemma obj_get_set_eq k v o : obj_get k (obj_set k v o) = Some v.
Proof.
  induction o as [|[k' v'] o IH]; simpl.
  - by rewrite String.eqb_refl.
  - destruct (String.eqb k k') eqn:E; simpl; rewrite ?String.eqb_refl, ?E; done.
Qed.

Lemma obj_get_set_ne k k' v o : k ≠ k' → obj_get k' (obj_set k v o) = obj_get k' o.
Proof.
  intros Hne. induction o as [|[k2 v2] o IH]; simpl.
  - destruct (String.eqb_spec k' k); congruence.
  - destruct (String.eqb_spec k k2) as [->|]; simpl.
    + destruct (String.eqb_spec k' k2); congruence.
    + by rewrite IH.
Qed.

Lemma obj_set_set k v w o : obj_set k w (obj_set k v o) = obj_set k w o.
Proof.
  induction o as [|[k' v'] o IH]; simpl.
  - by rewrite String.eqb_refl.
  - destruct (String.eqb k k') eqn:E; simpl; rewrite ?String.eqb_refl, ?E, ?IH; done.
Qed.

Lemma obj_set_same k v o : obj_get k o = Some v → obj_set k v o = o.
Proof.
  induction o as [|[k' v'] o IH]; simpl; [done|].
  destruct (String.eqb_spec k k') as [->|]; intros Hg.
  - congruence.
  - by rewrite IH.
Qed.

Lemma obj_get_delete_eq k o : obj_get k (obj_delete k o) = None.
Proof.
  induction o as [|[k' v'] o IH]; simpl; [done|].
  destruct (String.eqb k k') eqn:E; simpl; rewrite ?E; done.
Qed.

Lemma obj_get_delete_ne k k' o : k ≠ k' → obj_get k' (obj_delete k o) = obj_get k' o.
Proof.
  intros Hne. induction o as [|[k2 v2] o IH]; simpl; [done|].
  destruct (String.eqb_spec k k2) as [->|]; simpl.
  - destruct (String.eqb_spec k' k2); congruence.
  - by rewrite IH.
Qed.

(** ** Override matching *)

Section Globs.
Context `{GlobMatcher}.

Lemma every_matches_strings filePath (patterns : list string) :
  every_matches filePath (VStr <$> patterns)
  = Ok (forallb (minimatch filePath) patterns).
Proof.
  induction patterns as [|p ps IH]; simpl; [done|].
  destruct (minimatch filePath p); simpl; [apply IH|done].
Qed.

Lemma pathMatchesGlobs_array filePath (patterns : list string) :
  pathMatchesGlobs filePath (VArr (VStr <$> patterns))
  = Ok (forallb (minimatch filePath) patterns).
Proof. apply every_matches_strings. Qed.

Lemma pathMatchesGlobs_string filePath (pattern : string) :
  pathMatchesGlobs filePath (VStr pattern) = Ok (minimatch filePath pattern).
Proof.
  unfold pathMatchesGlobs; simpl. by destruct (minimatch filePath pattern).
Qed.

Lemma matching_overrides_selected relativePath blocks pats i :
  Forall2 (λ b ps, get b "files" = Ok (VArr (VStr <$> ps))) blocks pats →
  Config.matching_overrides relativePath blocks i
  = Ok ((λ j, VNum (Z.of_nat j)) <$> selected relativePath pats i).
Proof.
  intros Hall. revert i. induction Hall as [|b ps blocks pats Hb _ IH]; intros i; simpl; [done|].
  rewrite Hb; simpl. rewrite pathMatchesGlobs_array; simpl.
  rewrite IH; simpl. by destruct (forallb _ ps).
Qed.

Lemma elem_of_selected relativePath pats i j :
  j ∈ selected relativePath pats i ↔
  ∃ ps, (i ≤ j)%nat ∧ pats !! (j - i)%nat = Some ps
        ∧ forallb (minimatch relativePath) ps = true.
Proof.
  revert i. induction pats as [|ps pats IH]; intros i; simpl.
  - split; [by intros ?%elem_of_nil|]. by intros (? & _ & ? & _).
  - assert (j ∈ selected relativePath pats (S i) ↔
            ∃ ps', (i < j)%nat ∧ pats !! (j - S i)%nat = Some ps'
                   ∧ forallb (minimatch relativePath) ps' = true) as IH'.
    { rewrite IH. split; intros (x & ? & ? & ?); exists x; repeat split; auto; lia. }
    destruct (forallb (minimatch relativePath) ps) eqn:E.
    + rewrite elem_of_cons, IH'. split.
      * intros [->|(x & ? & Hx & ?)].
        -- exists ps. rewrite Nat.sub_diag. auto.
        -- exists x. repeat split; [lia| |done].
           replace (j - i)%nat with (S (j - S i)) by lia. done.
      * intros (x & Hle & Hx & Hm).
        destruct (decide (j = i)) as [->|]; [by left|right].
        exists x. repeat split; [lia| |done].
        replace (j - i)%nat with (S (j - S i)) in Hx by lia. done.
    + rewrite IH'. split.
      * intros (x & ? & Hx & ?). exists x. repeat split; [lia| |done].
        replace (j - i)%nat with (S (j - S i)) by lia. done.
      * intros (x & Hle & Hx & Hm).
        destruct (decide (j = i)) as [->|].
        { rewrite Nat.sub_diag in Hx. simpl in Hx. congruence. }
        exists x. repeat split; [lia| |done].
        replace (j - i)%nat with (S (j - S i)) in Hx by lia. done.
Qed.

End Globs.
(** ** The hierarchy cache *)

Lemma setHierarchy_from_other (dirs : list string) i configs
    (h : gmap string (list value)) d :
  d ∉ dirs → setHierarchy_from i dirs configs h !! d = h !! d.
Proof.
  revert i h. induction dirs as [|d' dirs IH]; intros i h Hd; simpl; [done|].
  apply not_elem_of_cons in Hd as [Hne Hd].
  rewrite IH by done. by rewrite lookup_insert_ne.
Qed.

Lemma setHierarchy_from_lookup (dirs : list string) i configs
    (h : gmap string (list value)) j d :
  NoDup dirs → dirs !! j = Some d →
  setHierarchy_from i dirs configs h !! d
  = Some (slice_to (Z.of_nat (length configs) - Z.of_nat (i + j)) configs).
Proof.
  revert i h j. induction dirs as [|d' dirs IH]; intros i h j Hnd Hj; [done|].
  apply NoDup_cons in Hnd as [Hd' Hnd]. destruct j as [|j]; simpl in *.
  - injection Hj as ->. rewrite setHierarchy_from_other by done.
    rewrite lookup_insert_eq. by rewrite Nat.add_0_r.
  - rewrite (IH _ _ j) by done. do 3 f_equal. lia.
Qed.

Lemma slice_to_take (n : nat) (l : list value) :
  (n ≤ length l)%nat →
  slice_to (Z.of_nat (length l) - Z.of_nat n) l = take (length l - n) l.
Proof.
  intros Hn. unfold slice_to.
  destruct (Z.ltb_spec (Z.of_nat (length l) - Z.of_nat n) 0); [lia|].
  f_equal. lia.
Qed.

(** A negative end is not an empty slice: it counts back from the end. *)
Lemma slice_to_negative (n : nat) (l : list value) :
  (length l < n)%nat →
  slice_to (Z.of_nat (length l) - Z.of_nat n) l = take (2 * length l - n) l.
Proof.
  intros Hn. unfold slice_to.
  destruct (Z.ltb_spec (Z.of_nat (length l) - Z.of_nat n) 0); [|lia].
  f_equal. lia.
Qed.

(** C9. After [setHierarchyLocalConfigs(directories, configs)], with the
    walked directories nearest first and at least one config per directory,
    a hierarchy lookup for the directory at index [i] returns
    [configs[0 .. len - i)]: the nearest directory gets the whole list and
    each farther one drops one more config from the end. *)
Theorem setHierarchyLocalConfigs_lookup (c : ConfigCache.t)
    (directories : list string) (configs : list value) (i : nat) (d : string) :
  NoDup directories →
  (length directories ≤ length configs)%nat →
  directories !! i = Some d →
  getHierarchyLocalConfigs (setHierarchyLocalConfigs c directories configs) d
  = Some (take (length configs - i) configs).
Proof.
  intros Hnd Hlen Hi. unfold getHierarchyLocalConfigs; simpl.
  rewrite (setHierarchy_from_lookup _ _ _ _ i) by done. simpl.
  rewrite slice_to_take; [done|].
  apply lookup_lt_Some in Hi. lia.
Qed.

Lemma setHierarchyLocalConfigs_lookup_witness :
  getHierarchyLocalConfigs
    (setHierarchyLocalConfigs ConfigCache.init ["/a/b/c"; "/a/b"; "/a"]
       [VStr "top"; VStr "a"; VStr "b"; VStr "c"]) "/a/b"
  = Some [VStr "top"; VStr "a"; VStr "b"].
Proof.
  apply (setHierarchyLocalConfigs_lookup ConfigCache.init
           ["/a/b/c"; "/a/b"; "/a"] [VStr "top"; VStr "a"; VStr "b"; VStr "c"]
           1 "/a/b").
  - apply (bool_decide_unpack _). vm_compute. reflexivity.
  - simpl. lia.
  - reflexivity.
Defined.
(** ** Severities *)

Lemma RULE_SEVERITY_table :
  RULE_SEVERITY = [("off", VNum 0); ("warn", VNum 1); ("error", VNum 2)].
Proof. reflexivity. Qed.

Lemma isValidSeverity_text s :
  isValidSeverity (VStr s)
  = (String.eqb (toLowerCase s) "off" || String.eqb (toLowerCase s) "warn"
     || String.eqb (toLowerCase s) "error").
Proof.
  unfold isValidSeverity. simpl.
  by destruct (String.eqb _ "off"), (String.eqb _ "warn"), (String.eqb _ "error").
Qed.

(** Without an inherited member in the way, text becomes one of 0, 1, 2. *)
Lemma severity_of_text_number s :
  Object_prototype (toLowerCase s) = None →
  severity_of_text s
  = VNum (if String.eqb (toLowerCase s) "off" then 0
          else if String.eqb (toLowerCase s) "warn" then 1
          else if String.eqb (toLowerCase s) "error" then 2 else 0).
Proof.
  intros Hp. unfold severity_of_text, obj_lookup. rewrite RULE_SEVERITY_table.
  simpl.
  destruct (String.eqb _ "off"); [done|].
  destruct (String.eqb _ "warn"); [done|].
  destruct (String.eqb _ "error"); [done|].
  by rewrite Hp.
Qed.

Lemma round_trip_text s :
  Object_prototype (toLowerCase s) = None →
  text_of_severity
    (if String.eqb (toLowerCase s) "off" then 0
     else if String.eqb (toLowerCase s) "warn" then 1
     else if String.eqb (toLowerCase s) "error" then 2 else 0)
  = VStr (if isValidSeverity (VStr s) then toLowerCase s else "off").
Proof.
  intros Hp. rewrite isValidSeverity_text.
  destruct (String.eqb_spec (toLowerCase s) "off") as [->|]; [done|].
  destruct (String.eqb_spec (toLowerCase s) "warn") as [->|]; [done|].
  destruct (String.eqb_spec (toLowerCase s) "error") as [->|]; done.
Qed.

Lemma round_trip_rule ruleConfig :
  textual_without_inherited_name ruleConfig →
  normalizeToStrings_rule (normalize_rule ruleConfig) = lowered_severity ruleConfig.
Proof.
  destruct ruleConfig as [| | | |s| |[|[| | | |s| | |] rest]|]; simpl; try done.
  - intros Hp. rewrite severity_of_text_number by done. simpl.
    by apply round_trip_text.
  - intros Hp. rewrite severity_of_text_number by done. simpl.
    unfold arr_set; simpl. by rewrite round_trip_text.
Qed.

Lemma invalid_text_normalizes_to_zero s :
  Object_prototype (toLowerCase s) = None →
  isValidSeverity (VStr s) = false →
  normalize_rule (VStr s) = VNum 0
  ∧ normalizeToStrings_rule (normalize_rule (VStr s)) = VStr "off".
Proof.
  intros Hp Hv. simpl. rewrite severity_of_text_number by done.
  rewrite isValidSeverity_text in Hv.
  apply orb_false_iff in Hv as [[-> ->]%orb_false_iff ->]. done.
Qed.

Lemma lowered_severity_id ruleConfig :
  match severity_part ruleConfig with
  | VStr s => toLowerCase s = s
  | _ => False
  end →
  isValidSeverity ruleConfig = true →
  lowered_severity ruleConfig = ruleConfig.
Proof.
  destruct ruleConfig as [| | | |s| |[|[| | | |s| | |] rest]|]; simpl; try done.
  - intros Hs Hv. by rewrite Hv, Hs.
  - intros Hs Hv. change (isValidSeverity (VStr s) = true) in Hv. by rewrite Hv, Hs.
Qed.

Lemma lookup_map_entries (f : string * value → string * value) (o : obj)
    (i : nat) :
  (map f o : obj) !! i = f <$> o !! i.
Proof. revert i. induction o as [|a o IH]; intros [|i]; simpl; auto. Qed.

Lemma valid_lower_case_textual ruleConfig :
  isValidSeverity ruleConfig = true → lower_case_text ruleConfig →
  textual_without_inherited_name ruleConfig.
Proof.
  assert (∀ s, isValidSeverity (VStr s) = true →
               Object_prototype (toLowerCase s) = None) as Hvalid.
  { intros s. rewrite isValidSeverity_text.
    destruct (String.eqb_spec (toLowerCase s) "off") as [->|]; [done|].
    destruct (String.eqb_spec (toLowerCase s) "warn") as [->|]; [done|].
    destruct (String.eqb_spec (toLowerCase s) "error") as [->|]; done. }
  unfold lower_case_text.
  destruct ruleConfig as [| | | |s| |[|[| | | |s| | |] rest]|]; simpl; try done.
  - intros Hv _. by apply Hvalid.
  - intros Hv _. by apply Hvalid.
Qed.

Lemma normalize_rule_numbered ruleConfig :
  textual_without_inherited_name ruleConfig →
  normalize_rule ruleConfig = numbered_severity ruleConfig.
Proof.
  assert (∀ s, Object_prototype (toLowerCase s) = None →
               severity_of_text s = VNum (severity_number s)) as Hnum.
  { intros s Hp. rewrite severity_of_text_number by done. unfold severity_number.
    destruct (String.eqb_spec (toLowerCase s) "off") as [Hoff|]; [|done].
    by rewrite Hoff. }
  destruct ruleConfig as [| | | |s| |[|[| | | |s| | |] rest]|]; simpl; try done.
  - intros Hp. by apply Hnum.
  - intros Hp. by rewrite Hnum.
Qed.

Lemma invalid_severity_is_off ruleConfig :
  textual_without_inherited_name ruleConfig →
  isValidSeverity ruleConfig = false →
  severity_part (numbered_severity ruleConfig) = VNum 0
  ∧ severity_part (lowered_severity ruleConfig) = VStr "off".
Proof.
  assert (∀ s, isValidSeverity (VStr s) = false → severity_number s = 0) as Hz.
  { intros s. rewrite isValidSeverity_text. unfold severity_number.
    by intros [[_ ->]%orb_false_iff ->]%orb_false_iff. }
  destruct ruleConfig as [| | | |s| |[|[| | | |s| | |] rest]|]; simpl; try done.
  - intros _ Hv. by rewrite Hv, Hz.
  - intros _ Hv. change (isValidSeverity (VStr s) = false) in Hv.
    by rewrite Hv, Hz.
Qed.

(** C7, as the code has it.  In a config with a [rules] object, take any
    entry that spells its severity as text (scalar or first element of the
    array form) that does not lower-case to the name of an inherited member,
    whatever the other entries are.  [normalize] replaces the text by its
    number: 0, 1 or 2 for "off", "warn" and "error" in any letter case, and 0
    for every other text.  [normalizeToStrings] applied next yields the valid
    severity in lower case, which is the original entry when that was in
    lower case already, and "off" for an invalid text.  The rule ids keep
    their order, and a config whose entries are all valid severities in
    lower case comes back as it was. *)
Theorem severity_round_trip (c rules : obj) :
  obj_get "rules" c = Some (VObj rules) →
  ∃ numbered texts : obj,
    normalize (VObj c) = Ok (VObj (obj_set "rules" (VObj numbered) c))
    ∧ (normalize (VObj c) ≫= normalizeToStrings)
      = Ok (VObj (obj_set "rules" (VObj texts) c))
    ∧ obj_keys numbered = obj_keys rules
    ∧ obj_keys texts = obj_keys rules
    ∧ (∀ i ruleId ruleConfig,
         rules !! i = Some (ruleId, ruleConfig) →
         textual_without_inherited_name ruleConfig →
         numbered !! i = Some (ruleId, numbered_severity ruleConfig)
         ∧ texts !! i = Some (ruleId, lowered_severity ruleConfig)
         ∧ (isValidSeverity ruleConfig = false →
            severity_part (numbered_severity ruleConfig) = VNum 0
            ∧ severity_part (lowered_severity ruleConfig) = VStr "off")
         ∧ (isValidSeverity ruleConfig = true → lower_case_text ruleConfig →
            lowered_severity ruleConfig = ruleConfig))
    ∧ (Forall (λ kv, isValidSeverity kv.2 = true ∧ lower_case_text kv.2) rules →
       (normalize (VObj c) ≫= normalizeToStrings) = Ok (VObj c)).
Proof.
  intros Hr.
  exists (map (λ kv, (kv.1, normalize_rule kv.2)) rules),
         (map (λ kv, (kv.1, normalizeToStrings_rule (normalize_rule kv.2))) rules).
  assert ((normalize (VObj c) ≫= normalizeToStrings)
          = Ok (VObj (obj_set "rules"
                  (VObj (map (λ kv, (kv.1, normalizeToStrings_rule
                                              (normalize_rule kv.2))) rules)) c)))
    as Heq.
  { unfold normalize, normalizeToStrings; simpl. rewrite Hr; simpl.
    rewrite obj_get_set_eq; simpl. rewrite obj_set_set. do 4 f_equal.
    by rewrite map_map. }
  split_and!.
  - unfold normalize; simpl. by rewrite Hr.
  - exact Heq.
  - unfold obj_keys. by rewrite map_map.
  - unfold obj_keys. by rewrite map_map.
  - intros i ruleId ruleConfig Hi Ht.
    rewrite !lookup_map_entries, Hi. simpl.
    rewrite normalize_rule_numbered at 1 by done.
    rewrite round_trip_rule by done.
    split_and!; [done|done|by apply invalid_severity_is_off|].
    intros Hv Hl. by apply lowered_severity_id.
  - intros Hlow. rewrite Heq. do 2 f_equal.
    apply obj_set_same. rewrite Hr. do 2 f_equal.
    clear Hr Heq. induction Hlow as [|[k v] rules [Hv Hs] _ IH]; simpl in *; [done|].
    rewrite round_trip_rule by by apply valid_lower_case_textual.
    rewrite lowered_severity_id by done. by f_equal.
Qed.

(** An upper-case severity comes back in lower case, a lower-case one as it
    was, and an invalid one as "off", beside an entry that is a number. *)
Lemma severity_round_trip_witness :
  ∃ numbered texts : obj,
    normalize (VObj [("rules", VObj [("semi", VStr "Error");
                                      ("eqeqeq", VArr [VStr "warn"; VStr "smart"]);
                                      ("no-var", VNum 1);
                                      ("curly", VStr "sometimes")])])
    = Ok (VObj [("rules", VObj numbered)])
    ∧ numbered !! 0%nat = Some ("semi", VNum 2)
    ∧ numbered !! 3%nat = Some ("curly", VNum 0)
    ∧ texts !! 0%nat = Some ("semi", VStr "error")
    ∧ texts !! 1%nat = Some ("eqeqeq", VArr [VStr "warn"; VStr "smart"])
    ∧ texts !! 3%nat = Some ("curly", VStr "off").
Proof.
  pose proof (severity_round_trip
    [("rules", VObj [("semi", VStr "Error");
                     ("eqeqeq", VArr [VStr "warn"; VStr "smart"]);
                     ("no-var", VNum 1);
                     ("curly", VStr "sometimes")])]
    [("semi", VStr "Error"); ("eqeqeq", VArr [VStr "warn"; VStr "smart"]);
     ("no-var", VNum 1); ("curly", VStr "sometimes")] eq_refl)
    as (numbered & texts & Hn & _ & _ & _ & Hentry & _).
  exists numbered, texts. split; [exact Hn|].
  pose proof (Hentry 0%nat "semi" (VStr "Error") eq_refl eq_refl)
    as (H0 & H0' & _).
  pose proof (Hentry 1%nat "eqeqeq" (VArr [VStr "warn"; VStr "smart"])
                eq_refl eq_refl) as (_ & H1' & _).
  pose proof (Hentry 3%nat "curly" (VStr "sometimes") eq_refl eq_refl)
    as (H3 & H3' & _).
  by split_and!.
Defined.

(** C7 as stated fails twice: a valid severity in upper case comes back in
    lower case, and the invalid text "constructor" finds the member that
    [RULE_SEVERITY] inherits, so it is not normalized to 0. *)
Lemma severity_round_trip_counterexample :
  (isValidSeverity (VStr "ERROR") = true
   ∧ (normalize (VObj [("rules", VObj [("semi", VStr "ERROR")])])
        ≫= normalizeToStrings)
     = Ok (VObj [("rules", VObj [("semi", VStr "error")])])
   ∧ (normalize (VObj [("rules", VObj [("semi", VStr "ERROR")])])
        ≫= normalizeToStrings)
     ≠ Ok (VObj [("rules", VObj [("semi", VStr "ERROR")])]))
  ∧ (isValidSeverity (VStr "constructor") = false
     ∧ normalize (VObj [("rules", VObj [("semi", VStr "constructor")])])
       = Ok (VObj [("rules", VObj [("semi", VFun "constructor")])])
     ∧ normalize_rule (VStr "constructor") ≠ VNum 0
     ∧ (normalize (VObj [("rules", VObj [("semi", VStr "constructor")])])
          ≫= normalizeToStrings)
       = Ok (VObj [("rules", VObj [("semi", VFun "constructor")])])).
Proof. repeat split; discriminate. Qed.
(** ** merge *)

Lemma bind_Ok {A B} (m : result A) (f : A → result B) b :
  m ≫= f = Ok b → ∃ a, m = Ok a ∧ f a = Ok b.
Proof. destruct m; simpl; [eauto|done]. Qed.

Lemma merge_object_unfold target o combine isRule :
  isArray target = false →
  merge target (VObj o) combine isRule
  = dst ← object_loop target combine isRule (src_entries o)
            (match target with VObj t => t | _ => [] end);
    Ok (VObj dst).
Proof.
  intros Ht. destruct target; simpl in *; try done;
  (assert (∀ o',
    (fix entries (o0 : obj) :=
       match o0 with
       | [] => []
       | (key, sv) :: o'0 =>
           (key, sv, λ t c r, merge t sv c r) :: entries o'0
       end) o' = src_entries o') as ->;
   [ induction o' as [|[k v] o' IH]; simpl; [done|by rewrite IH] | done ]).
Qed.

(** A successful merge gives an array or an object. *)
Lemma merge_composite target src combine isRule d :
  merge target src combine isRule = Ok d →
  (∃ l, d = VArr l) ∨ (∃ o, d = VObj o).
Proof.
  destruct src; simpl; destruct (isArray target) eqn:Ht; simpl;
    unfold merge_wrapped; intros Hm;
    repeat match goal with
    | H : _ ≫= _ = Ok _ |- _ => apply bind_Ok in H as (? & ? & H)
    | H : Ok _ = Ok _ |- _ => injection H as <-
    | H : Throw _ = Ok _ |- _ => discriminate H
    end; eauto.
Qed.

Lemma merge_truthy target src combine isRule d :
  merge target src combine isRule = Ok d → truthy d = true.
Proof. intros [[l ->]|[o ->]]%merge_composite; done. Qed.
(** ** getConfigFromVector and the merged-vector table *)

Lemma setMergedVectorConfig_twice cache v c1 c2 :
  setMergedVectorConfig (setMergedVectorConfig cache v c1) v c2
  = setMergedVectorConfig cache v c2.
Proof.
  unfold setMergedVectorConfig, setMergedVectorKey; simpl.
  by rewrite insert_insert_eq.
Qed.

Lemma getMergedVectorConfig_set cache v c :
  getMergedVectorConfig (setMergedVectorConfig cache v c) v = c.
Proof.
  unfold getMergedVectorConfig, setMergedVectorConfig; simpl.
  by rewrite lookup_insert_eq.
Qed.

Lemma strip_bookkeeping_composite c :
  ((∃ l, c = VArr l) ∨ (∃ o, c = VObj o)) →
  (∃ l, strip_bookkeeping c = VArr l) ∨ (∃ o, strip_bookkeeping c = VObj o).
Proof.
  unfold strip_bookkeeping. intros [[l ->]|[o ->]];
    repeat case_match; simpl; eauto.
Qed.

Lemma composite_truthy c :
  ((∃ l, c = VArr l) ∨ (∃ o, c = VObj o)) → truthy c = true.
Proof. by intros [[l ->]|[o ->]]. Qed.

(** The loop leaves one entry behind: every turn writes under the key of the
    whole vector, so the last write is the only one that survives. *)
Lemma fold_vector_cache v rest config sub cache c cache' :
  fold_vector v rest config sub cache = Ok (c, cache') →
  (rest = [] ∧ c = config ∧ cache' = cache)
  ∨ (rest ≠ [] ∧ cache' = setMergedVectorConfig cache v c ∧ truthy c = true).
Proof.
  revert config sub cache. induction rest as [|configKey rest IH];
    intros config sub cache; simpl.
  - intros [= <- <-]. by left.
  - intros Hf. right. split; [done|].
    apply bind_Ok in Hf as (sc & _ & Hf).
    apply bind_Ok in Hf as (merged & Hm & Hf).
    apply IH in Hf as [(-> & -> & ->)|(_ & -> & Ht)].
    + split; [done|].
      apply composite_truthy, strip_bookkeeping_composite.
      by eapply merge_composite.
    + by rewrite setMergedVectorConfig_twice.
Qed.

Lemma probe_Some cache v k j c :
  probe cache v k = Some (j, c) →
  (1 ≤ j ≤ k)%nat ∧ getMergedVectorConfig cache (take j v) = c
  ∧ truthy c = true.
Proof.
  induction k as [|k IH]; simpl; [done|].
  destruct (truthy (getMergedVectorConfig cache (take (S k) v))) eqn:E.
  - intros [= <- <-]. repeat split; [lia|lia|done].
  - intros (Hj & ? & ?)%IH. repeat split; [lia|lia|done|done].
Qed.

Lemma probe_full cache v :
  v ≠ [] → truthy (getMergedVectorConfig cache v) = true →
  probe cache v (length v) = Some (length v, getMergedVectorConfig cache v).
Proof.
  intros Hv Ht. destruct (length v) as [|n] eqn:E.
  { by destruct v. }
  cbn [probe]. rewrite <- E, firstn_all. by rewrite Ht.
Qed.

(** What a successful call does to the cache: nothing, or one write under the
    key of the whole vector, holding the config it returns. *)
Lemma getConfigFromVector_cache cache v c cache' :
  getConfigFromVector cache v = Ok (c, cache') →
  (cache' = cache
   ∧ ((v = [] ∧ c = VObj [])
      ∨ (v ≠ [] ∧ getMergedVectorConfig cache v = c ∧ truthy c = true)))
  ∨ (v ≠ [] ∧ cache' = setMergedVectorConfig cache v c ∧ truthy c = true).
Proof.
  unfold getConfigFromVector.
  destruct (probe cache v (length v)) as [[k config]|] eqn:Hp.
  - apply probe_Some in Hp as (Hk & Hc & Ht).
    assert (v ≠ []) as Hv by (intros ->; simpl in Hk; lia).
    destruct (Nat.eqb_spec k (length v)) as [->|Hne].
    + intros [= <- <-]. left. split; [done|right].
      by rewrite firstn_all in Hc.
    + intros Hf. apply bind_Ok in Hf as (sub & _ & Hf).
      apply fold_vector_cache in Hf as [(Hd & _)|(_ & -> & ?)]; [|by right].
      apply (f_equal length) in Hd. rewrite length_drop in Hd. simpl in Hd. lia.
  - intros Hf. apply fold_vector_cache in Hf as [(-> & -> & ->)|(Hv & -> & ?)].
    + left. split; [done|by left].
    + by right.
Qed.

(** C10, as the code has it.  For a non-empty vector [v], right after
    [getConfigFromVector(v)] returns [c] the merged-vector entry under the
    key of [v] is [c], so a second call finds it with its first probe and
    returns [c] without merging and without touching the cache. *)
Theorem getConfigFromVector_caches_result cache v c cache' :
  v ≠ [] →
  getConfigFromVector cache v = Ok (c, cache') →
  getMergedVectorConfig cache' v = c
  ∧ probe cache' v (length v) = Some (length v, c)
  ∧ getConfigFromVector cache' v = Ok (c, cache').
Proof.
  intros Hv Hcall.
  assert (getMergedVectorConfig cache' v = c ∧ truthy c = true) as [Hc Ht].
  { apply getConfigFromVector_cache in Hcall
      as [(-> & [(-> & _)|(_ & ? & ?)])|(_ & -> & ?)]; [done|done|].
    by rewrite getMergedVectorConfig_set. }
  assert (probe cache' v (length v) = Some (length v, c)) as Hp.
  { rewrite probe_full by (by rewrite ?Hc). by rewrite Hc. }
  repeat split; [done|done|].
  unfold getConfigFromVector. rewrite Hp. by rewrite Nat.eqb_refl.
Qed.

(** Every table entry under another key than that of the whole vector is
    left as it was. *)
Lemma getConfigFromVector_frame cache v c cache' :
  getConfigFromVector cache v = Ok (c, cache') →
  filePathCache cache' = filePathCache cache
  ∧ localHierarchyCache cache' = localHierarchyCache cache
  ∧ mergedCache cache' = mergedCache cache
  ∧ ∀ key, key ≠ hash v →
      mergedVectorCache cache' !! key = mergedVectorCache cache !! key.
Proof.
  intros [(-> & _)|(_ & -> & _)]%getConfigFromVector_cache; [done|].
  repeat split; simpl. intros key Hkey. by rewrite lookup_insert_ne.
Qed.
(** ** The local hierarchy *)

Section Hierarchy.
Context `{FileSystem}.




End Hierarchy.
(** *** Examples on the sample project *)

(** The value a closed term evaluates to. *)
Local Ltac evaluated r := let v := eval vm_compute in r in v.

(** Closes a goal that holds by evaluation. *)
Local Ltac by_evaluation := vm_compute; reflexivity.

Example no_config_found_example :
  ∃ self cache,
    Config.constructor Sample.sample_options = Ok (self, cache)
    ∧ Config.getLocalConfigHierarchy self cache "/y" = Throw (NoConfigFound "/y" []).
Proof.
  lazymatch evaluated (Config.constructor Sample.sample_options) with
  | Ok (?self, ?cache) => exists self, cache
  end.
  split; by_evaluation.
Qed.

(** C4 at the failing input.  [/x/a/.eslintrc] has [root: true] and
    [/x/.eslintrc] lies above it.  On a fresh cache the hierarchy of [/x/a/b]
    stops at the root config.  Once the hierarchy of the sibling directory
    [/x/other] has been resolved, [/x] is in the hierarchy cache, the walk
    from [/x/a/b] breaks on that entry before the root check is reached, and
    the config from above the root comes back in front of the root config. *)
Theorem root_truncation_lost_on_cache_hit :
  ∃ self cache,
    Config.constructor Sample.sample_options = Ok (self, cache)
    ∧ prop Sample.root_config "root" = VBool true
    ∧ pathIsInside (dirname "/x/.eslintrc") (dirname "/x/a/.eslintrc") = false
    ∧ (∃ self' cache',
         Config.getLocalConfigHierarchy self cache "/x/a/b"
         = Ok ([Sample.root_config], self', cache'))
    ∧ (∃ self1 cache1 self2 cache2,
         Config.getLocalConfigHierarchy self cache "/x/other"
         = Ok ([Sample.project_config], self1, cache1)
         ∧ Config.getLocalConfigHierarchy self1 cache1 "/x/a/b"
           = Ok ([Sample.project_config; Sample.root_config], self2, cache2)).
Proof.
  lazymatch evaluated (Config.constructor Sample.sample_options) with
  | Ok (?self, ?cache) =>
      exists self, cache; split_and!; [by_evaluation|reflexivity|reflexivity| |];
      [ lazymatch evaluated (Config.getLocalConfigHierarchy self cache "/x/a/b") with
        | Ok (_, ?self', ?cache') => exists self', cache'
        end
      | lazymatch evaluated (Config.getLocalConfigHierarchy self cache "/x/other") with
        | Ok (_, ?self1, ?cache1) =>
            exists self1, cache1;
            lazymatch evaluated
                (Config.getLocalConfigHierarchy self1 cache1 "/x/a/b") with
            | Ok (_, ?self2, ?cache2) => exists self2, cache2
            end
        end ]
  end.
  - by_evaluation.
  - split; by_evaluation.
Qed.

(** C1 at the failing input.  The vector of [/x/src/a.ts] has three tokens;
    the fold starts after the cached base and merges two of them.  Afterwards
    the table holds the result under the key of the whole vector only: the
    prefix that ends at the first folded token has no entry. *)
Theorem prefix_not_cached :
  ∃ self cache self1 cache1 c cache2,
    Config.constructor Sample.sample_options = Ok (self, cache)
    ∧ Config.getConfigVector self cache (Some "/x/src/a.ts")
      = Ok ([VStr ""; VStr "/x/.eslintrc"; VNum 0], self1, cache1)
    ∧ probe cache1 [VStr ""; VStr "/x/.eslintrc"; VNum 0] 3
      = Some (1%nat, Config.baseConfig self)
    ∧ getConfigFromVector cache1 [VStr ""; VStr "/x/.eslintrc"; VNum 0]
      = Ok (c, cache2)
    ∧ getMergedVectorConfig cache2 [VStr ""; VStr "/x/.eslintrc"; VNum 0] = c
    ∧ getMergedVectorConfig cache2 [VStr ""; VStr "/x/.eslintrc"] = VUndef
    ∧ mergedVectorCache cache2 !! hash [VStr ""; VStr "/x/.eslintrc"] = None.
Proof.
  lazymatch evaluated (Config.constructor Sample.sample_options) with
  | Ok (?self, ?cache) =>
      exists self, cache;
      lazymatch evaluated
          (Config.getConfigVector self cache (Some "/x/src/a.ts")) with
      | Ok (?v, ?self1, ?cache1) =>
          exists self1, cache1;
          lazymatch evaluated (getConfigFromVector cache1 v) with
          | Ok (?c, ?cache2) => exists c, cache2
          end
      end
  end.
  split_and!; by_evaluation.
Qed.

(** C10 fails on the empty vector: the call returns the empty object without
    probing or writing, and the entry under the key of the empty vector, the
    empty string, is whatever was there: nothing on a fresh cache, the base
    config after the constructor. *)
Lemma empty_vector_not_cached :
  getConfigFromVector ConfigCache.init [] = Ok (VObj [], ConfigCache.init)
  ∧ getMergedVectorConfig ConfigCache.init [] ≠ VObj []
  ∧ ∃ self cache,
      Config.constructor Sample.sample_options = Ok (self, cache)
      ∧ getConfigFromVector cache [] = Ok (VObj [], cache)
      ∧ getMergedVectorConfig cache [] = Config.baseConfig self
      ∧ getMergedVectorConfig cache [] ≠ VObj []
      ∧ probe cache [] 0 = None.
Proof.
  split; [reflexivity|]. split; [discriminate|].
  lazymatch evaluated (Config.constructor Sample.sample_options) with
  | Ok (?self, ?cache) => exists self, cache
  end.
  split_and!; try by_evaluation. vm_compute. discriminate.
Qed.

Lemma getConfigFromVector_caches_result_witness :
  ∃ c cache',
    getConfigFromVector Sample.loaded_cache Sample.sample_vector = Ok (c, cache')
    ∧ getMergedVectorConfig cache' Sample.sample_vector = c
    ∧ probe cache' Sample.sample_vector 3 = Some (3%nat, c)
    ∧ getConfigFromVector cache' Sample.sample_vector = Ok (c, cache').
Proof.
  lazymatch evaluated
      (getConfigFromVector Sample.loaded_cache Sample.sample_vector) with
  | Ok (?c, ?cache') => exists c, cache'
  end.
  split; [by_evaluation|].
  apply (getConfigFromVector_caches_result Sample.loaded_cache).
  - discriminate.
  - by_evaluation.
Defined.

(** *** Examples for the environments *)

(** C8 fails for an empty [env]: the empty object is truthy, so the config
    is merged over the empty environment config and comes back with the
    four keys of that skeleton. *)
Lemma applyEnvironments_empty_env :
  get (VObj [("env", VObj [])]) "env" = Ok (VObj [])
  ∧ applyEnvironments (VObj [("env", VObj [])])
    = Ok (VObj [("globals", VObj []); ("env", VObj []); ("rules", VObj []);
                ("parserOptions", VObj [])])
  ∧ applyEnvironments (VObj [("env", VObj [])]) ≠ Ok (VObj [("env", VObj [])]).
Proof. repeat split. discriminate. Qed.

(** ** The config vector *)

Section Vector.
Context `{GlobMatcher}.

Lemma forallb_false_elem {A} (f : A → bool) (l : list A) :
  forallb f l = false ↔ ∃ x, x ∈ l ∧ f x = false.
Proof.
  induction l as [|a l IH]; simpl.
  - split; [done|]. by intros (? & ?%elem_of_nil & _).
  - rewrite andb_false_iff, IH. setoid_rewrite elem_of_cons. split.
    + intros [Ha|(x & Hx & Hfx)]; [exists a|exists x]; auto.
    + intros (x & [->|Hx] & Hfx); [left|right; exists x]; auto.
Qed.

(** C6.  [pathMatchesGlobs] is a conjunction: on a list of patterns it
    returns whether every pattern matches, on a single pattern whether that
    one matches.  In the vector, a config with override blocks is followed
    by exactly the indices of the blocks all of whose patterns match the
    path relative to the config's base directory; a block of which only
    some pattern matches contributes no index. *)
Theorem override_match_is_conjunctive (path : string) (config filePath : value)
    (baseDirectory : string) (blocks : list value) (pats : list (list string)) :
  get config "filePath" = Ok filePath →
  get config "baseDirectory" = Ok (VStr baseDirectory) →
  get config "overrides" = Ok (VArr blocks) →
  Forall2 (λ b ps, get b "files" = Ok (VArr (VStr <$> ps))) blocks pats →
  let relativePath := Config.substr (String.length baseDirectory + 1) path in
  (∀ ps, pathMatchesGlobs relativePath (VArr (VStr <$> ps)) = Ok true
         ↔ ∀ p, p ∈ ps → minimatch relativePath p = true)
  ∧ (∀ ps, pathMatchesGlobs relativePath (VArr (VStr <$> ps)) = Ok false
           ↔ ∃ p, p ∈ ps ∧ minimatch relativePath p = false)
  ∧ (∀ p, pathMatchesGlobs relativePath (VStr p) = Ok (minimatch relativePath p))
  ∧ ∃ indices,
      Config.vector_entries path config
      = Ok (filePath :: ((λ i, VNum (Z.of_nat i)) <$> indices))
      ∧ ∀ i, i ∈ indices ↔
             ∃ ps, pats !! i = Some ps
                   ∧ ∀ p, p ∈ ps → minimatch relativePath p = true.
Proof.
  intros Hfp Hbd Hov Hfiles relativePath.
  assert (∀ ps, forallb (minimatch relativePath) ps = true
                ↔ ∀ p, p ∈ ps → minimatch relativePath p = true) as Hall.
  { intros ps. rewrite forallb_forall. by setoid_rewrite list_elem_of_In. }
  split; [|split; [|split]].
  - intros ps. rewrite pathMatchesGlobs_array, <- Hall.
    split; [by intros [= ->]|by intros ->].
  - intros ps. rewrite pathMatchesGlobs_array, <- forallb_false_elem.
    split; [by intros [= ->]|by intros ->].
  - apply pathMatchesGlobs_string.
  - exists (selected relativePath pats 0). split.
    + unfold Config.vector_entries. rewrite Hov, Hfp, Hbd; simpl.
      replace (Z.to_nat (Z.of_nat (String.length baseDirectory) + 1))
        with (String.length baseDirectory + 1)%nat by lia.
      fold relativePath.
      rewrite (matching_overrides_selected _ _ pats) by done. done.
    + intros i. rewrite elem_of_selected. setoid_rewrite <- Hall.
      rewrite Nat.sub_0_r. split.
      * intros (ps & _ & ? & ?). eauto.
      * intros (ps & ? & ?). exists ps. split; [lia|done].
Qed.

End Vector.

(** In the sample project the override of [/x/.eslintrc] lists "*.ts" and
    "src/**"; [lib/a.ts] matches the first pattern only, and no index follows
    the config in the vector. *)
Lemma override_match_is_conjunctive_witness :
  minimatch "lib/a.ts" "*.ts" = true
  ∧ minimatch "lib/a.ts" "src/**" = false
  ∧ Config.vector_entries "/x/lib/a.ts" Sample.project_config
    = Ok [VStr "/x/.eslintrc"].
Proof.
  split; [reflexivity|]. split; [reflexivity|].
  assert (Forall2 (λ b ps, get b "files" = Ok (VArr (VStr <$> ps)))
            [VObj [("files", VArr [VStr "*.ts"; VStr "src/**"]);
                   ("rules", VObj [("semi", VStr "off")])]]
            [["*.ts"; "src/**"]]) as Hfiles by (repeat constructor).
  destruct (override_match_is_conjunctive "/x/lib/a.ts" Sample.project_config
              (VStr "/x/.eslintrc") "/x" _ _ eq_refl eq_refl eq_refl Hfiles)
    as (_ & _ & _ & indices & Hv & Hi).
  assert (indices = []) as ->; [|exact Hv].
  apply elem_of_nil_inv. intros i [ps [Hps Hm]]%Hi.
  destruct i as [|i]; [|done]. injection Hps as <-.
  assert (minimatch "lib/a.ts" "src/**" = true) as Hno; [|discriminate Hno].
  apply Hm. do 2 constructor.
Defined.
(** ** Cache coherency of getConfig *)

Section Coherency.
Context `{GlobMatcher} `{EnvironmentRegistry} `{FileSystem}.

Lemma same_merged_refl c : same_merged c c.
Proof. done. Qed.

Lemma same_merged_trans c1 c2 c3 :
  same_merged c1 c2 → same_merged c2 c3 → same_merged c1 c3.
Proof. intros [??] [??]. split; congruence. Qed.

Lemma loadCached_merged cache p :
  same_merged cache (Config.loadCached cache p).2.
Proof. unfold Config.loadCached. by repeat case_match. Qed.

Lemma walk_merged project files configs searched rootPath cache :
  same_merged cache
    (Config.w_store (Config.walk project files configs searched rootPath cache)).
Proof.
  revert configs searched rootPath cache.
  induction files as [|f files IH]; intros configs searched rootPath cache;
    simpl; [done|].
  destruct (getHierarchyLocalConfigs cache (dirname f)); [done|].
  destruct (_ && _); [apply IH|].
  destruct (match rootPath with Some _ => _ | None => _ end); [apply IH|].
  pose proof (loadCached_merged cache f) as Hl.
  destruct (Config.loadCached cache f) as [localConfig cache1]; simpl in Hl.
  destruct (negb (truthy localConfig));
    (eapply same_merged_trans; [exact Hl|apply IH]).
Qed.

Lemma getPersonalConfig_merged self cache :
  same_merged cache (Config.getPersonalConfig self cache).2.
Proof.
  unfold Config.getPersonalConfig.
  destruct (Config.personalConfig self); [done|].
  destruct Config.PERSONAL_CONFIG_DIR as [home|]; [|done].
  destruct (getFilenameForDirectory home) as [filename|]; [|done].
  pose proof (loadCached_merged cache filename) as Hl.
  by destruct (Config.loadCached cache filename).
Qed.

Lemma getLocalConfigHierarchy_merged self cache directory h self' cache' :
  Config.getLocalConfigHierarchy self cache directory = Ok (h, self', cache') →
  same_merged cache cache'.
Proof.
  unfold Config.getLocalConfigHierarchy.
  set (w := Config.walk _ _ _ _ _ _).
  pose proof (walk_merged (getFilenameForDirectory (Config.cwd (Config.opts self)))
                (Config.findLocalConfigFiles self directory) [] [] None cache)
    as Hw. fold w in Hw.
  intros Hr. apply bind_Ok in Hr as ([[configs self1] cache1] & Hr & Hk).
  injection Hk as _ _ <-.
  assert (same_merged cache cache1) as Hs; [|by destruct Hs].
  destruct (_ && _ && _) in Hr; [|by injection Hr as _ _ <-].
  pose proof (getPersonalConfig_merged self (Config.w_store w)) as Hp.
  destruct (Config.getPersonalConfig self (Config.w_store w))
    as [[personalConfig self2] cache2]; simpl in Hp.
  assert (cache1 = cache2) as ->.
  { repeat case_match; simplify_eq; done. }
  by eapply same_merged_trans.
Qed.

Lemma getConfigHierarchy_merged self cache directory h self' cache' :
  Config.getConfigHierarchy self cache directory = Ok (h, self', cache') →
  same_merged cache cache'.
Proof.
  unfold Config.getConfigHierarchy. intros Hr.
  apply bind_Ok in Hr as ([[configs self1] cache1] & Hr & Hk).
  assert (cache' = cache1) as -> by (by case_match; injection Hk as _ _ <-).
  destruct (Config.useEslintrc self); [|by injection Hr as _ _ <-].
  apply bind_Ok in Hr as ([[locals self2] cache2] & Hr & Hk2).
  injection Hk2 as _ _ <-. by eapply getLocalConfigHierarchy_merged.
Qed.

Lemma getConfigVector_merged self cache filePath v self' cache' :
  Config.getConfigVector self cache filePath = Ok (v, self', cache') →
  same_merged cache cache'.
Proof.
  unfold Config.getConfigVector. intros Hr.
  apply bind_Ok in Hr as ([[configs self1] cache1] & Hr & Hk).
  apply bind_Ok in Hk as (vector & _ & Hk). injection Hk as _ _ <-.
  by eapply getConfigHierarchy_merged.
Qed.

Lemma getConfig_inv self cache filePath c self' cache' :
  Config.getConfig self cache filePath = Ok (c, self', cache') →
  ∃ v cache1,
    Config.getConfigVector self cache filePath = Ok (v, self', cache1)
    ∧ Config.getConfigForVector self' cache1 v = Ok (c, cache').
Proof.
  unfold Config.getConfig. intros Hr.
  apply bind_Ok in Hr as ([[v self1] cache1] & Hv & Hk).
  apply bind_Ok in Hk as ([c' cache2] & Hc & Hk). injection Hk as <- <- <-.
  eauto.
Qed.

Lemma applyEnvironments_truthy config d :
  truthy config = true → applyEnvironments config = Ok d → truthy d = true.
Proof.
  unfold applyEnvironments. intros Ht Hr.
  apply bind_Ok in Hr as (env & _ & Hr).
  destruct (_ && _); [by eapply merge_truthy|by injection Hr as <-].
Qed.

(** After a successful call the final-merge table holds the returned config
    under the key of the vector. *)
Lemma getConfigForVector_cached self cache v c cache' :
  Config.getConfigForVector self cache v = Ok (c, cache') →
  mergedCache cache' !! hash v = Some c ∧ truthy c = true.
Proof.
  unfold Config.getConfigForVector, getMergedConfig.
  destruct (truthy (default VUndef (mergedCache cache !! hash v))) eqn:Ht.
  - intros [= <- <-]. by destruct (mergedCache cache !! hash v).
  - intros Hr.
    apply bind_Ok in Hr as ([c0 cache0] & _ & Hr).
    apply bind_Ok in Hr as (c1 & Hm & Hr).
    apply bind_Ok in Hr as (p & _ & Hr).
    apply bind_Ok in Hr as (c2 & Hp & Hr).
    apply bind_Ok in Hr as (env & _ & Hr).
    apply bind_Ok in Hr as (c3 & He & Hr).
    injection Hr as <- <-. simpl. rewrite lookup_insert_eq. split; [done|].
    assert (truthy c2 = true) as Ht2.
    { destruct (_ || _); [by eapply merge_truthy|].
      injection Hp as <-. by eapply merge_truthy. }
    destruct (truthy env); [by eapply applyEnvironments_truthy|].
    by injection He as <-.
Qed.

(** An entry of the final-merge table is never replaced. *)
Lemma getConfigForVector_keeps self cache v c cache' key e :
  Config.getConfigForVector self cache v = Ok (c, cache') →
  mergedCache cache !! key = Some e → truthy e = true →
  mergedCache cache' !! key = Some e.
Proof.
  unfold Config.getConfigForVector, getMergedConfig. intros Hr He Ht.
  destruct (truthy (default VUndef (mergedCache cache !! hash v))) eqn:Hhit.
  - by injection Hr as _ <-.
  - assert (hash v ≠ key) as Hne.
    { intros Heq. rewrite Heq, He in Hhit. simpl in Hhit. congruence. }
    apply bind_Ok in Hr as ([c0 cache0] & Hf & Hr).
    apply getConfigFromVector_frame in Hf as (_ & _ & Hmc & _).
    apply bind_Ok in Hr as (c1 & _ & Hr).
    apply bind_Ok in Hr as (p & _ & Hr).
    apply bind_Ok in Hr as (c2 & _ & Hr).
    apply bind_Ok in Hr as (env & _ & Hr).
    apply bind_Ok in Hr as (c3 & _ & Hr).
    injection Hr as _ <-. simpl. rewrite lookup_insert_ne by done. congruence.
Qed.

Lemma resolves_keeps s s' key e :
  rtc resolves s s' →
  mergedCache s.2 !! key = Some e → truthy e = true →
  mergedCache s'.2 !! key = Some e.
Proof.
  induction 1 as [|s1 s2 s3 Hstep _ IH]; [done|]. intros He Ht.
  apply IH; [|done]. destruct Hstep as [self cache f c self' cache' Hcall].
  simpl in *. apply getConfig_inv in Hcall as (v & cache1 & Hv & Hc).
  apply getConfigVector_merged in Hv as [Hmc _].
  eapply getConfigForVector_keeps; [exact Hc| |done]. congruence.
Qed.

(** C2.  Two calls of [getConfig] in one run whose vectors are the same
    token sequence return the same config, whatever was resolved in
    between. *)
Theorem same_vector_same_config (self : Config.t) (cache : ConfigCache.t)
    (file1 file2 : option string) (v : vector)
    c1 self1 cache1 cache1' self2 cache2 c2 self3 cache3 cache3' :
  Config.getConfigVector self cache file1 = Ok (v, self1, cache1) →
  Config.getConfig self cache file1 = Ok (c1, self1, cache1') →
  rtc resolves (self1, cache1') (self2, cache2) →
  Config.getConfigVector self2 cache2 file2 = Ok (v, self3, cache3) →
  Config.getConfig self2 cache2 file2 = Ok (c2, self3, cache3') →
  c2 = c1.
Proof.
  intros Hv1 Hc1 Hrun Hv2 Hc2.
  apply getConfig_inv in Hc1 as (v1 & cache1a & Hv1' & Hc1).
  rewrite Hv1 in Hv1'. injection Hv1' as <- <-.
  apply getConfig_inv in Hc2 as (v2 & cache3a & Hv2' & Hc2).
  rewrite Hv2 in Hv2'. injection Hv2' as <- <-.
  apply getConfigForVector_cached in Hc1 as [He Ht].
  eapply resolves_keeps in Hrun; [|exact He|exact Ht]. simpl in Hrun.
  apply getConfigVector_merged in Hv2 as [Hmc _]. rewrite <- Hmc in Hrun.
  unfold Config.getConfigForVector, getMergedConfig in Hc2.
  rewrite Hrun in Hc2. simpl in Hc2. rewrite Ht in Hc2. by injection Hc2 as <- _.
Qed.

End Coherency.

(** In the sample project [/x/src/a.ts] and [/x/src/b.ts] have the same
    vector; with a file under [/x/a] resolved in between, both get the same
    config. *)
Lemma same_vector_same_config_witness :
  ∃ self cache c1 self1 cache1 self2 cache2 c2 self3 cache3,
    Config.constructor Sample.sample_options = Ok (self, cache)
    ∧ Config.getConfig self cache (Some "/x/src/a.ts") = Ok (c1, self1, cache1)
    ∧ rtc resolves (self1, cache1) (self2, cache2)
    ∧ Config.getConfig self2 cache2 (Some "/x/src/b.ts") = Ok (c2, self3, cache3)
    ∧ c2 = c1.
Proof.
  lazymatch evaluated (Config.constructor Sample.sample_options) with
  | Ok (?self, ?cache) =>
      exists self, cache;
      lazymatch evaluated (Config.getConfig self cache (Some "/x/src/a.ts")) with
      | Ok (?c1, ?self1, ?cache1) =>
          exists c1, self1, cache1;
          lazymatch evaluated
              (Config.getConfig self1 cache1 (Some "/x/a/b/t.js")) with
          | Ok (_, ?self2, ?cache2) =>
              exists self2, cache2;
              lazymatch evaluated
                  (Config.getConfig self2 cache2 (Some "/x/src/b.ts")) with
              | Ok (?c2, ?self3, ?cache3) => exists c2, self3, cache3
              end
          end
      end
  end.
  assert (∀ A B C D : Prop, A → B → C → (A → B → C → D) → A ∧ B ∧ C ∧ D)
    as Hand by tauto.
  split; [by_evaluation|]. apply Hand.
  - by_evaluation.
  - eapply rtc_l; [|apply rtc_refl].
    eapply (resolves_call _ _ (Some "/x/a/b/t.js")). by_evaluation.
  - by_evaluation.
  - intros Hc1 Hrun Hc2.
    eapply (same_vector_same_config _ _ (Some "/x/src/a.ts")
              (Some "/x/src/b.ts") Sample.sample_vector);
      [|exact Hc1|exact Hrun| |exact Hc2]; by_evaluation.
Defined.
(** ** Keys of vectors *)

Lemma string_to_list_app a b :
  string_to_list (a +:+ b) = string_to_list a ++ string_to_list b.
Proof. induction a as [|c a IH]; simpl; [done|by rewrite IH]. Qed.

Lemma base_key_app a b : base_key (a +:+ b) = base_key a && base_key b.
Proof. unfold base_key. by rewrite string_to_list_app, forallb_app. Qed.

Lemma base_key_concat (l : list string) :
  base_key (String.concat "," l) = forallb base_key l.
Proof.
  induction l as [|a l IH]; [done|].
  destruct l as [|b l].
  - simpl. by rewrite andb_true_r.
  - change (String.concat "," (a :: b :: l))
      with (a +:+ "," +:+ String.concat "," (b :: l)).
    rewrite !base_key_app, IH. done.
Qed.

Lemma pretty_N_go_base_key x s :
  base_key s = true → base_key (pretty_N_go x s) = true.
Proof.
  revert s. induction (N.lt_wf_0 x) as [x _ IH]; intros s Hs.
  destruct (decide (x = 0)%N) as [->|Hx].
  - by rewrite pretty_N_go_0.
  - rewrite pretty_N_go_step by lia. apply IH.
    + apply N.div_lt; lia.
    + unfold base_key in *. simpl. rewrite Hs, andb_true_r.
      unfold pretty_N_char. by repeat case_match.
Qed.

Lemma pretty_nat_base_key (n : nat) : base_key (pretty n) = true.
Proof.
  unfold pretty, pretty_nat, pretty, pretty_N.
  case_decide; [done|]. by apply pretty_N_go_base_key.
Qed.

Lemma pretty_Z_of_nat_base_key (n : nat) : base_key (pretty (Z.of_nat n)) = true.
Proof.
  destruct n as [|n]; [done|].
  change (pretty (Z.of_nat (S n))) with (pretty (N.pos (Pos.of_succ_nat n))).
  unfold pretty, pretty_N. case_decide; [done|]. by apply pretty_N_go_base_key.
Qed.

Lemma string_of_nat_not_bookkeeping (i : nat) :
  string_of_nat i ≠ "filePath" ∧ string_of_nat i ≠ "baseDirectory".
Proof.
  pose proof (pretty_nat_base_key i) as Hd.
  split; intros Heq; unfold string_of_nat in Heq; rewrite Heq in Hd; done.
Qed.

Lemma hash_base_key (v : vector) :
  base_key (hash v) = forallb (λ t, base_key (token_text t)) v.
Proof.
  unfold hash, join, VECTOR_SEP. rewrite base_key_concat.
  induction v as [|t v IH]; [done|]. simpl. by rewrite IH.
Qed.

Lemma token_ok_base_key t :
  token_ok t →
  base_key (token_text t) = false ↔ ∃ p, t = VStr p ∧ p ≠ "".
Proof.
  intros [(p & -> & Hp)|(n & ->)]; simpl.
  - split; [|done]. intros _. exists p. split; [done|]. by intros ->.
  - rewrite pretty_Z_of_nat_base_key. split; [done|]. by intros (? & ? & _).
Qed.

(** The key of a well-formed vector is a base key exactly when the vector
    names no config file. *)
Lemma vector_ok_base_key v :
  vector_ok v →
  base_key (hash v) = false ↔ ∃ p, p ≠ "" ∧ VStr p ∈ v.
Proof.
  intros (tail & -> & Htail). rewrite hash_base_key. simpl.
  induction Htail as [|t tail Ht _ IH]; simpl.
  - split; [done|]. intros (p & Hp & Hin).
    apply list_elem_of_singleton in Hin. congruence.
  - rewrite andb_false_iff, (token_ok_base_key t Ht), IH. split.
    + intros [(p & -> & Hp)|(p & Hp & Hin)]; exists p; (split; [done|]).
      * apply elem_of_cons; right. apply elem_of_cons; by left.
      * apply elem_of_cons in Hin as [Hin|Hin].
        -- apply elem_of_cons; by left.
        -- apply elem_of_cons; right. apply elem_of_cons; by right.
    + intros (p & Hp & Hin).
      apply elem_of_cons in Hin as [Hin|Hin]; [congruence|].
      apply elem_of_cons in Hin as [<-|Hin]; [left; eauto|].
      right. exists p. split; [done|]. apply elem_of_cons; by right.
Qed.
(** ** Keys through merge *)

Lemma has_key_obj k o : has_key k (VObj o) = true ↔ is_Some (obj_get k o).
Proof. simpl. by rewrite bool_decide_eq_true. Qed.

Lemma has_key_obj_false k o : has_key k (VObj o) = false ↔ obj_get k o = None.
Proof.
  simpl. rewrite bool_decide_eq_false, <- eq_None_not_Some. done.
Qed.

Lemma obj_get_is_Some k (o : obj) : is_Some (obj_get k o) ↔ k ∈ obj_keys o.
Proof.
  induction o as [|[k' v] o IH]; simpl.
  - split; [by intros [??]|by intros ?%elem_of_nil].
  - rewrite elem_of_cons. destruct (String.eqb_spec k k') as [->|Hne].
    + split; [by left|eauto].
    + rewrite IH. split; [by right|by intros [?|?]].
Qed.

Lemma has_key_own_key k v : has_key k v = true → own_key k v.
Proof.
  destruct v; simpl; try done. rewrite bool_decide_eq_true.
  by rewrite obj_get_is_Some.
Qed.

Lemma obj_get_set_is_Some k k' x (o : obj) :
  is_Some (obj_get k (obj_set k' x o)) ↔ k = k' ∨ is_Some (obj_get k o).
Proof.
  destruct (decide (k' = k)) as [->|Hne].
  - rewrite obj_get_set_eq. split; [by left|eauto].
  - rewrite obj_get_set_ne by done. split; [by right|]. by intros [?|?].
Qed.

(** The keys of the result of the object loop: those it started with and
    those of the entries. *)
Lemma object_loop_keys target combine isRule es dst d k :
  object_loop target combine isRule es dst = Ok d →
  is_Some (obj_get k d) ↔ is_Some (obj_get k dst) ∨ k ∈ map (λ e, e.1.1) es.
Proof.
  revert dst. induction es as [|[[key sv] recur] es IH]; intros dst; simpl.
  - intros [= <-]. split; [by left|]. by intros [?|?%elem_of_nil].
  - intros Hr. apply bind_Ok in Hr as (dst' & Hs & Hr).
    unfold object_step in Hs. apply bind_Ok in Hs as (x & _ & [= <-]).
    rewrite (IH _ Hr), obj_get_set_is_Some, elem_of_cons. tauto.
Qed.

Lemma object_loop_other target combine isRule es dst d k :
  object_loop target combine isRule es dst = Ok d →
  k ∉ map (λ e, e.1.1) es →
  obj_get k d = obj_get k dst.
Proof.
  revert dst. induction es as [|[[key sv] recur] es IH]; intros dst; simpl.
  - by intros [= <-].
  - intros Hr [Hne Hnotin]%not_elem_of_cons.
    apply bind_Ok in Hr as (dst' & Hs & Hr).
    unfold object_step in Hs. apply bind_Ok in Hs as (x & _ & [= <-]).
    rewrite (IH _ Hr Hnotin). by rewrite obj_get_set_ne.
Qed.

(** With distinct keys, every entry leaves the value computed for it. *)
Lemma object_loop_lookup target combine isRule es dst d key sv recur :
  object_loop target combine isRule es dst = Ok d →
  NoDup (map (λ e, e.1.1) es) →
  (key, sv, recur) ∈ es →
  ∃ x, object_value target combine isRule key sv recur = Ok x
       ∧ obj_get key d = Some x.
Proof.
  revert dst. induction es as [|[[key' sv'] recur'] es IH]; intros dst; simpl.
  - by intros _ _ ?%elem_of_nil.
  - intros Hr [Hnotin Hnd]%NoDup_cons Hin.
    apply bind_Ok in Hr as (dst' & Hs & Hr).
    apply elem_of_cons in Hin as [[= <- <- <-]|Hin]; [|by eapply IH].
    unfold object_step in Hs. apply bind_Ok in Hs as (x & Hx & [= <-]).
    exists x. split; [done|].
    rewrite (object_loop_other _ _ _ _ _ _ _ Hr Hnotin).
    apply obj_get_set_eq.
Qed.

Lemma src_entries_keys o : map (λ e, e.1.1) (src_entries o) = obj_keys o.
Proof. unfold src_entries, obj_keys. rewrite map_map. done. Qed.

Lemma obj_get_elem_of k v (o : obj) :
  obj_get k o = Some v → (k, v) ∈ o.
Proof.
  induction o as [|[k' v'] o IH]; simpl; [done|].
  destruct (String.eqb_spec k k') as [->|Hne].
  - intros [= ->]. by left.
  - intros ?%IH. by right.
Qed.

(** The keys of a merged config come from the target or from the source. *)
Lemma merge_keys target src combine isRule d k :
  merge target src combine isRule = Ok d →
  has_key k d = true → has_key k target = true ∨ own_key k src.
Proof.
  intros Hm Hk.
  destruct (isArray target) eqn:Ht.
  { exfalso. destruct src; simpl in Hm; rewrite ?Ht in Hm; simpl in Hm;
      unfold merge_wrapped in Hm;
      repeat match goal with
      | H : _ ≫= _ = Ok _ |- _ => apply bind_Ok in H as (? & ? & H)
      | H : Ok _ = Ok _ |- _ => injection H as <-
      | H : Throw _ = Ok _ |- _ => discriminate H
      end; done. }
  destruct src as [| | | |s| |l|o].
  1-4,6: simpl in Hm; rewrite Ht in Hm; simpl in Hm; try done;
    injection Hm as <-; left; by destruct target.
  - (* a string: its characters are the entries *)
    simpl in Hm. rewrite Ht in Hm. simpl in Hm.
    apply bind_Ok in Hm as (dst & Hl & [= <-]).
    apply has_key_obj in Hk. rewrite (object_loop_keys _ _ _ _ _ _ _ Hl) in Hk.
    destruct Hk as [Hk|Hk].
    + left. destruct target; simpl in Hk; try by destruct Hk.
      by apply has_key_obj.
    + right. unfold own_key, obj_keys. by rewrite map_map in Hk.
  - (* an array: the array branch *)
    exfalso. simpl in Hm.
    apply bind_Ok in Hm as (dst & _ & [= <-]). done.
  - rewrite merge_object_unfold in Hm by done.
    apply bind_Ok in Hm as (dst & Hl & [= <-]).
    apply has_key_obj in Hk. rewrite (object_loop_keys _ _ _ _ _ _ _ Hl) in Hk.
    rewrite src_entries_keys in Hk. destruct Hk as [Hk|Hk]; [|by right].
    left. destruct target; simpl in Hk; try by destruct Hk.
    by apply has_key_obj.
Qed.

Lemma strip_bookkeeping_keys config k :
  has_key k (strip_bookkeeping config) = true → has_key k config = true.
Proof.
  assert (∀ k' c, has_key k (delete_prop c k') = true → has_key k c = true)
    as Hdel.
  { intros k' [] Hk; simpl in *; try done.
    apply bool_decide_eq_true. apply bool_decide_eq_true in Hk.
    destruct (decide (k' = k)) as [->|Hne].
    - rewrite obj_get_delete_eq in Hk. by destruct Hk.
    - by rewrite obj_get_delete_ne in Hk. }
  unfold strip_bookkeeping. repeat case_match; eauto.
Qed.

Lemma strip_bookkeeping_clean config :
  truthy (prop config "filePath") = true → clean (strip_bookkeeping config).
Proof.
  intros Ht. unfold strip_bookkeeping. rewrite Ht.
  destruct config; try done. split; apply has_key_obj_false.
  - rewrite obj_get_delete_ne by done. apply obj_get_delete_eq.
  - apply obj_get_delete_eq.
Qed.

(** Merging a loaded source in and stripping leaves neither key, whatever
    the target was. *)
Lemma merge_source_clean p src target d :
  loaded_source p src →
  merge target src false false = Ok d →
  clean (strip_bookkeeping d).
Proof.
  intros (o & -> & Hnd & Hfp & Hp & _) Hm.
  destruct (isArray target) eqn:Ht.
  { simpl in Hm. rewrite Ht in Hm. simpl in Hm.
    apply bind_Ok in Hm as (dst & _ & [= <-]).
    unfold strip_bookkeeping. by repeat case_match. }
  rewrite merge_object_unfold in Hm by done.
  apply bind_Ok in Hm as (dst & Hl & [= <-]).
  apply strip_bookkeeping_clean. simpl.
  assert (("filePath", VStr p, λ t c r, merge t (VStr p) c r) ∈ src_entries o)
    as Hin.
  { apply (list_elem_of_fmap_2
             (λ kv : string * value, (kv.1, kv.2, λ t c r, merge t kv.2 c r))
             o ("filePath", VStr p)).
    by apply obj_get_elem_of. }
  eapply object_loop_lookup in Hl as (x & Hx & ->);
    [|by rewrite src_entries_keys|exact Hin].
  unfold object_value in Hx.
  apply bind_Ok in Hx as (tk & _ & Hx).
  change (String.eqb "filePath" "overrides") with false in Hx.
  change (isArray (VStr p)) with false in Hx.
  change (typeof (VStr p)) with "string" in Hx.
  cbv beta iota in Hx. rewrite orb_false_l in Hx.
  destruct (isArray tk).
  - by eapply merge_truthy.
  - simpl in Hx. injection Hx as <-. simpl.
    destruct (String.eqb_spec p ""); [|done]. by subst.
Qed.
(** ** No bookkeeping keys in the merged config *)

Lemma clean_block_arr_get n blocks :
  Forall clean_block blocks → clean_block (arr_get n blocks).
Proof.
  intros Hall. unfold arr_get. destruct (blocks !! n) as [b|] eqn:Hb.
  - by eapply Forall_lookup_1.
  - split; by intros ?%elem_of_nil.
Qed.

Lemma merge_block_clean config block d :
  clean config → clean_block block →
  merge config block false false = Ok d →
  clean (strip_bookkeeping d).
Proof.
  intros [Hc1 Hc2] [Hb1 Hb2] Hm.
  split; apply not_true_iff_false; intros Hk%strip_bookkeeping_keys;
    destruct (merge_keys _ _ _ _ _ _ Hm Hk); congruence.
Qed.

Lemma getConfig_Some cache p x :
  get (getConfig cache p) "overrides" = Ok x →
  filePathCache cache !! p = Some (getConfig cache p)
  ∧ x = prop (getConfig cache p) "overrides".
Proof.
  unfold getConfig. destruct (filePathCache cache !! p) as [src|]; [|done].
  simpl. destruct src; simpl; try done; by intros [= <-].
Qed.

(** The loop ends clean when it starts clean and only merges override
    blocks, or when it merges a loaded source along the way. *)
Lemma fold_vector_clean v rest config sub cache c cache' :
  sources_ok (filePathCache cache) →
  Forall token_ok rest →
  overrides_ok sub →
  clean config ∨ (∃ p, VStr p ∈ rest) →
  fold_vector v rest config sub cache = Ok (c, cache') →
  clean c.
Proof.
  intros Hsrc Hrest. revert config sub cache Hsrc.
  induction Hrest as [|t rest Ht Hrest IH]; intros config sub cache Hsrc Hsub Hstart; simpl.
  - intros [= <- _]. destruct Hstart as [?|(p & ?%elem_of_nil)]; done.
  - intros Hf. apply bind_Ok in Hf as ([shallow sub'] & Hsc & Hf).
    apply bind_Ok in Hf as (merged & Hm & Hf). simpl in Hm, Hf.
    destruct Ht as [(p & -> & Hp)|(n & ->)].
    + apply bind_Ok in Hsc as (x & Hx & [= <- <-]).
      apply getConfig_Some in Hx as [Hin ->].
      destruct (Hsrc _ _ Hin) as [Hov Hld].
      assert (p ≠ "") as Hne by (by intros ->).
      eapply IH in Hf; [done|done|done|].
      left. eapply merge_source_clean; [by apply Hld|done].
    + apply bind_Ok in Hsc as (x & Hx & [= <- <-]).
      assert (clean_block x) as Hb.
      { destruct Hsub as [->|(blocks & -> & Hall)].
        - simpl in Hx. by destruct (0 <=? Z.of_nat n)%Z.
        - simpl in Hx. destruct (Z.leb_spec 0 (Z.of_nat n)); [|lia].
          injection Hx as <-. by apply clean_block_arr_get. }
      eapply IH in Hf; [done|done|done|].
      destruct Hstart as [Hc|(p & Hin)].
      * left. by eapply merge_block_clean.
      * right. exists p. by apply elem_of_cons in Hin as [?|?].
Qed.

Lemma probe_None cache v k :
  probe cache v k = None →
  ∀ j, (1 ≤ j ≤ k)%nat → truthy (getMergedVectorConfig cache (take j v)) = false.
Proof.
  induction k as [|k IH]; simpl; [intros _ j ?; lia|].
  destruct (truthy (getMergedVectorConfig cache (take (S k) v))) eqn:E; [done|].
  intros Hn j Hj. destruct (decide (j = S k)) as [->|]; [done|].
  apply IH; [done|lia].
Qed.

Lemma getMergedVectorConfig_truthy cache v :
  truthy (getMergedVectorConfig cache v) = true →
  mergedVectorCache cache !! hash v = Some (getMergedVectorConfig cache v).
Proof.
  unfold getMergedVectorConfig. by destruct (mergedVectorCache cache !! hash v).
Qed.

Lemma vector_ok_take v k : vector_ok v → (1 ≤ k)%nat → vector_ok (take k v).
Proof.
  intros (tail & -> & Htail) Hk. destruct k as [|k]; [lia|].
  exists (take k tail). split; [done|]. by apply Forall_take.
Qed.

Lemma vector_ok_drop v k :
  vector_ok v → (1 ≤ k)%nat → Forall token_ok (drop k v).
Proof.
  intros (tail & -> & Htail) Hk. destruct k as [|k]; [lia|].
  simpl. by apply Forall_drop.
Qed.

(** The filesystem merge of a vector that names a config file is clean. *)
Lemma getConfigFromVector_clean cache v c cache' :
  sources_ok (filePathCache cache) →
  table_ok (mergedVectorCache cache) →
  truthy (getMergedVectorConfig cache [VStr ""]) = true →
  vector_ok v →
  (∃ p, p ≠ "" ∧ VStr p ∈ v) →
  getConfigFromVector cache v = Ok (c, cache') →
  clean c.
Proof.
  intros Hsrc Htab Hbase Hv Hfile. unfold getConfigFromVector.
  destruct (probe cache v (length v)) as [[k config]|] eqn:Hp.
  - apply probe_Some in Hp as (Hk & Hc & Ht).
    assert (mergedVectorCache cache !! hash (take k v) = Some config) as Hentry.
    { rewrite <- Hc in Ht. apply getMergedVectorConfig_truthy in Ht. by rewrite Hc in Ht. }
    destruct (Nat.eqb_spec k (length v)) as [->|Hne].
    + intros [= <- _]. rewrite firstn_all in Hentry.
      eapply Htab; [done|]. by apply vector_ok_base_key.
    + intros Hf. apply bind_Ok in Hf as (sub & Hsub & Hf).
      eapply fold_vector_clean in Hf; [done|done| | |].
      * by apply vector_ok_drop; [|lia].
      * destruct (v !! k) as [[]|]; try (injection Hsub as <-; by left).
        destruct (rev (take k v)) as [|t before];
          [simpl in Hsub; done|].
        destruct (find_parent t before); simpl in Hsub; try done.
        apply getConfig_Some in Hsub as [Hin ->].
        by apply (Hsrc _ _ Hin).
      * destruct Hfile as (p & Hne' & Hin).
        rewrite <- (take_drop k v) in Hin.
        apply elem_of_app in Hin as [Hin|Hin]; [|right; eauto].
        left. eapply Htab; [done|].
        apply vector_ok_base_key; [apply vector_ok_take; [done|lia]|eauto].
  - destruct Hv as (tail & -> & _).
    apply probe_None with (j := 1%nat) in Hp; [|simpl; lia].
    change (take 1 (VStr "" :: tail)) with [VStr ""] in Hp. congruence.
Qed.
(** ** The invariant of the resolver *)

Section Invariant.
Context `{GlobMatcher} `{EnvironmentRegistry} `{FileSystem} `{!FileSystemContract}.

Lemma sources_ok_insert sources p src :
  sources_ok sources → loaded_source p src →
  sources_ok (<[p := src]> sources).
Proof.
  intros Hs Hl q x. destruct (decide (p = q)) as [->|Hne].
  - rewrite lookup_insert_eq. intros [= <-]. split; [|done].
    by destruct Hl as (o & _ & _ & _ & _ & ?).
  - rewrite lookup_insert_ne by done. apply Hs.
Qed.

Lemma loadCached_ok cache p :
  sources_ok (filePathCache cache) → p ≠ "" →
  sources_ok (filePathCache (Config.loadCached cache p).2)
  ∧ localHierarchyCache (Config.loadCached cache p).2 = localHierarchyCache cache
  ∧ (truthy (Config.loadCached cache p).1 = true →
     is_loaded (Config.loadCached cache p).1).
Proof.
  intros Hs Hp. unfold Config.loadCached.
  destruct (truthy (getConfig cache p)) eqn:Hc; simpl.
  - split_and!; [done|done|]. intros _. exists p. unfold getConfig in *.
    destruct (filePathCache cache !! p) as [x|] eqn:Hx; [|done].
    by apply (Hs _ _ Hx).
  - destruct (truthy (ConfigFile_load p)) eqn:Hl; simpl.
    + split_and!; [|done|].
      * apply sources_ok_insert; [done|]. by apply load_tagged.
      * intros _. exists p. by apply load_tagged.
    + split_and!; [done|done|]. by rewrite Hl.
Qed.

Lemma walk_ok project files configs searched rootPath cache :
  sources_ok (filePathCache cache) →
  hierarchy_ok (localHierarchyCache cache) →
  Forall (λ f, f ≠ "") files →
  Forall is_loaded configs →
  let w := Config.walk project files configs searched rootPath cache in
  sources_ok (filePathCache (Config.w_store w))
  ∧ localHierarchyCache (Config.w_store w) = localHierarchyCache cache
  ∧ Forall is_loaded (Config.w_configs w)
  ∧ (∀ hit, Config.w_cache w = Some hit → Forall is_loaded hit).
Proof.
  intros Hs Hh Hfiles. revert configs searched rootPath cache Hs Hh.
  induction Hfiles as [|f files Hf _ IH];
    intros configs searched rootPath cache Hs Hh Hc; simpl.
  - split_and!; done.
  - destruct (getHierarchyLocalConfigs cache (dirname f)) as [hit|] eqn:Hhit.
    { simpl. split_and!; [done..|]. intros ? [= <-]. by eapply Hh. }
    destruct (_ && _); [by apply IH|].
    destruct (match rootPath with Some _ => _ | None => _ end); [by apply IH|].
    destruct (loadCached_ok cache f Hs Hf) as (Hs' & Hh' & Hl).
    destruct (Config.loadCached cache f) as [localConfig cache1]; simpl in *.
    destruct (truthy localConfig) eqn:Ht; simpl.
    + rewrite <- Hh'. apply IH; [done|by rewrite Hh'|].
      apply Forall_app; split; [done|]. apply Forall_singleton. by apply Hl.
    + rewrite <- Hh'. apply IH; [done|by rewrite Hh'|done].
Qed.

Lemma getPersonalConfig_ok self cache :
  self_ok self → sources_ok (filePathCache cache) →
  let r := Config.getPersonalConfig self cache in
  self_ok r.1.2
  ∧ sources_ok (filePathCache r.2)
  ∧ localHierarchyCache r.2 = localHierarchyCache cache
  ∧ (truthy r.1.1 = true → is_loaded r.1.1).
Proof.
  intros Hself Hs. unfold Config.getPersonalConfig.
  destruct (Config.personalConfig self) as [p|] eqn:Hp; simpl.
  { split_and!; try done. intros Ht.
    by apply (proj2 (proj2 (proj2 Hself)) p). }
  assert (∃ config cache',
            (match Config.PERSONAL_CONFIG_DIR with
             | Some home =>
                 match getFilenameForDirectory home with
                 | Some filename => Config.loadCached cache filename
                 | None => (VUndef, cache)
                 end
             | None => (VUndef, cache)
             end) = (config, cache')
            ∧ sources_ok (filePathCache cache')
            ∧ localHierarchyCache cache' = localHierarchyCache cache
            ∧ (truthy config = true → is_loaded config))
    as (config & cache' & -> & Hs' & Hh' & Hl).
  { destruct Config.PERSONAL_CONFIG_DIR as [home|]; [|by eexists _, _].
    destruct (getFilenameForDirectory home) as [filename|] eqn:Hf;
      [|by eexists _, _].
    destruct (loadCached_ok cache filename Hs) as (? & ? & ?);
      [by eapply filename_path|].
    destruct (Config.loadCached cache filename); by eexists _, _. }
  destruct Hself as (Hcli & Hbase & Hspec & _).
  assert (truthy (or_else config VNull) = true → is_loaded (or_else config VNull))
    as Hor.
  { unfold or_else. destruct (truthy config) eqn:Ht; [by intros _; apply Hl|done]. }
  simpl. split_and!; try done.
  split_and!; try done. simpl. by intros x [= <-].
Qed.


Lemma setHierarchy_from_ok i (dirs : list string) configs
    (h : gmap string (list value)) :
  hierarchy_ok h → Forall is_loaded configs →
  hierarchy_ok (setHierarchy_from i dirs configs h).
Proof.
  intros Hh Hc. revert i h Hh.
  induction dirs as [|d dirs IH]; intros i h Hh; simpl; [done|].
  apply IH. intros d' l. destruct (decide (d = d')) as [->|Hne].
  - rewrite lookup_insert_eq. intros [= <-]. by apply Forall_take.
  - rewrite lookup_insert_ne by done. apply Hh.
Qed.

Lemma getLocalConfigHierarchy_ok self cache directory h self' cache' :
  self_ok self → sources_ok (filePathCache cache) →
  hierarchy_ok (localHierarchyCache cache) →
  Config.getLocalConfigHierarchy self cache directory = Ok (h, self', cache') →
  self_ok self' ∧ sources_ok (filePathCache cache')
  ∧ hierarchy_ok (localHierarchyCache cache') ∧ Forall is_loaded h.
Proof.
  intros Hself Hs Hh. unfold Config.getLocalConfigHierarchy.
  set (files := Config.findLocalConfigFiles self directory).
  assert (Forall (λ f, f ≠ "") files) as Hfiles.
  { apply Forall_forall. intros f Hf. by eapply finder_paths. }
  destruct (walk_ok (getFilenameForDirectory (Config.cwd (Config.opts self)))
              files [] [] None cache Hs Hh Hfiles (Forall_nil_2 _))
    as (Hws & Hwh & Hwc & Hwhit).
  set (w := Config.walk _ _ _ _ _ _) in *.
  intros Hr. apply bind_Ok in Hr as ([[configs self1] cache1] & Hr & Hk).
  injection Hk as <- <- <-.
  assert (self_ok self1 ∧ sources_ok (filePathCache cache1)
          ∧ localHierarchyCache cache1 = localHierarchyCache cache
          ∧ Forall is_loaded configs) as (Hself1 & Hs1 & Hh1 & Hc1).
  { destruct (_ && _ && _) in Hr; [|by injection Hr as <- <- <-].
    destruct (getPersonalConfig_ok self (Config.w_store w) Hself Hws)
      as (Hps & Hpsrc & Hph & Hpl).
    destruct (Config.getPersonalConfig self (Config.w_store w))
      as [[personalConfig self2] cache2]; simpl in *.
    destruct (truthy personalConfig) eqn:Ht.
    - injection Hr as <- <- <-. split_and!; [done|done|congruence|].
      apply Forall_app; split; [done|]. apply Forall_singleton. by apply Hpl.
    - destruct (_ && _) in Hr; [done|]. injection Hr as <- <- <-.
      split_and!; [done|done|congruence|done]. }
  assert (Forall is_loaded
            (match Config.w_cache w with
             | Some hit => hit ++ rev configs
             | None => rev configs
             end)) as Hres.
  { assert (Forall is_loaded (rev configs)) as Hrev.
    { by apply Forall_rev. }
    destruct (Config.w_cache w) as [hit|] eqn:Hhit; [|done].
    apply Forall_app; split; [by apply Hwhit|done]. }
  split_and!; [done|done| |done].
  simpl. apply setHierarchy_from_ok; [by rewrite Hh1|done].
Qed.

Lemma getConfigHierarchy_ok self cache directory h self' cache' :
  self_ok self → sources_ok (filePathCache cache) →
  hierarchy_ok (localHierarchyCache cache) →
  Config.getConfigHierarchy self cache directory = Ok (h, self', cache') →
  self_ok self' ∧ sources_ok (filePathCache cache')
  ∧ hierarchy_ok (localHierarchyCache cache')
  ∧ ∃ b locals, h = b :: locals ∧ base_ok b ∧ Forall is_loaded locals.
Proof.
  intros Hself Hs Hh. unfold Config.getConfigHierarchy. intros Hr.
  apply bind_Ok in Hr as ([[configs self1] cache1] & Hr & Hk).
  assert (self_ok self1 ∧ sources_ok (filePathCache cache1)
          ∧ hierarchy_ok (localHierarchyCache cache1)
          ∧ ∃ b locals, configs = b :: locals ∧ base_ok b
                        ∧ Forall is_loaded locals)
    as (Hself1 & Hs1 & Hh1 & b & locals & -> & Hb & Hl).
  { destruct (Config.useEslintrc self).
    - apply bind_Ok in Hr as ([[locals self2] cache2] & Hr & [= <- <- <-]).
      eapply getLocalConfigHierarchy_ok in Hr as (? & ? & ? & ?); [|done..].
      split_and!; [done..|]. exists (Config.baseConfig self), locals.
      split_and!; [done| |done]. apply Hself.
    - injection Hr as <- <- <-. split_and!; [done..|].
      exists (Config.baseConfig self), []. split_and!; [done| |done].
      apply Hself. }
  destruct (truthy (Config.useSpecificConfig self1)) eqn:Ht;
    injection Hk as <- <- <-; (split_and!; [done..|]).
  - exists b, (locals ++ [Config.useSpecificConfig self1]).
    split_and!; [done|done|]. apply Forall_app; split; [done|].
    apply Forall_singleton. by apply (proj1 (proj2 (proj2 Hself1))).
  - by exists b, locals.
Qed.

Lemma matching_overrides_tokens relativePath blocks i l :
  Config.matching_overrides relativePath blocks i = Ok l → Forall token_ok l.
Proof.
  revert i l. induction blocks as [|b blocks IH]; intros i l; simpl.
  - by intros [= <-].
  - intros Hr. apply bind_Ok in Hr as (files & _ & Hr).
    apply bind_Ok in Hr as (m & _ & Hr).
    apply bind_Ok in Hr as (more & Hmore & [= <-]).
    apply IH in Hmore. destruct m; [|done].
    apply Forall_cons; split; [|done]. right. by exists i.
Qed.

Lemma vector_entries_tokens path config l :
  Config.vector_entries path config = Ok l →
  ∃ filePath rest, get config "filePath" = Ok filePath
                   ∧ l = filePath :: rest ∧ Forall token_ok rest.
Proof.
  unfold Config.vector_entries. intros Hr.
  apply bind_Ok in Hr as (overrides & _ & Hr).
  apply bind_Ok in Hr as (filePath & Hfp & Hr).
  exists filePath. destruct (truthy overrides); simpl in Hr.
  - apply bind_Ok in Hr as (bd & _ & Hr).
    apply bind_Ok in Hr as (len & _ & Hr).
    destruct overrides; try done.
    apply bind_Ok in Hr as (indices & Hi & [= <-]).
    exists indices. split_and!; [done|done|].
    by eapply matching_overrides_tokens.
  - injection Hr as <-. by exists [].
Qed.

Lemma vector_of_hierarchy_tokens path configs v :
  Forall is_loaded configs →
  Config.vector_of_hierarchy path configs = Ok v → Forall token_ok v.
Proof.
  intros Hc. revert v. induction Hc as [|c configs Hc _ IH]; intros v; simpl.
  - by intros [= <-].
  - intros Hr. apply bind_Ok in Hr as (entries & He & Hr).
    apply bind_Ok in Hr as (more & Hm & [= <-]).
    apply vector_entries_tokens in He as (fp & rest & Hfp & -> & Hrest).
    apply Forall_app; split; [|by apply IH].
    apply Forall_cons; split; [|done].
    destruct Hc as (p & o & -> & _ & Ho & Hp & _). simpl in Hfp.
    rewrite Ho in Hfp. injection Hfp as <-. left. by exists p.
Qed.

Lemma vector_of_hierarchy_ok path b locals v :
  base_ok b → Forall is_loaded locals →
  Config.vector_of_hierarchy path (b :: locals) = Ok v → vector_ok v.
Proof.
  intros [Hb _] Hl. simpl. intros Hr.
  apply bind_Ok in Hr as (entries & He & Hr).
  apply bind_Ok in Hr as (more & Hm & [= <-]).
  apply vector_entries_tokens in He as (fp & rest & Hfp & -> & Hrest).
  rewrite Hb in Hfp. injection Hfp as <-.
  exists (rest ++ more). split; [done|].
  apply Forall_app; split; [done|]. by eapply vector_of_hierarchy_tokens.
Qed.

Lemma getConfigVector_ok self cache filePath v self' cache' :
  resolver_ok (self, cache) →
  Config.getConfigVector self cache filePath = Ok (v, self', cache') →
  resolver_ok (self', cache') ∧ vector_ok v.
Proof.
  intros (Hself & Hs & Hh & Hmv & Hmc & Hbase) Hcall. simpl in *.
  pose proof (getConfigVector_merged _ _ _ _ _ _ Hcall) as [Hm1 Hm2].
  unfold Config.getConfigVector in Hcall.
  apply bind_Ok in Hcall as ([[configs self1] cache1] & Hr & Hk).
  apply bind_Ok in Hk as (vector & Hvec & [= <- <- <-]).
  eapply getConfigHierarchy_ok in Hr
    as (Hself1 & Hs1 & Hh1 & b & locals & -> & Hb & Hl); [|done..].
  split; [|by eapply vector_of_hierarchy_ok].
  split_and!; simpl; [done|done|done|by rewrite Hm2|by rewrite Hm1|].
  unfold getMergedVectorConfig in *. by rewrite Hm2.
Qed.

End Invariant.
(** ** getConfig keeps the invariant and returns clean configs *)

Section CleanConfig.
Context `{GlobMatcher} `{EnvironmentRegistry} `{FileSystem} `{!FileSystemContract}.

Lemma merge_clean target src combine isRule d :
  clean target → clean_block src →
  merge target src combine isRule = Ok d → clean d.
Proof.
  intros [Hc1 Hc2] [Hb1 Hb2] Hm.
  split; apply not_true_iff_false; intros Hk;
    destruct (merge_keys _ _ _ _ _ _ Hm Hk); congruence.
Qed.

(** [not_among Hk] refutes a membership [Hk] of a string in a list of other
    strings; [among] proves a membership in a list given in full. *)
Local Ltac not_among Hk :=
  repeat (apply elem_of_cons in Hk as [Hk|Hk]; [discriminate Hk|]);
  by apply elem_of_nil in Hk.
Local Ltac among := repeat constructor.

(** An array has only indices for keys, so a clean array or object brings
    neither key along when it is merged into something. *)
Lemma clean_composite_block c :
  ((∃ l, c = VArr l) ∨ (∃ o, c = VObj o)) → clean c → clean_block c.
Proof.
  intros [[l ->]|[o ->]] [Hc1 Hc2].
  - split; intros Hk; unfold own_key, obj_keys in Hk; simpl in Hk;
      apply list_elem_of_fmap in Hk as ([k e] & Heq & Hin);
      apply elem_of_lookup_imap in Hin as (i & x & [= -> ->] & _); simpl in *;
      by destruct (string_of_nat_not_bookkeeping i).
  - split; intros Hk; unfold own_key in Hk; simpl in Hk;
      apply obj_get_is_Some, has_key_obj in Hk; congruence.
Qed.

Lemma foldl_invariant {A B} (P : B → Prop) (f : B → A → B) l b :
  (∀ b a, P b → P (f b a)) → P b → P (foldl f b l).
Proof. intros Hf. revert b. induction l; simpl; eauto. Qed.

Lemma createEnvironmentConfig_keys env k :
  is_Some (obj_get k (createEnvironmentConfig env)) →
  k ∈ ["globals"; "env"; "rules"; "parserOptions"].
Proof.
  set (P := λ o : obj, is_Some (obj_get k o) →
                       k ∈ ["globals"; "env"; "rules"; "parserOptions"]).
  assert (P createEmptyConfig) as Hempty.
  { intros Hk%obj_get_is_Some. exact Hk. }
  assert (∀ o k' x, k' ∈ ["globals"; "env"; "rules"; "parserOptions"] →
                    P o → P (obj_set k' x o)) as Hset.
  { intros o k' x Hk' Ho. unfold P. rewrite obj_get_set_is_Some.
    by intros [->|?]; [|apply Ho]. }
  change (P (createEnvironmentConfig env)). unfold createEnvironmentConfig.
  destruct (truthy env); [|done].
  apply foldl_invariant.
  - intros o name Ho. repeat case_match; try done;
      repeat (apply Hset; [among|]); done.
  - apply Hset; [among|done].
Qed.

Lemma createEnvironmentConfig_clean env : clean (VObj (createEnvironmentConfig env)).
Proof.
  split; apply not_true_iff_false; intros Hk%has_key_obj;
    apply createEnvironmentConfig_keys in Hk; not_among Hk.
Qed.

Lemma applyEnvironments_clean config d :
  ((∃ l, config = VArr l) ∨ (∃ o, config = VObj o)) → clean config →
  applyEnvironments config = Ok d → clean d.
Proof.
  intros Hcomp Hc. unfold applyEnvironments. intros Hr.
  apply bind_Ok in Hr as (env & _ & Hr).
  destruct (_ && _); [|by injection Hr as <-].
  eapply merge_clean; [apply createEnvironmentConfig_clean| |exact Hr].
  by apply clean_composite_block.
Qed.

(** From the filesystem merge to the config [getConfig] returns. *)
Lemma finish_clean (self : Config.t) c0 c1 parser' c2 env c3 :
  clean_block (Config.cliConfig self) → clean c0 →
  merge c0 (Config.cliConfig self) false false = Ok c1 →
  (if truthy (Config.parser self) || negb (truthy parser')
   then merge c1 (VObj [("parser", Config.parser self)]) false false
   else Ok c1) = Ok c2 →
  (if truthy env then applyEnvironments c2 else Ok c2) = Ok c3 →
  clean c3.
Proof.
  intros Hcli Hc0 Hm1 Hm2 Hm3.
  assert (clean c1) as Hc1 by (by eapply merge_clean).
  assert (clean c2 ∧ ((∃ l, c2 = VArr l) ∨ (∃ o, c2 = VObj o))) as [Hc2 Hcomp].
  { destruct (_ || _).
    - split; [|by eapply merge_composite].
      eapply merge_clean; [exact Hc1| |exact Hm2].
      split; intros Hk; unfold own_key in Hk; simpl in Hk; not_among Hk.
    - injection Hm2 as <-. split; [done|by eapply merge_composite]. }
  destruct (truthy env); [by eapply applyEnvironments_clean|].
  by injection Hm3 as <-.
Qed.

Lemma table_ok_insert table key e :
  table_ok table → (base_key key = false → clean e) →
  table_ok (<[key := e]> table).
Proof.
  intros Ht He key' e'. destruct (decide (key = key')) as [->|Hne].
  - rewrite lookup_insert_eq. by intros [= <-].
  - rewrite lookup_insert_ne by done. apply Ht.
Qed.

Lemma getConfigForVector_ok self cache v c cache' :
  resolver_ok (self, cache) → vector_ok v →
  Config.getConfigForVector self cache v = Ok (c, cache') →
  resolver_ok (self, cache') ∧ (base_key (hash v) = false → clean c).
Proof.
  intros Hok Hv. pose proof Hok as (Hself & Hs & Hh & Hmv & Hmc & Hbase).
  simpl in *. unfold Config.getConfigForVector, getMergedConfig.
  destruct (truthy (default VUndef (mergedCache cache !! hash v))) eqn:Hhit.
  - intros [= <- <-]. split; [done|].
    destruct (mergedCache cache !! hash v) as [e|] eqn:He; [|done].
    intros Hkey. by eapply Hmc.
  - intros Hr.
    apply bind_Ok in Hr as ([c0 cache0] & Hf & Hr).
    apply bind_Ok in Hr as (c1 & Hm1 & Hr).
    apply bind_Ok in Hr as (parser' & _ & Hr).
    apply bind_Ok in Hr as (c2 & Hm2 & Hr).
    apply bind_Ok in Hr as (env & _ & Hr).
    apply bind_Ok in Hr as (c3 & Hm3 & [= <- <-]).
    assert (base_key (hash v) = false → clean c0) as Hc0.
    { intros Hkey. eapply getConfigFromVector_clean; [done..| |exact Hf].
      by apply vector_ok_base_key. }
    assert (base_key (hash v) = false → clean c3) as Hc3.
    { intros Hkey. eapply finish_clean; [apply Hself|by apply Hc0|done..]. }
    split; [|done].
    pose proof (getConfigFromVector_frame _ _ _ _ Hf) as (Hfp & Hlh & Hmcs & _).
    split_and!; simpl; [done|by rewrite Hfp|by rewrite Hlh| | |].
    + apply getConfigFromVector_cache in Hf
        as [(-> & _)|(_ & -> & _)]; [done|].
      simpl. by apply table_ok_insert.
    + rewrite Hmcs. by apply table_ok_insert.
    + apply getConfigFromVector_cache in Hf
        as [(-> & _)|(_ & -> & Ht)]; [done|].
      unfold getMergedVectorConfig in *. simpl.
      destruct (decide (hash v = hash [VStr ""])) as [->|Hne].
      * by rewrite lookup_insert_eq.
      * by rewrite lookup_insert_ne.
Qed.

Lemma resolves_ok s s' : resolver_ok s → resolves s s' → resolver_ok s'.
Proof.
  intros Hok Hstep.
  inversion Hstep as [self cache f c self' cache' Hcall]; subst.
  apply getConfig_inv in Hcall as (v & cache1 & Hv & Hc).
  eapply getConfigVector_ok in Hv as [Hok1 Hvok]; [|done].
  by eapply getConfigForVector_ok in Hc as [? _].
Qed.

Lemma run_ok s s' : resolver_ok s → rtc resolves s s' → resolver_ok s'.
Proof. intros Hok Hrun. induction Hrun; eauto using resolves_ok. Qed.

End CleanConfig.
(** ** The constructor establishes the invariant *)

Section Constructor.
Context `{GlobMatcher} `{EnvironmentRegistry} `{FileSystem} `{!FileSystemContract}.

Local Ltac not_among Hk :=
  repeat (apply elem_of_cons in Hk as [Hk|Hk]; [discriminate Hk|]);
  by apply elem_of_nil in Hk.

Lemma merge_into_empty_overrides src d :
  base_source src →
  merge (VObj []) src false false = Ok d →
  ∃ o, d = VObj o ∧ overrides_ok (default VUndef (obj_get "overrides" o)).
Proof.
  intros (so & -> & Hnd & Hov) Hm.
  rewrite merge_object_unfold in Hm by done.
  apply bind_Ok in Hm as (dst & Hl & [= <-]). exists dst. split; [done|].
  simpl in Hov. destruct (obj_get "overrides" so) as [sv|] eqn:Hsv.
  - assert (("overrides", sv, λ t c r, merge t sv c r) ∈ src_entries so) as Hin.
    { apply (list_elem_of_fmap_2
               (λ kv : string * value, (kv.1, kv.2, λ t c r, merge t kv.2 c r))
               so ("overrides", sv)).
      by apply obj_get_elem_of. }
    eapply object_loop_lookup in Hl as (x & Hx & ->);
      [|by rewrite src_entries_keys|exact Hin].
    unfold object_value in Hx. simpl in Hx, Hov.
    destruct Hov as [->|(blocks & -> & Hall)]; simpl in Hx;
      injection Hx as <-; simpl.
    + right. by exists [].
    + right. by exists blocks.
  - rewrite (object_loop_other _ _ _ _ _ _ "overrides" Hl).
    + by left.
    + rewrite src_entries_keys, <- obj_get_is_Some, Hsv. by intros [??].
Qed.

Lemma tagged_base_ok o cwd :
  overrides_ok (default VUndef (obj_get "overrides" o)) →
  base_ok (Config.set_prop (Config.set_prop (VObj o) "filePath" (VStr ""))
                           "baseDirectory" (VStr cwd)).
Proof.
  intros Hov. split; simpl.
  - by rewrite obj_get_set_ne, obj_get_set_eq.
  - by rewrite !obj_get_set_ne.
Qed.

Lemma constructor_ok o self cache :
  (truthy (Config.opt_baseConfig o) = true →
   base_source (ConfigFile_loadObject (Config.opt_baseConfig o))) →
  Config.constructor o = Ok (self, cache) → resolver_ok (self, cache).
Proof.
  unfold Config.constructor. intros Hobj Hr.
  apply bind_Ok in Hr as (b0 & Hb0 & Hr).
  assert (∃ bo, b0 = VObj bo
                ∧ overrides_ok (default VUndef (obj_get "overrides" bo)))
    as (bo & -> & Hov).
  { destruct (truthy (Config.opt_baseConfig o)).
    - eapply merge_into_empty_overrides; [by apply Hobj|exact Hb0].
    - injection Hb0 as <-. eexists. split; [done|]. by left. }
  pose proof (tagged_base_ok bo (Config.cwd o) Hov) as Hbase.
  set (base := Config.set_prop (Config.set_prop (VObj bo) "filePath" (VStr ""))
                               "baseDirectory" (VStr (Config.cwd o))) in *.
  set (cache0 := setMergedVectorKey (setConfig ConfigCache.init "" base) "" base)
    in *.
  assert (sources_ok (filePathCache cache0)) as Hs0.
  { intros p src. simpl. destruct (decide ("" = p)) as [<-|Hne].
    - rewrite lookup_insert_eq. intros [= <-]. split; [apply Hbase|done].
    - by rewrite lookup_insert_ne. }
  assert (∃ spec cache1,
            (match Config.opt_configFile o with
             | Some useConfig =>
                 if String.eqb useConfig "" then (VUndef, cache0)
                 else Config.loadCached cache0
                        (resolveConfigFile (Config.cwd o) useConfig)
             | None => (VUndef, cache0)
             end) = (spec, cache1)
            ∧ sources_ok (filePathCache cache1)
            ∧ localHierarchyCache cache1 = localHierarchyCache cache0
            ∧ same_merged cache0 cache1
            ∧ (truthy spec = true → is_loaded spec))
    as (spec & cache1 & Hspec & Hs1 & Hh1 & [Hm1 Hm2] & Hl).
  { destruct (Config.opt_configFile o) as [useConfig|];
      [|by eexists _, _].
    destruct (String.eqb useConfig ""); [by eexists _, _|].
    destruct (loadCached_ok cache0 (resolveConfigFile (Config.cwd o) useConfig)
                Hs0 (resolved_path _ _)) as (? & ? & ?).
    pose proof (loadCached_merged cache0
                  (resolveConfigFile (Config.cwd o) useConfig)).
    destruct (Config.loadCached cache0 _); by eexists _, _. }
  fold base in Hr. fold cache0 in Hr. rewrite Hspec in Hr.
  injection Hr as <- <-.
  split_and!; simpl.
  - split_and!; simpl; [|done|done|done].
    split; intros Hk; unfold own_key in Hk; simpl in Hk;
      repeat case_match; simpl in Hk; not_among Hk.
  - done.
  - rewrite Hh1. simpl. by intros d l.
  - rewrite Hm2. simpl. intros key e.
    destruct (decide ("" = key)) as [<-|Hne].
    + by rewrite lookup_insert_eq.
    + by rewrite lookup_insert_ne.
  - rewrite Hm1. simpl. by intros key e.
  - unfold getMergedVectorConfig. rewrite Hm2. simpl.
    change (hash [VStr ""]) with "". by rewrite lookup_insert_eq.
Qed.


(** C3, as the code has it.  In a run that starts with the constructor and
    in which every call of [getConfig] so far has returned, whenever the
    vector of a file names at least one config file besides the base config,
    the config [getConfig] returns has no [filePath] and no [baseDirectory]
    key.  (A call that throws in the middle of the merging loop is not a
    step of [resolves]: in the source it leaves the half-merged config, which
    may still carry both keys, under the key of the whole vector.) *)
Theorem merged_config_has_no_bookkeeping (o : Config.options)
    self0 cache0 self cache file v c self' cache1 cache' :
  (truthy (Config.opt_baseConfig o) = true →
   base_source (ConfigFile_loadObject (Config.opt_baseConfig o))) →
  Config.constructor o = Ok (self0, cache0) →
  rtc resolves (self0, cache0) (self, cache) →
  Config.getConfigVector self cache file = Ok (v, self', cache1) →
  Config.getConfig self cache file = Ok (c, self', cache') →
  (∃ p, p ≠ "" ∧ VStr p ∈ v) →
  has_key "filePath" c = false ∧ has_key "baseDirectory" c = false.
Proof.
  intros Hobj Hnew Hrun Hv Hc Hfile.
  apply constructor_ok in Hnew; [|done].
  eapply run_ok in Hrun; [|done].
  apply getConfig_inv in Hc as (v' & cache1' & Hv' & Hc).
  rewrite Hv in Hv'. injection Hv' as <- <-.
  eapply getConfigVector_ok in Hv as [Hok Hvok]; [|done].
  eapply getConfigForVector_ok in Hc as [_ Hclean]; [|done..].
  apply Hclean. by apply vector_ok_base_key.
Qed.

End Constructor.
(** *** The sample project meets the contract *)

Lemma append_nonempty (a b : string) : b ≠ "" → a +:+ b ≠ "".
Proof.
  intros Hb. destruct a; [exact Hb|]. intros Heq. discriminate Heq.
Qed.

Lemma sample_filename_nonempty directory f :
  Sample.sample_filename directory = Some f → f ≠ "".
Proof.
  unfold Sample.sample_filename. case_match; [|done].
  intros [= <-]. by apply append_nonempty.
Qed.

Global Instance sample_contract : @FileSystemContract Sample.files.
Proof.
  split.
  - intros p. simpl. unfold Sample.sample_load.
    destruct (String.eqb_spec p "/x/.eslintrc") as [->|_].
    { intros _. eexists. split_and!; [done| |done|done|].
      - apply (bool_decide_unpack _). by vm_compute.
      - right. eexists. split; [done|]. apply Forall_singleton.
        split; intros Hk; unfold own_key in Hk; simpl in Hk;
          repeat (apply elem_of_cons in Hk as [Hk|Hk]; [discriminate Hk|]);
          by apply elem_of_nil in Hk. }
    destruct (String.eqb_spec p "/x/a/.eslintrc") as [->|_]; [|done].
    intros _. eexists. split_and!; [done| |done|done|by left].
    apply (bool_decide_unpack _). by vm_compute.
  - intros cwd directory f. simpl. intros Hf.
    apply list_elem_of_omap in Hf as (d & _ & Hf).
    by eapply sample_filename_nonempty.
  - intros directory f. simpl. apply sample_filename_nonempty.
  - intros cwd name. simpl. apply append_nonempty. intros Heq. discriminate Heq.
Qed.

(** In the sample project the config of [/x/src/a.ts], whose vector names
    [/x/.eslintrc], has neither key. *)
Lemma merged_config_has_no_bookkeeping_witness :
  ∃ self cache v self' cache1 c cache',
    Config.constructor Sample.sample_options = Ok (self, cache)
    ∧ Config.getConfigVector self cache (Some "/x/src/a.ts")
      = Ok (v, self', cache1)
    ∧ Config.getConfig self cache (Some "/x/src/a.ts") = Ok (c, self', cache')
    ∧ has_key "filePath" c = false ∧ has_key "baseDirectory" c = false.
Proof.
  lazymatch evaluated (Config.constructor Sample.sample_options) with
  | Ok (?self, ?cache) =>
      exists self, cache;
      lazymatch evaluated
          (Config.getConfigVector self cache (Some "/x/src/a.ts")) with
      | Ok (?v, ?self', ?cache1) =>
          exists v, self', cache1;
          lazymatch evaluated
              (Config.getConfig self cache (Some "/x/src/a.ts")) with
          | Ok (?c, _, ?cache') => exists c, cache'
          end
      end
  end.
  assert (∀ A B C D : Prop, A → B → C → (A → B → C → D) → A ∧ B ∧ C ∧ D)
    as Hand by tauto.
  apply Hand; [by_evaluation..|].
  intros Hnew Hvector Hcall.
  refine (merged_config_has_no_bookkeeping Sample.sample_options
            _ _ _ _ (Some "/x/src/a.ts") _ _ _ _ _
            _ Hnew (rtc_refl _ _) Hvector Hcall _).
  - done.
  - exists "/x/.eslintrc". split; [done|]. do 2 constructor.
Defined.

(** C3 as stated fails twice.  The override blocks of the sources stay in
    the merged config under [overrides]; and when only the base config
    applies (here: config files switched off), the base config's [filePath]
    and [baseDirectory] stay as well, the empty path being falsy. *)
Lemma merged_config_keeps_keys :
  (∃ self cache c self' cache',
     Config.constructor Sample.sample_options = Ok (self, cache)
     ∧ Config.getConfig self cache (Some "/x/src/a.ts") = Ok (c, self', cache')
     ∧ has_key "overrides" c = true)
  ∧ (∃ self cache v self1 cache1 c self' cache',
       Config.constructor Sample.no_eslintrc_options = Ok (self, cache)
       ∧ Config.getConfigVector self cache (Some "/x/src/a.ts")
         = Ok (v, self1, cache1)
       ∧ v = [VStr ""]
       ∧ Config.getConfig self cache (Some "/x/src/a.ts") = Ok (c, self', cache')
       ∧ has_key "filePath" c = true ∧ has_key "baseDirectory" c = true).
Proof.
  split.
  - lazymatch evaluated (Config.constructor Sample.sample_options) with
    | Ok (?self, ?cache) =>
        exists self, cache;
        lazymatch evaluated
            (Config.getConfig self cache (Some "/x/src/a.ts")) with
        | Ok (?c, ?self', ?cache') => exists c, self', cache'
        end
    end.
    split_and!; by_evaluation.
  - lazymatch evaluated (Config.constructor Sample.no_eslintrc_options) with
    | Ok (?self, ?cache) =>
        exists self, cache;
        lazymatch evaluated
            (Config.getConfigVector self cache (Some "/x/src/a.ts")) with
        | Ok (?v, ?self1, ?cache1) =>
            exists v, self1, cache1;
            lazymatch evaluated
                (Config.getConfig self cache (Some "/x/src/a.ts")) with
            | Ok (?c, ?self', ?cache') => exists c, self', cache'
            end
        end
    end.
    split_and!; by_evaluation.
Qed.
(** ** The merge, key by key *)

Lemma merge_array_unfold target l combine isRule :
  merge target (VArr l) combine isRule
  = dst ← array_loop (or_else target (VArr [])) combine isRule
            (src_elems combine isRule l) 0
            (if isRule && (1 <? length l)%nat then l
             else concat_into_empty (or_else target (VArr [])));
    Ok (VArr dst).
Proof.
  assert (∀ l',
    (fix elems (l0 : list value) :=
       match l0 with
       | [] => []
       | e :: l'0 => (e, λ t, merge t e combine isRule) :: elems l'0
       end) l' = src_elems combine isRule l') as Hel.
  { induction l' as [|e l' IH]; simpl; [done|by rewrite IH]. }
  destruct target; simpl; by rewrite Hel.
Qed.

Lemma merge_lookup (t s : obj) combine isRule d key sv :
  NoDup (obj_keys s) →
  merge (VObj t) (VObj s) combine isRule = Ok d →
  obj_get key s = Some sv →
  ∃ x, object_value (VObj t) combine isRule key sv (λ t c r, merge t sv c r) = Ok x
       ∧ prop d key = x.
Proof.
  intros Hnd Hm Hsv. rewrite merge_object_unfold in Hm by done.
  apply bind_Ok in Hm as (dst & Hl & [= <-]).
  assert ((key, sv, λ t c r, merge t sv c r) ∈ src_entries s) as Hin.
  { apply (list_elem_of_fmap_2
             (λ kv : string * value, (kv.1, kv.2, λ t c r, merge t kv.2 c r))
             s (key, sv)).
    by apply obj_get_elem_of. }
  eapply object_loop_lookup in Hl as (x & Hx & Hd);
    [|by rewrite src_entries_keys|exact Hin].
  exists x. split; [done|]. simpl. by rewrite Hd.
Qed.

Lemma merge_lookup_other (t s : obj) combine isRule d key :
  merge (VObj t) (VObj s) combine isRule = Ok d →
  obj_get key s = None →
  prop d key = prop (VObj t) key.
Proof.
  intros Hm Hsv. rewrite merge_object_unfold in Hm by done.
  apply bind_Ok in Hm as (dst & Hl & [= <-]). simpl.
  rewrite (object_loop_other _ _ _ _ _ _ key Hl); [done|].
  rewrite src_entries_keys, <- obj_get_is_Some, Hsv. by intros [??].
Qed.

Lemma strict_eq_refl e :
  typeof e ≠ "object" → typeof e ≠ "undefined" → strict_eq e e = true.
Proof.
  destruct e as [| |[]|n|s|s| |]; simpl; try done; intros _ _.
  - apply Z.eqb_refl.
  - apply String.eqb_refl.
  - apply String.eqb_refl.
Qed.

Lemma arr_set_same i e (l : list value) : l !! i = Some e → arr_set i e l = l.
Proof.
  intros Hi. unfold arr_set.
  pose proof (lookup_lt_Some _ _ _ Hi) as Hlt.
  destruct (Nat.ltb_spec i (length l)); [|lia].
  by apply list_insert_id.
Qed.

(** A rule entry with options replaces the slots one by one with what is
    already there. *)
Lemma array_loop_replaced target combine rest i (l : list value) c r :
  drop i l = rest →
  array_loop target combine true (src_elems c r rest) i l = Ok l.
Proof.
  revert i. induction rest as [|e rest IH]; intros i Hd; [done|].
  assert (l !! i = Some e) as Hi.
  { rewrite <- (Nat.add_0_r i), <- lookup_drop, Hd. done. }
  assert (drop (S i) l = rest) as Hd'.
  { replace (S i) with (i + 1)%nat by lia. by rewrite <- drop_drop, Hd. }
  simpl. unfold array_step, arr_get. rewrite Hi.
  assert (∀ m : result (list value), m = Ok l →
            (dst' ← m; array_loop target combine true (src_elems c r rest) (S i) dst')
            = Ok l) as Hk.
  { intros m ->. simpl. by apply IH. }
  apply Hk.
  destruct (String.eqb_spec (typeof e) "undefined") as [Hu|Hu];
    [by rewrite arr_set_same|].
  destruct (String.eqb_spec (typeof e) "object") as [Ho|Ho];
    [by rewrite arr_set_same|].
  destruct combine; simpl; [|by rewrite arr_set_same].
  assert (existsb (strict_eq e) l = true) as ->; [|done].
  apply existsb_exists. exists e. split.
  - apply list_elem_of_In. by eapply list_elem_of_lookup_2.
  - by apply strict_eq_refl.
Qed.

Lemma merge_rule_with_options target l combine :
  (1 < length l)%nat → merge target (VArr l) combine true = Ok (VArr l).
Proof.
  intros Hl. rewrite merge_array_unfold. simpl.
  destruct (Nat.ltb_spec 1 (length l)); [|lia].
  by rewrite (array_loop_replaced _ _ l 0 l).
Qed.

Lemma merge_wrapped_severity old opts sev isRule :
  typeof sev ≠ "object" →
  merge_wrapped (VArr (old :: opts)) sev false isRule = Ok (VArr (sev :: opts)).
Proof.
  intros Hs. unfold merge_wrapped. simpl. unfold array_step.
  change (arr_set 0 sev (old :: opts)) with (sev :: opts).
  destruct (String.eqb (typeof (arr_get 0 (old :: opts))) "undefined"); [done|].
  destruct (String.eqb_spec (typeof sev) "object"); done.
Qed.

Lemma merge_severity_keeps_options old opts sev isRule :
  typeof sev ≠ "object" →
  merge (VArr (old :: opts)) sev false isRule = Ok (VArr (sev :: opts)).
Proof.
  intros Hs. destruct sev; try done; by apply merge_wrapped_severity.
Qed.

Lemma merge_single_keeps_options old opts sev :
  typeof sev ≠ "object" →
  merge (VArr (old :: opts)) (VArr [sev]) false true = Ok (VArr (sev :: opts)).
Proof.
  intros Hs. rewrite merge_array_unfold. simpl. unfold array_step.
  change (arr_set 0 sev (old :: opts)) with (sev :: opts).
  destruct (String.eqb (typeof (arr_get 0 (old :: opts))) "undefined"); [done|].
  destruct (String.eqb_spec (typeof sev) "object"); done.
Qed.

(** The three ways the object branch treats a key of [src]. *)
Lemma object_value_overrides target combine isRule sv recur tk :
  get target "overrides" = Ok tk →
  object_value target combine isRule "overrides" sv recur
  = concat_values (or_else tk (VArr [])) (or_else sv (VArr [])).
Proof. intros Hg. unfold object_value. by rewrite Hg. Qed.

Lemma object_value_array target combine isRule key sv recur tk :
  get target key = Ok tk → key ≠ "overrides" →
  isArray sv || isArray tk = true →
  object_value target combine isRule key sv recur
  = recur tk (String.eqb key "plugins") isRule.
Proof.
  intros Hg Hk Ha. unfold object_value. rewrite Hg. simpl.
  destruct (String.eqb_spec key "overrides"); [done|]. by rewrite Ha.
Qed.

Lemma object_value_scalar target combine isRule key sv recur tk :
  get target key = Ok tk → key ≠ "overrides" →
  isArray sv = false → isArray tk = false →
  typeof sv ≠ "object" ∨ truthy sv = false
  ∨ key = "exported" ∨ key = "astGlobals" →
  object_value target combine isRule key sv recur = Ok sv.
Proof.
  intros Hg Hk Hs Ht Hc. unfold object_value. rewrite Hg. simpl.
  destruct (String.eqb_spec key "overrides"); [done|]. rewrite Hs, Ht. simpl.
  destruct Hc as [Hc|[Hc|[->| ->]]].
  - by destruct (String.eqb_spec (typeof sv) "object").
  - rewrite Hc. simpl. by rewrite orb_true_r.
  - simpl. by rewrite orb_false_r, orb_true_r.
  - simpl. by rewrite orb_true_r.
Qed.

Lemma object_value_nested target combine isRule key (so : obj) recur tk :
  get target key = Ok tk → key ≠ "overrides" → isArray tk = false →
  key ≠ "exported" → key ≠ "astGlobals" →
  object_value target combine isRule key (VObj so) recur
  = recur (or_else tk (VObj [])) combine (String.eqb key "rules").
Proof.
  intros Hg Hk Ht He Ha. unfold object_value. rewrite Hg. simpl.
  destruct (String.eqb_spec key "overrides"); [done|]. rewrite Ht. simpl.
  destruct (String.eqb_spec key "exported"); [done|].
  by destruct (String.eqb_spec key "astGlobals").
Qed.

(** X1.  How one rule entry of [src] lands in the merged [rules], for a rule
    id other than [__proto__] and [overrides].  An array entry with options
    (more than one element) replaces whatever the target had.  A bare
    severity, or a one-element array holding one, merged over an array entry
    of the target replaces the severity and keeps the target's options,
    unless the rule id is [plugins].  A bare severity over anything that is
    not an array is taken as it is. *)
Theorem merge_rule_entry (t s rt rs : obj) (d : value) (r : string) (sv : value) :
  NoDup (obj_keys s) → NoDup (obj_keys rs) →
  prop (VObj t) "rules" = VObj rt ∨ (prop (VObj t) "rules" = VUndef ∧ rt = []) →
  obj_get "rules" s = Some (VObj rs) →
  obj_get r rs = Some sv →
  r ≠ "__proto__" → r ≠ "overrides" →
  merge (VObj t) (VObj s) false false = Ok d →
  (∀ l, sv = VArr l → (1 < length l)%nat → prop (prop d "rules") r = VArr l)
  ∧ (r ≠ "plugins" → typeof sv ≠ "object" →
     ∀ old opts, prop (VObj rt) r = VArr (old :: opts) →
       prop (prop d "rules") r = VArr (sv :: opts))
  ∧ (r ≠ "plugins" →
     ∀ sev old opts, sv = VArr [sev] → typeof sev ≠ "object" →
       prop (VObj rt) r = VArr (old :: opts) →
       prop (prop d "rules") r = VArr (sev :: opts))
  ∧ (typeof sv ≠ "object" → isArray (prop (VObj rt) r) = false →
     prop (prop d "rules") r = sv).
Proof.
  intros Hnd Hndr Hrt Hrs Hsv _ Hr Hm.
  destruct (merge_lookup _ _ _ _ _ "rules" _ Hnd Hm Hrs) as (x & Hx & Hdx).
  rewrite Hdx.
  assert (merge (VObj rt) (VObj rs) false true = Ok x) as Hx'.
  { rewrite <- Hx.
    rewrite (object_value_nested _ _ _ _ _ _ (prop (VObj t) "rules"));
      [|done|done|by destruct Hrt as [->|[-> _]]|done|done].
    by destruct Hrt as [->|[-> ->]]. }
  clear Hx.
  destruct (merge_lookup _ _ _ _ _ r _ Hndr Hx' Hsv) as (y & Hy & Hdy).
  rewrite Hdy. clear Hdy.
  pose proof (eq_refl : get (VObj rt) r = Ok (prop (VObj rt) r)) as Hg.
  split_and!.
  - intros l -> Hl.
    rewrite (object_value_array _ _ _ _ _ _ _ Hg) in Hy by done.
    rewrite merge_rule_with_options in Hy by done. by injection Hy.
  - intros Hp Hty old opts Hold.
    rewrite (object_value_array _ _ _ _ _ _ _ Hg) in Hy;
      [|done|by rewrite Hold, orb_true_r].
    destruct (String.eqb_spec r "plugins"); [done|].
    rewrite Hold, merge_severity_keeps_options in Hy by done. by injection Hy.
  - intros Hp sev old opts -> Hty Hold.
    rewrite (object_value_array _ _ _ _ _ _ _ Hg) in Hy by done.
    destruct (String.eqb_spec r "plugins"); [done|].
    rewrite Hold, merge_single_keeps_options in Hy by done. by injection Hy.
  - intros Hty Hold.
    rewrite (object_value_scalar _ _ _ _ _ _ _ Hg) in Hy; try done.
    + by injection Hy.
    + by destruct sv.
    + by left.
Qed.

(** *** Plugins *)

Lemma existsb_strict_eq_str p (dst : list string) :
  existsb (strict_eq (VStr p)) (VStr <$> dst) = bool_decide (p ∈ dst).
Proof.
  induction dst as [|q dst IH]; [done|].
  rewrite fmap_cons. cbn [existsb strict_eq].
  rewrite IH. destruct (String.eqb_spec p q) as [->|Hne]; simpl.
  - symmetry. apply bool_decide_eq_true. by left.
  - apply bool_decide_ext. rewrite elem_of_cons.
    split; [by right|]. by intros [?|?].
Qed.

Lemma array_step_plugin target i p (dst : list string) recur :
  (i ≤ length dst)%nat →
  array_step target true false i (VStr p) recur (VStr <$> dst)
  = Ok (VStr <$> (if (i <? length dst)%nat && bool_decide (p ∈ dst) then dst
                  else dst ++ [p])).
Proof.
  intros Hi. unfold array_step, arr_get. rewrite list_lookup_fmap.
  destruct (dst !! i) as [q|] eqn:Hq; simpl.
  - apply lookup_lt_Some in Hq.
    destruct (Nat.ltb_spec i (length dst)); [|lia]. simpl.
    rewrite existsb_strict_eq_str.
    destruct (bool_decide (p ∈ dst)); simpl; [done|].
    by rewrite fmap_app.
  - apply lookup_ge_None in Hq.
    destruct (Nat.ltb_spec i (length dst)); [lia|]. simpl.
    unfold arr_set. rewrite length_fmap.
    destruct (Nat.ltb_spec i (length dst)); [lia|].
    replace (i - length dst)%nat with 0%nat by lia. simpl.
    by rewrite fmap_app.
Qed.

Lemma array_loop_plugins target (sp : list string) i (dst : list string) :
  (i ≤ length dst)%nat →
  array_loop target true false (src_elems true false (VStr <$> sp)) i
             (VStr <$> dst)
  = Ok (VStr <$> combined i sp dst).
Proof.
  revert i dst. induction sp as [|p sp IH]; intros i dst Hi; [done|].
  simpl. rewrite array_step_plugin by done. simpl.
  apply IH.
  destruct (Nat.ltb_spec i (length dst)); simpl.
  - destruct (bool_decide (p ∈ dst)); [lia|]. rewrite length_app. simpl. lia.
  - rewrite length_app. simpl. lia.
Qed.

Lemma combined_extends sp : ∀ i dst,
  ∃ extra, combined i sp dst = dst ++ extra
           ∧ (∀ p, p ∈ extra → p ∈ sp)
           ∧ (∀ p, p ∈ sp → p ∈ dst ++ extra).
Proof.
  induction sp as [|p sp IH]; intros i dst; simpl.
  - exists []. rewrite app_nil_r. split_and!; [done|done|].
    intros p Hp. by apply elem_of_nil in Hp.
  - destruct (IH (S i) (if (i <? length dst)%nat && bool_decide (p ∈ dst)
                        then dst else dst ++ [p]))
      as (extra & Heq & Hsub & Hall).
    destruct ((i <? length dst)%nat && bool_decide (p ∈ dst)) eqn:Hc.
    + exists extra. split_and!; [done| |].
      * intros q Hq. right. by apply Hsub.
      * intros q [->|Hq]%elem_of_cons; [|by apply Hall].
        apply elem_of_app. left.
        apply andb_true_iff in Hc as [_ Hc]. by apply bool_decide_eq_true in Hc.
    + exists (p :: extra). rewrite Heq, <- app_assoc. split_and!; [done| |].
      * intros q [->|Hq]%elem_of_cons; [by left|]. right. by apply Hsub.
      * intros q [->|Hq]%elem_of_cons.
        -- apply elem_of_app. right. by left.
        -- specialize (Hall q Hq). by rewrite <- app_assoc in Hall.
Qed.

Lemma combined_fresh sp : ∀ dst, combined (length dst) sp dst = dst ++ sp.
Proof.
  induction sp as [|p sp IH]; intros dst; simpl; [by rewrite app_nil_r|].
  rewrite Nat.ltb_irrefl. simpl.
  replace (S (length dst)) with (length (dst ++ [p]))
    by (rewrite length_app; simpl; lia).
  by rewrite IH, <- app_assoc.
Qed.

Lemma combined_NoDup sp : ∀ i dst seen,
  length seen = i → (i ≤ length dst)%nat →
  (∀ p, p ∈ seen → p ∈ dst) →
  NoDup dst → NoDup (seen ++ sp) →
  NoDup (combined i sp dst).
Proof.
  induction sp as [|p sp IH]; intros i dst seen Hlen Hi Hseen Hdst Hnd;
    simpl; [done|].
  assert (NoDup ((seen ++ [p]) ++ sp)) as Hnd' by by rewrite <- app_assoc.
  assert (length (seen ++ [p]) = S i) as Hlen'
    by (rewrite length_app; simpl; lia).
  destruct (Nat.ltb_spec i (length dst)) as [Hlt|Hge]; simpl.
  - destruct (bool_decide_reflect (p ∈ dst)) as [Hin|Hnin].
    + apply (IH _ _ (seen ++ [p])); try done.
      intros q [Hq|Hq]%elem_of_app; [by apply Hseen|].
      by apply list_elem_of_singleton in Hq as ->.
    + apply (IH _ _ (seen ++ [p])); try done.
      * rewrite length_app. simpl. lia.
      * intros q [Hq|Hq]%elem_of_app; apply elem_of_app; [left; by apply Hseen|].
        by right.
      * apply NoDup_app. split_and!; [done| |apply NoDup_singleton].
        intros q Hq ->%list_elem_of_singleton. done.
  - assert (p ∉ dst) as Hnin.
    { intros Hin.
      apply NoDup_app in Hnd as (Hs & Hdisj & _).
      assert (seen ⊆+ dst) as Hsub by by apply NoDup_submseteq.
      assert (dst ≡ₚ seen) as Hperm.
      { symmetry. apply submseteq_length_Permutation; [done|lia]. }
      rewrite Hperm in Hin. apply (Hdisj p Hin). by left. }
    apply (IH _ _ (seen ++ [p])); try done.
    + rewrite length_app. simpl. lia.
    + intros q [Hq|Hq]%elem_of_app; apply elem_of_app; [left; by apply Hseen|].
      by right.
    + apply NoDup_app. split_and!; [done| |apply NoDup_singleton].
      intros q Hq ->%list_elem_of_singleton. done.
Qed.

(** X2.  Merging two configs combines their lists of plugin names: the
    target's names come first and in their order, every name of the source
    is in the result, nothing else is, and two lists without repetitions
    combine to one without repetitions.  Repetitions inside the source are
    not always removed: over a target without plugins the source's list is
    taken as it is. *)
Theorem merge_plugins_combined (t s : obj) (tp sp : list string) (d : value) :
  NoDup (obj_keys s) →
  prop (VObj t) "plugins" = VArr (VStr <$> tp)
  ∨ (prop (VObj t) "plugins" = VUndef ∧ tp = []) →
  obj_get "plugins" s = Some (VArr (VStr <$> sp)) →
  merge (VObj t) (VObj s) false false = Ok d →
  ∃ extra,
    prop d "plugins" = VArr (VStr <$> (tp ++ extra))
    ∧ (∀ p, p ∈ extra → p ∈ sp)
    ∧ (∀ p, p ∈ sp → p ∈ tp ++ extra)
    ∧ (NoDup tp → NoDup sp → NoDup (tp ++ extra))
    ∧ (tp = [] → extra = sp).
Proof.
  intros Hnd Htp Hsp Hm.
  destruct (merge_lookup _ _ _ _ _ "plugins" _ Hnd Hm Hsp) as (x & Hx & ->).
  rewrite (object_value_array _ _ _ _ _ _ (prop (VObj t) "plugins")) in Hx
    by done.
  cbv beta in Hx. rewrite merge_array_unfold in Hx.
  assert (concat_into_empty (or_else (prop (VObj t) "plugins") (VArr []))
          = VStr <$> tp) as Hdst by by destruct Htp as [->|[-> ->]].
  change (String.eqb "plugins" "plugins") with true in Hx.
  change (false && (1 <? length (VStr <$> sp))%nat) with false in Hx.
  cbv iota in Hx. rewrite Hdst, array_loop_plugins in Hx by lia.
  injection Hx as <-.
  destruct (combined_extends sp 0 tp) as (extra & Heq & Hsub & Hall).
  exists extra. split_and!; [by rewrite Heq|done|done| |].
  - intros Ht Hs. rewrite <- Heq.
    apply (combined_NoDup sp 0 tp []); [done|lia| |done|done].
    intros p Hp. by apply elem_of_nil in Hp.
  - intros ->. pose proof (combined_fresh sp []) as Hf. simpl in Hf.
    rewrite Hf in Heq. by simpl in Heq.
Qed.

(** *** Keys that are not merged recursively *)

(** X3.  In the merge of two objects neither of which has an own key named
    [__proto__], a key of the source other than [overrides] whose value is
    not of type "object" (or is [null]), or that is named [exported] or
    [astGlobals], takes the source's value, unless an array is involved; a
    key the source does not have keeps the target's value. *)
Theorem merge_key_precedence (t s : obj) (combine isRule : bool) (d : value) :
  NoDup (obj_keys s) →
  obj_get "__proto__" t = None → obj_get "__proto__" s = None →
  merge (VObj t) (VObj s) combine isRule = Ok d →
  (∀ key sv, obj_get key s = Some sv → key ≠ "overrides" →
     isArray sv = false → isArray (prop (VObj t) key) = false →
     typeof sv ≠ "object" ∨ sv = VNull
     ∨ key = "exported" ∨ key = "astGlobals" →
     prop d key = sv)
  ∧ (∀ key, obj_get key s = None → prop d key = prop (VObj t) key).
Proof.
  intros Hnd _ _ Hm. split.
  - intros key sv Hsv Hk Hs Ht Hc.
    destruct (merge_lookup _ _ _ _ _ key _ Hnd Hm Hsv) as (x & Hx & ->).
    rewrite (object_value_scalar _ _ _ _ _ _ (prop (VObj t) key)) in Hx;
      try done.
    + by injection Hx.
    + destruct Hc as [?|[->|[?|?]]]; auto.
  - intros key Hnone. by eapply merge_lookup_other.
Qed.

(** X4.  The override blocks of the source are appended to those of the
    target, in order; over a target without blocks they are the result. *)
Theorem merge_overrides_appended (t s : obj) (combine isRule : bool)
    (d : value) (bs : list value) :
  NoDup (obj_keys s) →
  obj_get "overrides" s = Some (VArr bs) →
  merge (VObj t) (VObj s) combine isRule = Ok d →
  (∀ bt, prop (VObj t) "overrides" = VArr bt →
         prop d "overrides" = VArr (bt ++ bs))
  ∧ (truthy (prop (VObj t) "overrides") = false →
     prop d "overrides" = VArr bs).
Proof.
  intros Hnd Hs Hm.
  destruct (merge_lookup _ _ _ _ _ "overrides" _ Hnd Hm Hs) as (x & Hx & ->).
  rewrite (object_value_overrides _ _ _ _ _ (prop (VObj t) "overrides")) in Hx
    by done.
  split.
  - intros bt Hbt. rewrite Hbt in Hx. by injection Hx.
  - intros Hf. unfold or_else in Hx. rewrite Hf in Hx. by injection Hx.
Qed.

(** *** Merging into an empty object *)

Lemma obj_set_fresh k x (o : obj) : k ∉ obj_keys o → obj_set k x o = o ++ [(k, x)].
Proof.
  induction o as [|[k' v'] o IH]; simpl; [done|].
  intros Hk. apply not_elem_of_cons in Hk as [Hne Hk].
  destruct (String.eqb_spec k k'); [done|]. by rewrite IH.
Qed.

(** Over slots that are free the array branch appends. *)
Lemma array_loop_fresh target combine isRule c r rest : ∀ dst,
  array_loop target combine isRule (src_elems c r rest) (length dst) dst
  = Ok (dst ++ rest).
Proof.
  induction rest as [|e rest IH]; intros dst; simpl; [by rewrite app_nil_r|].
  unfold array_step, arr_get. rewrite lookup_ge_None_2 by lia. simpl.
  unfold arr_set. rewrite Nat.ltb_irrefl, Nat.sub_diag. simpl.
  replace (S (length dst)) with (length (dst ++ [e]))
    by (rewrite length_app; simpl; lia).
  by rewrite IH, <- app_assoc.
Qed.

Lemma merge_array_into_nothing l combine isRule :
  merge VUndef (VArr l) combine isRule = Ok (VArr l).
Proof.
  rewrite merge_array_unfold.
  change (or_else VUndef (VArr [])) with (VArr []).
  destruct (isRule && (1 <? length l)%nat) eqn:Hr.
  - apply andb_true_iff in Hr as [-> _].
    by rewrite (array_loop_replaced _ _ l 0 l).
  - change (concat_into_empty (VArr [])) with (@nil value).
    by rewrite (array_loop_fresh _ _ _ _ _ l []).
Qed.

Lemma object_loop_copies target combine isRule (o : obj) : ∀ dst,
  NoDup (obj_keys o) →
  (∀ k, k ∈ obj_keys o → k ∉ obj_keys dst) →
  Forall (λ kv, object_value target combine isRule kv.1 kv.2
                  (λ t c r, merge t kv.2 c r) = Ok kv.2) o →
  object_loop target combine isRule (src_entries o) dst = Ok (dst ++ o).
Proof.
  induction o as [|[k x] o IH]; intros dst Hnd Hfresh Hall;
    simpl; [by rewrite app_nil_r|].
  apply NoDup_cons in Hnd as [Hk Hnd].
  apply Forall_cons in Hall as [Hx Hall]. simpl in Hx.
  unfold object_step. rewrite Hx. simpl.
  rewrite obj_set_fresh by (apply Hfresh; by left).
  rewrite IH; [by rewrite <- app_assoc|done| |done].
  intros k' Hk'. unfold obj_keys. rewrite fmap_app.
  intros [Hin|Hin]%elem_of_app.
  - apply (Hfresh k'); [by right|done].
  - apply list_elem_of_singleton in Hin. simpl in Hin. by subst.
Qed.

Lemma copyable_fields (o : obj) :
  copyable (VObj o) = true →
  NoDup (obj_keys o)
  ∧ Forall (λ kv, if String.eqb kv.1 "overrides" then isArray kv.2 = true
                  else if String.eqb kv.1 "exported"
                          || String.eqb kv.1 "astGlobals" then True
                  else copyable kv.2 = true) o.
Proof.
  simpl. intros [Hnd Hf]%andb_true_iff.
  split; [by apply bool_decide_eq_true in Hnd|]. clear Hnd.
  induction o as [|[k x] o IH]; [done|].
  apply andb_true_iff in Hf as [[_ Hx]%andb_true_iff Hf].
  constructor; [|by apply IH].
  simpl. destruct (String.eqb k "overrides"); [done|].
  by destruct (String.eqb k "exported" || String.eqb k "astGlobals").
Qed.

Lemma merge_copies v :
  ∀ o, v = VObj o → copyable v = true →
  ∀ combine isRule, merge (VObj []) (VObj o) combine isRule = Ok (VObj o).
Proof.
  induction v as [| | | | | | |o' IH] using value_nested_ind; try done.
  intros o [= <-] Hc combine isRule.
  apply copyable_fields in Hc as [Hnd Hf].
  rewrite merge_object_unfold by done.
  rewrite object_loop_copies; [done|done| |].
  { intros k _ Hk. by apply elem_of_nil in Hk. }
  apply Forall_forall. intros [k x] Hin.
  pose proof (proj1 (Forall_forall _ _) Hf _ Hin) as Hx.
  pose proof (proj1 (Forall_forall _ _) IH _ Hin) as IHx.
  simpl in Hx, IHx |- *.
  pose proof (eq_refl : get (VObj []) k = Ok VUndef) as Hg.
  destruct (String.eqb_spec k "overrides") as [->|Hk].
  { by destruct x. }
  destruct (isArray x) eqn:Harr.
  { destruct x; try done.
    rewrite (object_value_array _ _ _ _ _ _ _ Hg) by done.
    apply merge_array_into_nothing. }
  destruct (String.eqb_spec k "exported") as [->|He].
  { apply (object_value_scalar _ _ _ _ _ _ _ Hg); auto. }
  destruct (String.eqb_spec k "astGlobals") as [->|Ha].
  { apply (object_value_scalar _ _ _ _ _ _ _ Hg); auto. }
  simpl in Hx.
  destruct x as [| | | | | | |xo];
    try (apply (object_value_scalar _ _ _ _ _ _ _ Hg); by auto).
  rewrite (object_value_nested _ _ _ _ _ _ _ Hg) by done.
  by apply IHx.
Qed.

(** X5.  Merging a well-formed object into the empty object gives the object
    back, key for key and in the same order, nested objects and arrays
    included.  Well-formed: at every level that is merged the keys are
    distinct, none is the name of a member inherited from [Object.prototype]
    (which the source would read from the empty target, or, for [__proto__],
    not store), and [overrides] holds an array. *)
Theorem merge_into_empty_copies (o : obj) (combine isRule : bool) :
  copyable (VObj o) = true →
  merge (VObj []) (VObj o) combine isRule = Ok (VObj o).
Proof. intros Hc. by apply (merge_copies (VObj o)). Qed.

(** *** Examples of merges *)

Local Ltac distinct := apply (bool_decide_unpack _); vm_compute; exact I.

(** Over [semi: [2, "always"]] the bare severity ["off"] keeps the option,
    and an entry with options replaces a bare severity. *)
Lemma merge_rule_entry_witness :
  ∃ d,
    merge (VObj [("rules", VObj [("semi", VArr [VNum 2; VStr "always"]);
                                 ("quotes", VNum 1)])])
          (VObj [("rules", VObj [("semi", VStr "off");
                                 ("quotes", VArr [VNum 2; VStr "double"])])])
          false false = Ok d
    ∧ prop (prop d "rules") "semi" = VArr [VStr "off"; VStr "always"]
    ∧ prop (prop d "rules") "quotes" = VArr [VNum 2; VStr "double"].
Proof.
  set (t := [("rules", VObj [("semi", VArr [VNum 2; VStr "always"]);
                             ("quotes", VNum 1)])]).
  set (rs := [("semi", VStr "off"); ("quotes", VArr [VNum 2; VStr "double"])]).
  lazymatch evaluated (merge (VObj t) (VObj [("rules", VObj rs)]) false false)
  with Ok ?d => exists d end.
  assert (NoDup (obj_keys [("rules", VObj rs)])) as Hs by distinct.
  assert (NoDup (obj_keys rs)) as Hrs by distinct.
  split; [by_evaluation|]. split.
  - refine (proj1 (proj2 (merge_rule_entry t [("rules", VObj rs)] _ rs _
                            "semi" (VStr "off") Hs Hrs (or_introl eq_refl)
                            eq_refl eq_refl _ _ _))
                  _ _ (VNum 2) [VStr "always"] eq_refl);
      [discriminate|discriminate|by_evaluation|discriminate|discriminate].
  - refine (proj1 (merge_rule_entry t [("rules", VObj rs)] _ rs _
                     "quotes" (VArr [VNum 2; VStr "double"]) Hs Hrs
                     (or_introl eq_refl) eq_refl eq_refl _ _ _)
                  [VNum 2; VStr "double"] eq_refl _);
      [discriminate|discriminate|by_evaluation|simpl; lia].
Defined.

(** A plugin both configs name is listed once. *)
Lemma merge_plugins_combined_witness :
  ∃ d extra,
    merge (VObj [("plugins", VArr [VStr "react"; VStr "import"])])
          (VObj [("plugins", VArr [VStr "import"; VStr "jest"])])
          false false = Ok d
    ∧ prop d "plugins" = VArr (VStr <$> (["react"; "import"] ++ extra))
    ∧ (∀ p, p ∈ extra → p ∈ ["import"; "jest"])
    ∧ (∀ p, p ∈ ["import"; "jest"] → p ∈ ["react"; "import"] ++ extra)
    ∧ NoDup (["react"; "import"] ++ extra).
Proof.
  set (t := [("plugins", VArr [VStr "react"; VStr "import"])]).
  set (s := [("plugins", VArr [VStr "import"; VStr "jest"])]).
  lazymatch evaluated (merge (VObj t) (VObj s) false false)
  with Ok ?d =>
    exists d;
    assert (merge (VObj t) (VObj s) false false = Ok d) as Hm by by_evaluation
  end.
  assert (NoDup (obj_keys s)) as Hs by distinct.
  assert (NoDup ["react"; "import"]) as Ht by distinct.
  assert (NoDup ["import"; "jest"]) as Hp by distinct.
  destruct (merge_plugins_combined t s ["react"; "import"] ["import"; "jest"]
              _ Hs (or_introl eq_refl) eq_refl Hm)
    as (extra & Heq & Hsub & Hall & Hnd & _).
  exists extra. split_and!; [exact Hm|exact Heq|exact Hsub|exact Hall|].
  by apply Hnd.
Defined.

(** The parser of the source replaces that of the target; [root], which the
    source does not set, stays. *)
Lemma merge_key_precedence_witness :
  ∃ d,
    merge (VObj [("parser", VStr "espree"); ("root", VBool true)])
          (VObj [("parser", VStr "babel-eslint")]) false false = Ok d
    ∧ prop d "parser" = VStr "babel-eslint"
    ∧ prop d "root" = VBool true.
Proof.
  set (t := [("parser", VStr "espree"); ("root", VBool true)]).
  set (s := [("parser", VStr "babel-eslint")]).
  lazymatch evaluated (merge (VObj t) (VObj s) false false)
  with Ok ?d =>
    exists d;
    assert (merge (VObj t) (VObj s) false false = Ok d) as Hm by by_evaluation
  end.
  assert (NoDup (obj_keys s)) as Hs by distinct.
  destruct (merge_key_precedence t s false false _ Hs eq_refl eq_refl Hm)
    as [Hsrc Hkept].
  split; [exact Hm|]. split.
  - apply Hsrc; [done|discriminate|done|done|]. left. discriminate.
  - by apply Hkept.
Defined.

(** One block of the target, one of the source: two blocks, the target's
    first. *)
Lemma merge_overrides_appended_witness :
  ∃ d,
    merge (VObj [("overrides", VArr [VObj [("files", VStr "*.ts")]])])
          (VObj [("overrides", VArr [VObj [("files", VStr "*.js")]])])
          false false = Ok d
    ∧ prop d "overrides"
      = VArr [VObj [("files", VStr "*.ts")]; VObj [("files", VStr "*.js")]].
Proof.
  set (t := [("overrides", VArr [VObj [("files", VStr "*.ts")]])]).
  set (s := [("overrides", VArr [VObj [("files", VStr "*.js")]])]).
  lazymatch evaluated (merge (VObj t) (VObj s) false false)
  with Ok ?d =>
    exists d;
    assert (merge (VObj t) (VObj s) false false = Ok d) as Hm by by_evaluation
  end.
  assert (NoDup (obj_keys s)) as Hs by distinct.
  destruct (merge_overrides_appended t s false false _
              [VObj [("files", VStr "*.js")]] Hs eq_refl Hm) as [Happ _].
  split; [exact Hm|]. exact (Happ [VObj [("files", VStr "*.ts")]] eq_refl).
Defined.

(** The project's config file is copied as it is. *)
Lemma merge_into_empty_copies_witness :
  merge (VObj []) Sample.project_config false false = Ok Sample.project_config.
Proof.
  apply (merge_into_empty_copies
           [("rules", VObj [("semi", VStr "error")]);
            ("overrides",
             VArr [VObj [("files", VArr [VStr "*.ts"; VStr "src/**"]);
                         ("rules", VObj [("semi", VStr "off")])]]);
            ("filePath", VStr "/x/.eslintrc");
            ("baseDirectory", VStr "/x")]).
  by_evaluation.
Defined.

(** ** Severities, further *)

Lemma severity_of_text_shape s :
  (∃ n, severity_of_text s = VNum n) ∨ severity_of_text s = VObj []
  ∨ (∃ name, severity_of_text s = VFun name).
Proof.
  unfold severity_of_text, obj_lookup. rewrite RULE_SEVERITY_table.
  cbn [obj_get].
  destruct (String.eqb (toLowerCase s) "off"); [left; by eexists|].
  destruct (String.eqb (toLowerCase s) "warn"); [left; by eexists|].
  destruct (String.eqb (toLowerCase s) "error"); [left; by eexists|].
  unfold Object_prototype.
  destruct (String.eqb (toLowerCase s) "__proto__"); [by right; left|].
  match goal with |- context [if ?b then Some _ else None] => destruct b end;
    [right; right; by eexists|left; by eexists].
Qed.

Lemma text_of_severity_shape n :
  text_of_severity n = VStr "off" ∨ text_of_severity n = VStr "warn"
  ∨ text_of_severity n = VStr "error".
Proof.
  unfold text_of_severity.
  destruct (Z.ltb_spec n 0); [by left|].
  destruct (Z.to_nat n) as [|[|[|m]]]; simpl; auto.
Qed.

Lemma arr_get_set_head x (l : list value) :
  l ≠ [] → arr_get 0 (arr_set 0 x l) = x.
Proof. by destruct l. Qed.

Lemma arr_set_set_head x y (l : list value) :
  l ≠ [] → arr_set 0 y (arr_set 0 x l) = arr_set 0 y l.
Proof. by destruct l. Qed.

Lemma index_of_key_named k len : base_key k = false → index_of_key k len = None.
Proof.
  intros Hk. unfold index_of_key.
  destruct (find _ _) as [i|] eqn:Hf; [|done].
  apply find_some in Hf as [_ Hi]. apply String.eqb_eq in Hi.
  rewrite <- Hi in Hk. unfold string_of_nat in Hk.
  by rewrite pretty_nat_base_key in Hk.
Qed.

(** Only an object has a property under a name that is neither an index
    nor [length]. *)
Lemma prop_named v k :
  base_key k = false → k ≠ "length" → (∀ o, v ≠ VObj o) → prop v k = VUndef.
Proof.
  intros Hk Hl Hv. destruct v as [| | | |s| |l|o]; try done.
  - simpl. destruct (String.eqb_spec k "length"); [done|].
    by rewrite index_of_key_named.
  - simpl. destruct (String.eqb_spec k "length"); [done|].
    by rewrite index_of_key_named.
  - by destruct (Hv o).
Qed.

Lemma truthy_named_prop v k x :
  base_key k = false → k ≠ "length" →
  get v k = Ok x → truthy x = true → ∃ o, v = VObj o.
Proof.
  intros Hk Hl Hg Ht. destruct v as [| | | |s| |l|o]; try done;
    try (injection Hg as <-; done); [| |by eexists].
  - assert (x = prop (VStr s) k) as -> by by injection Hg.
    by rewrite prop_named in Ht.
  - assert (x = prop (VArr l) k) as -> by by injection Hg.
    by rewrite prop_named in Ht.
Qed.

Lemma normalize_rule_idempotent ruleConfig :
  normalize_rule (normalize_rule ruleConfig) = normalize_rule ruleConfig.
Proof.
  destruct ruleConfig as [| | | |s| |l|]; try done.
  - simpl. by destruct (severity_of_text_shape s) as [[n ->]|[->|[f ->]]].
  - simpl. destruct (arr_get 0 l) as [| | | |s| | |] eqn:Hl;
      simpl; rewrite ?Hl; try done.
    assert (l ≠ []) by (by intros ->).
    rewrite arr_get_set_head by done.
    by destruct (severity_of_text_shape s) as [[n ->]|[->|[f ->]]].
Qed.

Lemma normalizeToStrings_rule_idempotent ruleConfig :
  normalizeToStrings_rule (normalizeToStrings_rule ruleConfig)
  = normalizeToStrings_rule ruleConfig.
Proof.
  destruct ruleConfig as [| | |n| | |l|]; try done.
  - simpl. by destruct (text_of_severity_shape n) as [->|[->| ->]].
  - simpl. destruct (arr_get 0 l) as [| | |n| | | |] eqn:Hl;
      simpl; rewrite ?Hl; try done.
    assert (l ≠ []) by (by intros ->).
    rewrite arr_get_set_head by done.
    by destruct (text_of_severity_shape n) as [->|[->| ->]].
Qed.

Lemma map_rules_idempotent (f : value → value) (o : obj) :
  (∀ x, f (f x) = f x) →
  map (λ kv : string * value, (kv.1, f kv.2))
      (map (λ kv : string * value, (kv.1, f kv.2)) o)
  = map (λ kv : string * value, (kv.1, f kv.2)) o.
Proof.
  intros Hf. rewrite map_map. apply map_ext. intros [k x]. simpl. by rewrite Hf.
Qed.

Lemma map_idempotent (f : value → value) (l : list value) :
  (∀ x, f (f x) = f x) → map f (map f l) = map f l.
Proof. intros Hf. rewrite map_map. apply map_ext. intros x. by rewrite Hf. Qed.

Lemma get_rules_set R (co : obj) :
  get (VObj (obj_set "rules" R co)) "rules" = Ok R.
Proof. simpl. by rewrite obj_get_set_eq. Qed.

(** X6.  Normalizing twice is normalizing once, in either direction: a
    config that [normalize] (or [normalizeToStrings]) returned is left as it
    is by a second call. *)
Theorem normalize_idempotent (config c' : value) :
  (normalize config = Ok c' → normalize c' = Ok c')
  ∧ (normalizeToStrings config = Ok c' → normalizeToStrings c' = Ok c').
Proof.
  split.
  - unfold normalize at 1. intros Hn.
    apply bind_Ok in Hn as (rules & Hg & Hn).
    destruct (truthy rules) eqn:Ht.
    + destruct (truthy_named_prop config "rules" rules) as [co ->]; try done.
      destruct rules as [| | | | | |l|o]; try done;
        try (injection Hn as <-; unfold normalize;
             rewrite Hg; simpl in *; by rewrite ?Ht);
        injection Hn as <-;
        unfold normalize, with_rules; rewrite get_rules_set; simpl.
      * by rewrite obj_set_set, map_idempotent
          by apply normalize_rule_idempotent.
      * by rewrite obj_set_set, map_rules_idempotent
          by apply normalize_rule_idempotent.
    + injection Hn as <-. unfold normalize. rewrite Hg. simpl. by rewrite Ht.
  - unfold normalizeToStrings at 1. intros Hn.
    apply bind_Ok in Hn as (rules & Hg & Hn).
    destruct (truthy rules) eqn:Ht.
    + destruct (truthy_named_prop config "rules" rules) as [co ->]; try done.
      destruct rules as [| | | | | |l|o];
        try (injection Hn as <-; unfold normalizeToStrings;
             rewrite Hg; simpl in *; by rewrite ?Ht);
        injection Hn as <-;
        unfold normalizeToStrings, with_rules; rewrite get_rules_set; simpl.
      * by rewrite obj_set_set, map_idempotent
          by apply normalizeToStrings_rule_idempotent.
      * by rewrite obj_set_set, map_rules_idempotent
          by apply normalizeToStrings_rule_idempotent.
    + injection Hn as <-. unfold normalizeToStrings. rewrite Hg. simpl.
      by rewrite Ht.
Qed.

Lemma is_number_two v :
  String.eqb (typeof v) "number" && strict_eq v (VNum 2) = true ↔ v = VNum 2.
Proof.
  destruct v as [| |b|n| | | |]; simpl; try (split; [done|discriminate]).
  rewrite Z.eqb_eq. split; [by intros ->|by intros [= ->]].
Qed.

Lemma isErrorSeverity_severity ruleConfig :
  isErrorSeverity ruleConfig = true
  ↔ match severity_part ruleConfig with
    | VStr s => severity_of_text s
    | _ => severity_part ruleConfig
    end = VNum 2.
Proof. unfold isErrorSeverity. cbv zeta. apply is_number_two. Qed.

(** X7.  [isErrorSeverity] says of an entry what the entry's severity is
    after [normalize]: it holds exactly when that severity is the number 2. *)
Theorem isErrorSeverity_normalized (ruleConfig : value) :
  isErrorSeverity ruleConfig = true
  ↔ severity_part (normalize_rule ruleConfig) = VNum 2.
Proof.
  rewrite isErrorSeverity_severity.
  destruct ruleConfig as [| | | |s| |l|]; try done.
  - simpl. by destruct (severity_of_text_shape s) as [[n ->]|[->|[f ->]]].
  - simpl.
    destruct (arr_get 0 l) as [| | | |s| | |] eqn:Hl;
      try (simpl; by rewrite Hl).
    assert (l ≠ []) by (by intros ->).
    simpl. by rewrite arr_get_set_head.
Qed.

Lemma isValidSeverity_scalar v :
  isArray v = false →
  isValidSeverity v = true →
  v = VNum 0 ∨ v = VNum 1 ∨ v = VNum 2
  ∨ ∃ s, v = VStr s ∧ (toLowerCase s = "off" ∨ toLowerCase s = "warn"
                        ∨ toLowerCase s = "error").
Proof.
  intros Ha. destruct v as [| |b|n|s| | |]; try done.
  - unfold isValidSeverity. simpl. rewrite !orb_false_r.
    intros H. repeat (apply orb_true_iff in H as [H|H]);
      apply Z.eqb_eq in H; subst; auto.
  - rewrite isValidSeverity_text.
    intros H. repeat (apply orb_true_iff in H as [H|H]);
      apply String.eqb_eq in H; right; right; right; exists s; auto.
Qed.

Lemma severity_of_valid_text s :
  toLowerCase s = "off" ∨ toLowerCase s = "warn" ∨ toLowerCase s = "error" →
  ∃ n, (0 ≤ n ≤ 2)%Z ∧ severity_of_text s = VNum n.
Proof.
  unfold severity_of_text. intros [->|[->| ->]].
  - exists 0. split; [lia|done].
  - exists 1. split; [lia|done].
  - exists 2. split; [lia|done].
Qed.

Lemma isValidSeverity_number n : (0 ≤ n ≤ 2)%Z → isValidSeverity (VNum n) = true.
Proof.
  intros Hn. assert (n = 0 ∨ n = 1 ∨ n = 2)%Z as [->|[->| ->]] by lia; done.
Qed.

(** X8.  [normalize] maps every valid severity, scalar or head of an
    array entry, to one of the numbers 0, 1 and 2, and the entry stays
    valid.  The converse fails: text that is no severity at all becomes 0,
    which is valid, so validity has to be checked before normalizing. *)
Theorem normalize_rule_valid (ruleConfig : value) :
  (isValidSeverity ruleConfig = true →
   ∃ n, (0 ≤ n ≤ 2)%Z ∧ severity_part (normalize_rule ruleConfig) = VNum n
        ∧ isValidSeverity (normalize_rule ruleConfig) = true)
  ∧ (∀ s, ruleConfig = VStr s → Object_prototype (toLowerCase s) = None →
          isValidSeverity (normalize_rule ruleConfig) = true).
Proof.
  split.
  - intros Hv.
    destruct (isArray ruleConfig) eqn:Ha.
    + destruct ruleConfig as [| | | | | |l|]; try done.
      assert (isValidSeverity (arr_get 0 l) = true
              ∧ isArray (arr_get 0 l) = false) as [Hh Hna].
      { unfold isValidSeverity in Hv |- *. simpl in Hv.
        destruct (arr_get 0 l); try done. }
      destruct (isValidSeverity_scalar _ Hna Hh)
        as [Hl|[Hl|[Hl|(s & Hl & Hs)]]].
      * exists 0. simpl. rewrite Hl. split; [lia|]. split; [done|].
        unfold isValidSeverity. simpl. by rewrite Hl.
      * exists 1. simpl. rewrite Hl. split; [lia|]. split; [done|].
        unfold isValidSeverity. simpl. by rewrite Hl.
      * exists 2. simpl. rewrite Hl. split; [lia|]. split; [done|].
        unfold isValidSeverity. simpl. by rewrite Hl.
      * destruct (severity_of_valid_text s Hs) as (n & Hn & Hsev).
        assert (l ≠ []) by (intros ->; done).
        exists n. simpl. rewrite Hl, Hsev. split; [done|].
        unfold isValidSeverity. simpl. rewrite arr_get_set_head by done.
        split; [done|]. by apply (isValidSeverity_number n).
    + destruct (isValidSeverity_scalar _ Ha Hv)
        as [->|[->|[->|(s & -> & Hs)]]].
      * exists 0. split; [lia|done].
      * exists 1. split; [lia|done].
      * exists 2. split; [lia|done].
      * destruct (severity_of_valid_text s Hs) as (n & Hn & Hsev).
        exists n. simpl. rewrite Hsev. split; [done|]. split; [done|].
        by apply isValidSeverity_number.
  - intros s -> Hs. simpl. rewrite severity_of_text_number by done.
    by repeat case_match.
Qed.

(** One entry, from numbers to text and back. *)
Lemma round_trip_number n :
  (0 ≤ n ≤ 2)%Z → normalize_rule (text_of_severity n) = VNum n.
Proof.
  intros Hn. assert (n = 0 ∨ n = 1 ∨ n = 2)%Z as [->|[->| ->]] by lia; done.
Qed.

Lemma round_trip_out_of_range n :
  (n < 0 ∨ 2 < n)%Z → normalize_rule (text_of_severity n) = VNum 0.
Proof.
  intros Hn. unfold text_of_severity.
  destruct (Z.ltb_spec n 0); [done|].
  destruct (Z.to_nat n) as [|[|[|m]]] eqn:Hm; try lia. done.
Qed.

Lemma numeric_round_trip_rule ruleConfig n :
  severity_part ruleConfig = VNum n → (0 ≤ n ≤ 2)%Z →
  normalize_rule (normalizeToStrings_rule ruleConfig) = ruleConfig.
Proof.
  intros Hs Hn. destruct ruleConfig as [| | |m| | |l|]; try done.
  - injection Hs as ->. simpl. by apply round_trip_number.
  - destruct l as [|h l]; [done|]. change (h = VNum n) in Hs. subst h.
    pose proof (round_trip_number n Hn) as Hr.
    change (normalizeToStrings_rule (VArr (VNum n :: l)))
      with (VArr (text_of_severity n :: l)).
    destruct (text_of_severity_shape n) as [Ht|[Ht|Ht]]; rewrite Ht in Hr |- *;
      by rewrite <- Hr.
Qed.

(** X9.  The way back of the round trip.  A config whose rules all spell
    their severity as a number 0, 1 or 2 is unchanged by [normalizeToStrings]
    followed by [normalize]; a number outside that range comes back as 0. *)
Theorem numeric_severity_round_trip (c rules : obj) :
  (obj_get "rules" c = Some (VObj rules) →
   Forall (λ kv, ∃ n, severity_part kv.2 = VNum n ∧ (0 ≤ n ≤ 2)%Z) rules →
   (normalizeToStrings (VObj c) ≫= normalize) = Ok (VObj c))
  ∧ (∀ n, (n < 0 ∨ 2 < n)%Z →
          normalize_rule (normalizeToStrings_rule (VNum n)) = VNum 0).
Proof.
  split; [|intros n Hn; by apply round_trip_out_of_range].
  intros Hr Hall. unfold normalizeToStrings. simpl. rewrite Hr. simpl.
  unfold normalize. rewrite get_rules_set. simpl.
  rewrite obj_set_set, map_map.
  match goal with
  | |- context [map ?f rules] => assert (map f rules = rules) as ->
  end.
  { rewrite <- (map_id rules) at 2. apply map_ext_Forall.
    eapply Forall_impl; [exact Hall|].
    intros [k x] (n & Hs & Hn). simpl in *. f_equal.
    by eapply numeric_round_trip_rule. }
  by rewrite obj_set_same.
Qed.

(** *** Examples for the severities *)

Lemma normalize_idempotent_witness :
  normalize (VObj [("rules", VObj [("semi", VStr "Error");
                                   ("quotes", VArr [VStr "warn"; VStr "double"])])])
  = Ok (VObj [("rules", VObj [("semi", VNum 2);
                              ("quotes", VArr [VNum 1; VStr "double"])])])
  ∧ normalize (VObj [("rules", VObj [("semi", VNum 2);
                                     ("quotes", VArr [VNum 1; VStr "double"])])])
    = Ok (VObj [("rules", VObj [("semi", VNum 2);
                                ("quotes", VArr [VNum 1; VStr "double"])])]).
Proof.
  split; [reflexivity|].
  exact (proj1 (normalize_idempotent
                  (VObj [("rules", VObj [("semi", VStr "Error");
                                         ("quotes", VArr [VStr "warn"; VStr "double"])])])
                  _) eq_refl).
Defined.

Lemma normalize_rule_valid_witness :
  ∃ n, (0 ≤ n ≤ 2)%Z
       ∧ severity_part (normalize_rule (VArr [VStr "WARN"; VStr "always"])) = VNum n
       ∧ isValidSeverity (normalize_rule (VArr [VStr "WARN"; VStr "always"])) = true.
Proof.
  exact (proj1 (normalize_rule_valid (VArr [VStr "WARN"; VStr "always"])) eq_refl).
Defined.

Lemma numeric_severity_round_trip_witness :
  (normalizeToStrings
     (VObj [("rules", VObj [("semi", VNum 2);
                            ("quotes", VArr [VNum 1; VStr "double"])])])
   ≫= normalize)
  = Ok (VObj [("rules", VObj [("semi", VNum 2);
                              ("quotes", VArr [VNum 1; VStr "double"])])]).
Proof.
  apply (proj1 (numeric_severity_round_trip
                  [("rules", VObj [("semi", VNum 2);
                                   ("quotes", VArr [VNum 1; VStr "double"])])]
                  [("semi", VNum 2); ("quotes", VArr [VNum 1; VStr "double"])]));
    [reflexivity|].
  repeat constructor.
  - exists 2. split; [reflexivity|lia].
  - exists 1. split; [reflexivity|lia].
Defined.

(** ** Environments *)

Lemma object_assign_lookup (entries t : obj) k :
  NoDup (obj_keys entries) →
  obj_get k (foldl (λ acc kv, obj_set kv.1 kv.2 acc) t entries)
  = match obj_get k entries with
    | Some x => Some x
    | None => obj_get k t
    end.
Proof.
  revert t. induction entries as [|[k' v] entries IH]; intros t Hnd; [done|].
  apply NoDup_cons in Hnd as [Hk' Hnd]. simpl. rewrite IH by done.
  destruct (String.eqb_spec k k') as [Heq|Hne].
  - subst k'. destruct (obj_get k entries) eqn:Hg.
    + destruct Hk'. change (k ∈ obj_keys entries).
      apply obj_get_is_Some. by rewrite Hg.
    + by rewrite obj_get_set_eq.
  - by rewrite obj_get_set_ne.
Qed.

Lemma object_assign_other (entries t : obj) k :
  k ∉ obj_keys entries →
  obj_get k (foldl (λ acc kv, obj_set kv.1 kv.2 acc) t entries) = obj_get k t.
Proof.
  revert t. induction entries as [|[k' v] entries IH]; intros t Hk; [done|].
  apply not_elem_of_cons in Hk as [Hne Hk]. simpl.
  rewrite IH by done. by rewrite obj_get_set_ne.
Qed.

Section EnvironmentGlobals.
Context `{EnvironmentRegistry}.

(** One turn of the loop over the enabled environments. *)
Local Abbreviation turn := (λ (envConfig : obj) (name : string),
  let environment := Environments_get name in
  if truthy environment then
    let envConfig :=
      if truthy (prop environment "globals") then
        obj_set "globals"
          (VObj (object_assign (sub_object envConfig "globals")
                               (prop environment "globals")))
          envConfig
      else envConfig in
    if truthy (prop environment "parserOptions") then
      obj_set "parserOptions"
        (VObj (object_assign (sub_object envConfig "parserOptions")
                             (prop environment "parserOptions")))
        envConfig
    else envConfig
  else envConfig).

Lemma sub_object_set k x (o : obj) : sub_object (obj_set k (VObj x) o) k = x.
Proof. unfold sub_object. by rewrite obj_get_set_eq. Qed.

Lemma sub_object_set_ne k k' x (o : obj) :
  k ≠ k' → sub_object (obj_set k x o) k' = sub_object o k'.
Proof. intros Hne. unfold sub_object. by rewrite obj_get_set_ne. Qed.

Lemma turn_other (envConfig : obj) name section key :
  section = "globals" ∨ section = "parserOptions" →
  ¬ own_key key (prop (Environments_get name) section) →
  obj_get key (sub_object (turn envConfig name) section)
  = obj_get key (sub_object envConfig section).
Proof.
  intros Hs Hg. cbv beta zeta.
  destruct (truthy (Environments_get name)); [|done].
  destruct Hs as [-> | ->].
  - destruct (truthy (prop (Environments_get name) "parserOptions"));
      rewrite ?sub_object_set_ne by done;
      (destruct (truthy (prop (Environments_get name) "globals")); [|done]);
      rewrite sub_object_set; by apply object_assign_other.
  - destruct (truthy (prop (Environments_get name) "parserOptions")).
    + rewrite sub_object_set.
      destruct (truthy (prop (Environments_get name) "globals"));
        rewrite ?sub_object_set_ne by done; by apply object_assign_other.
    + destruct (truthy (prop (Environments_get name) "globals"));
        by rewrite ?sub_object_set_ne by done.
Qed.

Lemma turn_defines (envConfig : obj) name section S key x :
  section = "globals" ∨ section = "parserOptions" →
  truthy (Environments_get name) = true →
  prop (Environments_get name) section = VObj S →
  NoDup (obj_keys S) → obj_get key S = Some x →
  obj_get key (sub_object (turn envConfig name) section) = Some x.
Proof.
  intros Hs Ht HS Hnd Hx. cbv beta zeta. rewrite Ht.
  destruct Hs as [-> | ->]; rewrite HS;
    change (truthy (VObj S)) with true; cbv iota.
  - destruct (truthy (prop (Environments_get name) "parserOptions"));
      rewrite ?sub_object_set_ne by done;
      rewrite sub_object_set; unfold object_assign;
      change (own_entries (VObj S)) with S;
      by rewrite object_assign_lookup, Hx.
  - rewrite sub_object_set. unfold object_assign.
    change (own_entries (VObj S)) with S.
    by rewrite object_assign_lookup, Hx.
Qed.

Lemma turns_other (names : list string) (envConfig : obj) section key :
  section = "globals" ∨ section = "parserOptions" →
  Forall (λ name, ¬ own_key key (prop (Environments_get name) section)) names →
  obj_get key (sub_object (foldl turn envConfig names) section)
  = obj_get key (sub_object envConfig section).
Proof.
  intros Hs. revert envConfig.
  induction names as [|name names IH]; intros envConfig Hall; [done|].
  apply Forall_cons in Hall as [Hname Hall].
  change (foldl turn envConfig (name :: names))
    with (foldl turn (turn envConfig name) names).
  rewrite IH by done. by apply turn_other.
Qed.

Lemma createEnvironmentConfig_fold env :
  truthy env = true →
  createEnvironmentConfig env
  = foldl turn (obj_set "env" env createEmptyConfig)
      (filter (λ name, truthy (prop env name)) (obj_keys (own_entries env))).
Proof. intros Ht. unfold createEnvironmentConfig. by rewrite Ht. Qed.

(** What the enabled environments put under a key of a section. *)
Lemma createEnvironmentConfig_entry (env : value) (section key : string) :
  truthy env = true →
  section = "globals" ∨ section = "parserOptions" →
  (∀ before name after x,
     enabled env = before ++ name :: after →
     contributes name section key x →
     Forall (λ later, silent later section key) after →
     prop (VObj (sub_object (createEnvironmentConfig env) section)) key = x)
  ∧ (Forall (λ name, silent name section key) (enabled env) →
     prop (VObj (sub_object (createEnvironmentConfig env) section)) key
     = VUndef).
Proof.
  intros Ht Hs. rewrite createEnvironmentConfig_fold by done.
  fold (enabled env). split.
  - intros before name after x -> (Hname & S & HS & Hnd & Hx) Hafter.
    rewrite foldl_app.
    change (foldl turn ?a (name :: after))
      with (foldl turn (turn a name) after).
    simpl prop. rewrite turns_other by done.
    by rewrite (turn_defines _ name section S key x).
  - intros Hall. simpl prop. rewrite turns_other by done.
    by destruct Hs as [-> | ->].
Qed.

(** X10.  Among the enabled environments, in the order of the keys of [env],
    the last one that defines a global decides its value in the environment
    config; a global none of them defines is not in it.  The global is not
    named [__proto__], and no environment has a global of that name:
    [Object.assign] would hand such a key to the accessor that plain objects
    inherit. *)
Theorem environment_globals_last_wins (env : value) (g : string) :
  truthy env = true →
  environments_without_proto → g ≠ "__proto__" →
  (∀ before name after G x,
     filter (λ name, truthy (prop env name)) (obj_keys (own_entries env))
     = before ++ name :: after →
     truthy (Environments_get name) = true →
     prop (Environments_get name) "globals" = VObj G →
     NoDup (obj_keys G) → obj_get g G = Some x →
     Forall (λ later, ¬ own_key g (prop (Environments_get later) "globals"))
            after →
     prop (VObj (sub_object (createEnvironmentConfig env) "globals")) g = x)
  ∧ (Forall (λ name, ¬ own_key g (prop (Environments_get name) "globals"))
            (filter (λ name, truthy (prop env name))
                    (obj_keys (own_entries env))) →
     prop (VObj (sub_object (createEnvironmentConfig env) "globals")) g
     = VUndef).
Proof.
  intros Ht _ _. rewrite createEnvironmentConfig_fold by done. split.
  - intros before name after G x -> Hname HG Hnd Hx Hafter.
    rewrite foldl_app.
    change (foldl turn ?a (name :: after))
      with (foldl turn (turn a name) after).
    simpl prop. rewrite (turns_other _ _ "globals") by (done || by left).
    by rewrite (turn_defines _ name "globals" G g x); [|left|..].
  - intros Hall. simpl prop.
    by rewrite (turns_other _ _ "globals") by (done || by left).
Qed.

End EnvironmentGlobals.

Section EnvironmentMerge.
Context `{EnvironmentRegistry}.

(** The skeleton keeps an object under [globals] and under [parserOptions],
    whatever is assigned. *)
Lemma createEnvironmentConfig_section env section :
  section = "globals" ∨ section = "parserOptions" →
  obj_get section (createEnvironmentConfig env)
  = Some (VObj (sub_object (createEnvironmentConfig env) section)).
Proof.
  intros Hs.
  set (P := λ o : obj, ∃ g, obj_get section o = Some (VObj g)).
  assert (P (createEnvironmentConfig env)) as [g Hg].
  { unfold createEnvironmentConfig. destruct (truthy env).
    - apply foldl_invariant.
      + intros o name [g Hg]. unfold P.
        destruct Hs as [-> | ->];
          repeat case_match; rewrite ?obj_get_set_eq, ?obj_get_set_ne by done;
          eauto; rewrite ?obj_get_set_eq; eauto.
      + destruct Hs as [-> | ->]; exists []; by rewrite obj_get_set_ne.
    - destruct Hs as [-> | ->]; by exists []. }
  unfold sub_object. by rewrite Hg.
Qed.

Lemma createEnvironmentConfig_globals env :
  obj_get "globals" (createEnvironmentConfig env)
  = Some (VObj (sub_object (createEnvironmentConfig env) "globals")).
Proof. apply createEnvironmentConfig_section. by left. Qed.

Lemma applyEnvironments_merge config env :
  get config "env" = Ok env → truthy env = true → typeof env = "object" →
  applyEnvironments config
  = merge (VObj (createEnvironmentConfig env)) config false false.
Proof.
  intros Hg Ht Hty. unfold applyEnvironments. rewrite Hg. simpl.
  by rewrite Ht, Hty.
Qed.

(** A section the config does not have is the environments'. *)
Lemma applyEnvironments_section_absent (o : obj) env d section :
  obj_get "env" o = Some env → truthy env = true → typeof env = "object" →
  section = "globals" ∨ section = "parserOptions" →
  obj_get section o = None →
  applyEnvironments (VObj o) = Ok d →
  prop d section = VObj (sub_object (createEnvironmentConfig env) section).
Proof.
  intros Henv Ht Hty Hs Hnone Hd.
  rewrite (applyEnvironments_merge _ env) in Hd;
    [|simpl; by rewrite Henv|done|done].
  rewrite (merge_lookup_other _ _ _ _ _ section Hd Hnone). simpl.
  by rewrite createEnvironmentConfig_section.
Qed.

(** The entries of a section the config has: the three ways a key of the
    section comes out. *)
Lemma applyEnvironments_section_entries (o own : obj) env d section key :
  obj_get "env" o = Some env → truthy env = true → typeof env = "object" →
  NoDup (obj_keys o) →
  section = "globals" ∨ section = "parserOptions" →
  obj_get section o = Some (VObj own) → NoDup (obj_keys own) →
  applyEnvironments (VObj o) = Ok d →
  key ≠ "overrides" →
  (obj_get key own = None →
   prop (prop d section) key
   = prop (VObj (sub_object (createEnvironmentConfig env) section)) key)
  ∧ (∀ x, obj_get key own = Some x →
       isArray x = false →
       isArray (prop (VObj (sub_object (createEnvironmentConfig env) section))
                     key) = false →
       typeof x ≠ "object" ∨ x = VNull
       ∨ key = "exported" ∨ key = "astGlobals" →
       prop (prop d section) key = x)
  ∧ (∀ xo, obj_get key own = Some (VObj xo) →
       isArray (prop (VObj (sub_object (createEnvironmentConfig env) section))
                     key) = false →
       key ≠ "exported" → key ≠ "astGlobals" →
       merge (or_else (prop (VObj (sub_object (createEnvironmentConfig env)
                                              section)) key) (VObj []))
             (VObj xo) false (String.eqb key "rules")
       = Ok (prop (prop d section) key)).
Proof.
  intros Henv Ht Hty Hnd Hs Hg Hndg Hd Hkey.
  rewrite (applyEnvironments_merge _ env) in Hd;
    [|simpl; by rewrite Henv|done|done].
  destruct (merge_lookup _ _ _ _ _ section _ Hnd Hd Hg) as (x & Hx & Hdx).
  rewrite (object_value_nested _ _ _ _ _ _
             (VObj (sub_object (createEnvironmentConfig env) section)))
    in Hx;
    [|simpl; by rewrite createEnvironmentConfig_section
     |by destruct Hs as [-> | ->]|done
     |by destruct Hs as [-> | ->]|by destruct Hs as [-> | ->]].
  cbv beta in Hx. change (or_else (VObj ?a) _) with (VObj a) in Hx.
  rewrite Hdx.
  pose proof (eq_refl :
    get (VObj (sub_object (createEnvironmentConfig env) section)) key
    = Ok (prop (VObj (sub_object (createEnvironmentConfig env) section)) key))
    as Hget.
  split_and!.
  - intros Hnone. by rewrite (merge_lookup_other _ _ _ _ _ key Hx Hnone).
  - intros y Hy Harr Hbase Hc.
    destruct (merge_lookup _ _ _ _ _ key _ Hndg Hx Hy) as (z & Hz & ->).
    rewrite (object_value_scalar _ _ _ _ _ _ _ Hget) in Hz; try done.
    + by injection Hz.
    + destruct Hc as [?|[->|[?|?]]]; auto.
  - intros xo Hxo Hbase He Ha.
    destruct (merge_lookup _ _ _ _ _ key _ Hndg Hx Hxo) as (z & Hz & ->).
    by rewrite (object_value_nested _ _ _ _ _ _ _ Hget) in Hz.
Qed.

Lemma environment_section_object env section :
  section = "globals" ∨ section = "parserOptions" →
  environment_section env section
  = VObj (sub_object (createEnvironmentConfig env) section).
Proof.
  intros Hs. unfold environment_section. simpl.
  by rewrite createEnvironmentConfig_section.
Qed.

(** C8, as the code has it.  When [config.env] is an object (any truthy value
    of type "object", the empty object included), [applyEnvironments(config)]
    is [merge(createEnvironmentConfig(config.env), config)]: what the enabled
    environments contribute to [globals] and [parserOptions] is the base, and
    what the config says itself wins.

    The base: under a key of a section stands what the last enabled
    environment that has the key in its section says, in the order of the
    keys of [env], and nothing when no enabled environment has it.

    The result: a section the config does not have is the base.  In a
    section the config has, an entry the config does not set has the value
    of the base, an entry the config sets to a value that is not an object
    has the config's value, and an entry the config sets to an object is
    that object merged over the entry of the base.

    This is for entries whose key is not [overrides] and not the name of a
    member plain objects inherit ([__proto__], [constructor], ...), without
    an array on either side, and for environments and sections that have no
    own key named [__proto__].  When [config.env] is absent, falsy or not an
    object, the config comes back unchanged. *)
Theorem applyEnvironments_spec (config env : value) :
  get config "env" = Ok env →
  (truthy env = true → typeof env = "object" →
   applyEnvironments config
   = merge (VObj (createEnvironmentConfig env)) config false false
   ∧ ∀ section : string,
       section = "globals" ∨ section = "parserOptions" →
       environments_without_proto →
       (∀ key : string, inherited_name key = false →
          (∀ before name after x,
             enabled env = before ++ name :: after →
             contributes name section key x →
             Forall (λ later, silent later section key) after →
             prop (environment_section env section) key = x)
          ∧ (Forall (λ name, silent name section key) (enabled env) →
             prop (environment_section env section) key = VUndef))
       ∧ ∀ (o : obj) (d : value),
           config = VObj o → NoDup (obj_keys o) →
           applyEnvironments config = Ok d →
           (obj_get section o = None →
            prop d section = environment_section env section)
           ∧ ∀ (own : obj) (key : string),
               obj_get section o = Some (VObj own) → NoDup (obj_keys own) →
               obj_get "__proto__" own = None →
               inherited_name key = false → key ≠ "overrides" →
               (obj_get key own = None →
                prop (prop d section) key
                = prop (environment_section env section) key)
               ∧ (∀ x, obj_get key own = Some x →
                    isArray x = false →
                    isArray (prop (environment_section env section) key)
                    = false →
                    typeof x ≠ "object" ∨ x = VNull
                    ∨ key = "exported" ∨ key = "astGlobals" →
                    prop (prop d section) key = x)
               ∧ (∀ xo, obj_get key own = Some (VObj xo) →
                    isArray (prop (environment_section env section) key)
                    = false →
                    key ≠ "exported" → key ≠ "astGlobals" →
                    merge (or_else (prop (environment_section env section) key)
                                   (VObj []))
                          (VObj xo) false (String.eqb key "rules")
                    = Ok (prop (prop d section) key)))
  ∧ (truthy env = false ∨ typeof env ≠ "object" →
     applyEnvironments config = Ok config).
Proof.
  intros Hget. split.
  - intros Ht Hty. split; [by apply applyEnvironments_merge|].
    intros section Hs _. rewrite environment_section_object by done. split.
    { intros key _. by apply createEnvironmentConfig_entry. }
    intros o d -> Hnd Hd.
    assert (obj_get "env" o = Some env) as Henv.
    { simpl in Hget. destruct (obj_get "env" o) as [e|] eqn:He.
      - by injection Hget as ->.
      - injection Hget as <-. done. }
    split.
    + intros Hnone. by apply (applyEnvironments_section_absent o env).
    + intros own key Hown Hndo _ _ Hkey.
      by apply (applyEnvironments_section_entries o own env).
  - unfold applyEnvironments. rewrite Hget; simpl.
    intros [->|Hty]; [done|].
    destruct (String.eqb_spec (typeof env) "object"); [done|].
    by rewrite andb_false_r.
Qed.

(** X11.  What the config itself says about a global wins over the
    environments: a global the config sets to a flag keeps that flag after
    [applyEnvironments], and a global the config does not mention has the
    value the enabled environments give it.  The global is not named
    [__proto__] or [overrides], the environments do not give it an array,
    and neither the config's [globals] nor an environment has an own key
    named [__proto__]. *)
Theorem applyEnvironments_globals (o g : obj) (env d : value) (name : string) :
  obj_get "env" o = Some env →
  truthy env = true → typeof env = "object" →
  NoDup (obj_keys o) →
  obj_get "globals" o = Some (VObj g) → NoDup (obj_keys g) →
  environments_without_proto → obj_get "__proto__" g = None →
  name ≠ "__proto__" → name ≠ "overrides" →
  applyEnvironments (VObj o) = Ok d →
  (∀ flag, obj_get name g = Some (VBool flag) →
     isArray (prop (VObj (sub_object (createEnvironmentConfig env) "globals"))
                   name) = false →
     prop (prop d "globals") name = VBool flag)
  ∧ (obj_get name g = None →
     prop (prop d "globals") name
     = prop (VObj (sub_object (createEnvironmentConfig env) "globals")) name).
Proof.
  intros Henv Ht Hty Hnd Hg Hndg _ _ _ Hname Hd.
  pose proof (applyEnvironments_section_entries o g env d "globals" name
                Henv Ht Hty Hnd (or_introl eq_refl) Hg Hndg Hd Hname)
    as (Habsent & Hscalar & _).
  split; [|exact Habsent].
  intros flag Hflag Harr. apply Hscalar; [done|done|done|].
  left. discriminate.
Qed.

End EnvironmentMerge.

(** *** Examples for the environments *)

Local Ltac without_proto registry :=
  intros name; unfold Environments_get, registry;
  repeat case_match; split; unfold own_key; intros Hin;
  apply (bool_decide_pack _) in Hin; vm_compute in Hin; exact Hin.

Lemma two_environments_without_proto :
  @environments_without_proto two_environments.
Proof. without_proto two_environments. Qed.

Lemma registry_without_proto : @environments_without_proto Sample.registry.
Proof. without_proto Sample.registry. Qed.

(** [worker] comes after [browser] in [env], so its [self] wins. *)
Lemma environment_globals_last_wins_witness :
  prop (VObj (sub_object
                (@createEnvironmentConfig two_environments
                   (VObj [("browser", VBool true); ("worker", VBool true)]))
                "globals")) "self"
  = VBool true.
Proof.
  refine (proj1 (@environment_globals_last_wins two_environments
                   (VObj [("browser", VBool true); ("worker", VBool true)])
                   "self" eq_refl two_environments_without_proto _)
                ["browser"] "worker" [] [("self", VBool true)] (VBool true)
                eq_refl eq_refl eq_refl _ eq_refl _).
  - discriminate.
  - apply (bool_decide_unpack _). vm_compute. exact I.
  - constructor.
Defined.

(** With [browser] on and [window] declared writable by the config, [window]
    stays writable and [document] comes from the environment. *)
Lemma applyEnvironments_globals_witness :
  ∃ d,
    applyEnvironments
      (VObj [("env", VObj [("browser", VBool true)]);
             ("globals", VObj [("window", VBool true)])]) = Ok d
    ∧ prop (prop d "globals") "window" = VBool true
    ∧ prop (prop d "globals") "document" = VBool false.
Proof.
  set (o := [("env", VObj [("browser", VBool true)]);
             ("globals", VObj [("window", VBool true)])]).
  lazymatch evaluated (applyEnvironments (VObj o)) with
  | Ok ?d =>
      exists d;
      assert (applyEnvironments (VObj o) = Ok d) as Hd by by_evaluation
  end.
  assert (NoDup (obj_keys o)) as Ho by distinct.
  assert (NoDup (obj_keys [("window", VBool true)])) as Hg by distinct.
  split; [exact Hd|]. split.
  - refine (proj1 (applyEnvironments_globals o [("window", VBool true)]
                     (VObj [("browser", VBool true)]) _ "window"
                     eq_refl eq_refl eq_refl Ho eq_refl Hg
                     registry_without_proto eq_refl _ _ Hd)
                  true eq_refl eq_refl); discriminate.
  - refine (proj2 (applyEnvironments_globals o [("window", VBool true)]
                     (VObj [("browser", VBool true)]) _ "document"
                     eq_refl eq_refl eq_refl Ho eq_refl Hg
                     registry_without_proto eq_refl _ _ Hd) eq_refl);
      discriminate.
Defined.

(** The same config, section by section: the base has [document] from
    [browser]; in the result [window] is the config's, [document] the
    base's, and [parserOptions], which the config does not have, is the
    (empty) section of the base. *)
Lemma applyEnvironments_spec_witness :
  ∃ d,
    applyEnvironments
      (VObj [("env", VObj [("browser", VBool true)]);
             ("globals", VObj [("window", VBool true)])]) = Ok d
    ∧ merge (VObj (createEnvironmentConfig (VObj [("browser", VBool true)])))
            (VObj [("env", VObj [("browser", VBool true)]);
                   ("globals", VObj [("window", VBool true)])]) false false
      = Ok d
    ∧ prop (environment_section (VObj [("browser", VBool true)]) "globals")
           "document" = VBool false
    ∧ prop (prop d "globals") "window" = VBool true
    ∧ prop (prop d "globals") "document" = VBool false
    ∧ prop d "parserOptions" = VObj [].
Proof.
  set (o := [("env", VObj [("browser", VBool true)]);
             ("globals", VObj [("window", VBool true)])]).
  lazymatch evaluated (applyEnvironments (VObj o)) with
  | Ok ?d =>
      exists d;
      assert (applyEnvironments (VObj o) = Ok d) as Hd by by_evaluation
  end.
  assert (NoDup (obj_keys o)) as Ho by distinct.
  assert (NoDup (obj_keys [("window", VBool true)])) as Hg by distinct.
  assert (NoDup (obj_keys [("window", VBool false); ("document", VBool false)]))
    as Hb by distinct.
  pose proof (proj1 (applyEnvironments_spec (VObj o)
                       (VObj [("browser", VBool true)]) eq_refl)
                eq_refl eq_refl) as [Hmerge Hsections].
  pose proof (Hsections "globals" (or_introl eq_refl) registry_without_proto)
    as [Hbase Hglobals].
  pose proof (Hsections "parserOptions" (or_intror eq_refl)
                registry_without_proto) as [_ Hoptions].
  specialize (Hglobals o _ eq_refl Ho Hd) as [_ Hglobals].
  specialize (Hoptions o _ eq_refl Ho Hd) as [Hoptions _].
  assert (prop (environment_section (VObj [("browser", VBool true)]) "globals")
               "document" = VBool false) as Hdocument.
  { refine (proj1 (Hbase "document" eq_refl) [] "browser" [] (VBool false)
                  eq_refl _ (Forall_nil_2 _)).
    split; [done|]. eexists. split; [reflexivity|]. by split. }
  split; [exact Hd|]. split; [by rewrite <- Hmerge|]. split_and!.
  - exact Hdocument.
  - refine (proj1 (proj2 (Hglobals [("window", VBool true)] "window"
                            eq_refl Hg eq_refl eq_refl _))
                  (VBool true) eq_refl eq_refl eq_refl _);
      [discriminate|left; discriminate].
  - rewrite <- Hdocument.
    refine (proj1 (Hglobals [("window", VBool true)] "document"
                     eq_refl Hg eq_refl eq_refl _) eq_refl); discriminate.
  - by rewrite (Hoptions eq_refl).
Defined.

(** ** Patterns that do not match, and patterns that are no strings *)

Section PatternFailures.
Context `{GlobMatcher}.

Lemma every_matches_all filePath patterns :
  every_matches filePath patterns = Ok true
  ↔ Forall (matching filePath) patterns.
Proof.
  induction patterns as [|p patterns IH]; simpl; [done|].
  rewrite Forall_cons, <- IH. unfold matching.
  destruct p as [| | | |s| | |]; simpl;
    try (split; [done|by intros [(s' & ? & _) _]]).
  destruct (minimatch filePath s) eqn:Hm.
  - split; [intros ?; split; [by exists s|done]|by intros [_ ?]].
  - split; [done|]. intros [(s' & [= <-] & Hs) _]. by rewrite Hm in Hs.
Qed.

Lemma every_matches_past filePath before rest :
  Forall (matching filePath) before →
  every_matches filePath (before ++ rest) = every_matches filePath rest.
Proof.
  induction 1 as [|p before (s & -> & Hs) _ IH]; [done|].
  simpl. by rewrite Hs.
Qed.

(** X12.  [pathMatchesGlobs] on a list of patterns stops at the first
    pattern that is not a matching string.  All matching: true.  The first
    other pattern, if a string: false; if not a string: a TypeError.  In
    both cases what comes after it is never looked at. *)
Theorem pathMatchesGlobs_first_failure (filePath : string)
    (patterns : list value) :
  (pathMatchesGlobs filePath (VArr patterns) = Ok true
   ↔ Forall (matching filePath) patterns)
  ∧ (∀ before p after,
       patterns = before ++ p :: after →
       Forall (matching filePath) before →
       (∀ s, p = VStr s → minimatch filePath s = false →
             pathMatchesGlobs filePath (VArr patterns) = Ok false)
       ∧ ((∀ s, p ≠ VStr s) →
          pathMatchesGlobs filePath (VArr patterns) = Throw TypeError)).
Proof.
  split; [apply every_matches_all|].
  intros before p after -> Hbefore. unfold pathMatchesGlobs. simpl.
  rewrite every_matches_past by done. split.
  - intros s -> Hs. simpl. by rewrite Hs.
  - intros Hp. destruct p; try done. by destruct (Hp s).
Qed.

End PatternFailures.

(** The second pattern does not match, so the third, a number, is never
    given to the matcher. *)
Lemma pathMatchesGlobs_first_failure_witness :
  pathMatchesGlobs "src/a.ts" (VArr [VStr "*.ts"; VStr "lib/**"; VNum 3])
  = Ok false
  ∧ pathMatchesGlobs "src/a.ts" (VArr [VStr "*.ts"; VNum 3; VStr "lib/**"])
    = Throw TypeError.
Proof.
  split.
  - refine (proj1 (proj2 (pathMatchesGlobs_first_failure "src/a.ts"
                            [VStr "*.ts"; VStr "lib/**"; VNum 3])
                         [VStr "*.ts"] (VStr "lib/**") [VNum 3] eq_refl _)
                  "lib/**" eq_refl eq_refl).
    repeat constructor. by exists "*.ts".
  - refine (proj2 (proj2 (pathMatchesGlobs_first_failure "src/a.ts"
                            [VStr "*.ts"; VNum 3; VStr "lib/**"])
                         [VStr "*.ts"] (VNum 3) [VStr "lib/**"] eq_refl _) _).
    + repeat constructor. by exists "*.ts".
    + discriminate.
Defined.

(** ** Keys of vectors, further *)

Lemma hash_concat (v : vector) : hash v = String.concat "," (map token_text v).
Proof. done. Qed.

Lemma comma_free_app a b : comma_free (a +:+ b) = comma_free a && comma_free b.
Proof. unfold comma_free. by rewrite string_to_list_app, forallb_app. Qed.

Lemma pretty_N_go_comma_free x s :
  comma_free s = true → comma_free (pretty_N_go x s) = true.
Proof.
  revert s. induction (N.lt_wf_0 x) as [x _ IH]; intros s Hs.
  destruct (decide (x = 0)%N) as [->|Hx].
  - by rewrite pretty_N_go_0.
  - rewrite pretty_N_go_step by lia. apply IH.
    + apply N.div_lt; lia.
    + unfold comma_free in *. simpl. rewrite Hs, andb_true_r.
      unfold pretty_N_char. by repeat case_match.
Qed.

Lemma pretty_Z_of_nat_comma_free (n : nat) :
  comma_free (pretty (Z.of_nat n)) = true.
Proof.
  destruct n as [|n]; [done|].
  change (pretty (Z.of_nat (S n))) with (pretty (N.pos (Pos.of_succ_nat n))).
  unfold pretty, pretty_N. case_decide; [done|].
  by apply pretty_N_go_comma_free.
Qed.

(** The rest of a joined text after its first part: empty, or a separator
    and more. *)
Lemma concat_cons a (l : list string) :
  String.concat "," (a :: l)
  = a +:+ match l with [] => "" | _ => "," +:+ String.concat "," l end.
Proof.
  destruct l as [|b l]; [|done].
  change (String.concat "," [a]) with a.
  induction a as [|c a IH]; [done|].
  change (String c a = String c (a +:+ "")). by f_equal.
Qed.

Lemma first_part a b r1 r2 :
  comma_free a = true → comma_free b = true →
  (r1 = "" ∨ ∃ r, r1 = String ","%char r) →
  (r2 = "" ∨ ∃ r, r2 = String ","%char r) →
  a +:+ r1 = b +:+ r2 → a = b ∧ r1 = r2.
Proof.
  revert b. induction a as [|c a IH]; intros b Ha Hb Hr1 Hr2 Heq.
  - destruct b as [|c b]; [done|]. simpl in Heq. exfalso.
    unfold comma_free in Hb. simpl in Hb.
    apply andb_true_iff in Hb as [Hc _].
    destruct Hr1 as [->|[r ->]]; [done|].
    injection Heq as <- _. done.
  - unfold comma_free in Ha. simpl in Ha.
    apply andb_true_iff in Ha as [Hc Ha].
    destruct b as [|c' b].
    + simpl in Heq. exfalso.
      destruct Hr2 as [->|[r ->]]; [done|].
      injection Heq as -> _. done.
    + simpl in Heq. injection Heq as -> Heq.
      unfold comma_free in Hb. simpl in Hb.
      apply andb_true_iff in Hb as [_ Hb].
      destruct (IH b Ha Hb Hr1 Hr2 Heq) as [-> ->]. done.
Qed.

Lemma concat_inj (l1 l2 : list string) :
  Forall (λ s, comma_free s = true) l1 →
  Forall (λ s, comma_free s = true) l2 →
  l1 ≠ [] → l2 ≠ [] →
  String.concat "," l1 = String.concat "," l2 → l1 = l2.
Proof.
  intros H1. revert l2. induction H1 as [|a l1 Ha H1 IH];
    intros l2 H2 Hn1 Hn2 Heq; [done|].
  destruct H2 as [|b l2 Hb H2]; [done|].
  rewrite !concat_cons in Heq.
  apply first_part in Heq as [-> Heq]; try done.
  - f_equal. destruct l1 as [|a1 l1], l2 as [|b1 l2]; try done.
    injection Heq as Heq. by apply IH.
  - destruct l1; [by left|right; by eexists].
  - destruct l2; [by left|right; by eexists].
Qed.

Lemma token_text_comma_free t :
  token_ok t → comma_free_token t → comma_free (token_text t) = true.
Proof.
  intros [(p & -> & _)|(n & ->)] Hc; [done|].
  apply pretty_Z_of_nat_comma_free.
Qed.

Lemma token_text_inj t1 t2 :
  token_ok t1 → token_ok t2 → token_text t1 = token_text t2 → t1 = t2.
Proof.
  intros [(p & -> & Hp)|(n & ->)] [(q & -> & Hq)|(m & ->)]; simpl.
  - by intros ->.
  - intros ->. by rewrite pretty_Z_of_nat_base_key in Hp.
  - intros Heq. by rewrite <- Heq, pretty_Z_of_nat_base_key in Hq.
  - intros Heq. by apply pretty_Z_inj in Heq as ->.
Qed.

(** X13.  Two vectors as [getConfigVector] builds them, the base first and
    then paths and indices, have the same key only if they are the same
    vector, provided no path holds the separator. *)
Theorem hash_injective (v w : vector) :
  vector_ok v → vector_ok w →
  Forall comma_free_token v → Forall comma_free_token w →
  hash v = hash w → v = w.
Proof.
  intros (tv & -> & Hv) (tw & -> & Hw) Hcv Hcw Heq.
  apply Forall_cons in Hcv as [_ Hcv]. apply Forall_cons in Hcw as [_ Hcw].
  rewrite !hash_concat in Heq. apply concat_inj in Heq; [|constructor; [done|]
    |constructor; [done|]|done|done].
  - f_equal. simpl in Heq. injection Heq as Heq.
    clear Hcv Hcw. revert tw Hw Heq.
    induction Hv as [|t tv Ht _ IH]; intros tw Hw Heq.
    + by destruct tw.
    + destruct Hw as [|u tw Hu Hw]; [done|].
      simpl in Heq. injection Heq as Ht' Heq.
      f_equal; [by apply token_text_inj|by apply IH].
  - apply Forall_fmap. apply Forall_forall. intros t Ht.
    apply token_text_comma_free;
      [by eapply (proj1 (Forall_forall _ _) Hv)
      |by eapply (proj1 (Forall_forall _ _) Hcv)].
  - apply Forall_fmap. apply Forall_forall. intros t Ht.
    apply token_text_comma_free;
      [by eapply (proj1 (Forall_forall _ _) Hw)
      |by eapply (proj1 (Forall_forall _ _) Hcw)].
Qed.

Lemma hash_cons_path a (rest : vector) :
  hash (VStr a :: rest)
  = a +:+ match rest with [] => "" | _ => "," +:+ hash rest end.
Proof.
  rewrite !hash_concat. simpl map. rewrite concat_cons. by destruct rest.
Qed.

Lemma string_app_assoc (a b c : string) : (a +:+ b) +:+ c = a +:+ (b +:+ c).
Proof.
  induction a as [|x a IH]; [done|].
  change (String x ((a +:+ b) +:+ c) = String x (a +:+ (b +:+ c))).
  by f_equal.
Qed.

(** X14.  The key does not tell a path that holds the separator from the
    two tokens it reads as: what is stored for the vector with the one
    path is what the merged-vector table returns for the vector with the
    two, and the same in the final table. *)
Theorem separator_in_path_shares_entry (cache : ConfigCache.t) (a b : string)
    (rest : vector) (config : value) :
  hash (VStr (a +:+ "," +:+ b) :: rest) = hash (VStr a :: VStr b :: rest)
  ∧ getMergedVectorConfig
      (setMergedVectorConfig cache (VStr (a +:+ "," +:+ b) :: rest) config)
      (VStr a :: VStr b :: rest) = config
  ∧ getMergedConfig
      (setMergedConfig cache (VStr (a +:+ "," +:+ b) :: rest) config)
      (VStr a :: VStr b :: rest) = config.
Proof.
  assert (hash (VStr (a +:+ "," +:+ b) :: rest)
          = hash (VStr a :: VStr b :: rest)) as Heq.
  { rewrite (hash_cons_path (a +:+ "," +:+ b) rest),
      (hash_cons_path a (VStr b :: rest)), (hash_cons_path b rest).
    by rewrite string_app_assoc. }
  split; [done|].
  unfold getMergedVectorConfig, setMergedVectorConfig, setMergedVectorKey,
    getMergedConfig, setMergedConfig. simpl.
  rewrite Heq, !lookup_insert_eq. done.
Qed.

(** The two sample vectors have different keys. *)
Lemma hash_injective_witness :
  hash Sample.sample_vector = hash [VStr ""; VStr "/x/.eslintrc"; VNum 0]
  ∧ Sample.sample_vector = [VStr ""; VStr "/x/.eslintrc"; VNum 0].
Proof.
  split; [reflexivity|].
  apply hash_injective; [| | | |reflexivity].
  - exists [VStr "/x/.eslintrc"; VNum 0]. split; [done|].
    apply Forall_cons. split; [left; by eexists|].
    apply Forall_cons. split; [right; by exists 0%nat|]. constructor.
  - exists [VStr "/x/.eslintrc"; VNum 0]. split; [done|].
    apply Forall_cons. split; [left; by eexists|].
    apply Forall_cons. split; [right; by exists 0%nat|]. constructor.
  - by repeat (apply Forall_cons; split; [done|]).
  - by repeat (apply Forall_cons; split; [done|]).
Defined.

(** ** The caches, further *)

(** X15.  [setHierarchyLocalConfigs] touches the entries of the directories
    it is given and no other.  Given more directories than configs, the
    directory at an index past the number of configs does not get the empty
    list: the end of the slice is negative and counts from the end. *)
Theorem setHierarchyLocalConfigs_surplus (c : ConfigCache.t)
    (directories : list string) (configs : list value) :
  (∀ d, d ∉ directories →
        getHierarchyLocalConfigs
          (setHierarchyLocalConfigs c directories configs) d
        = getHierarchyLocalConfigs c d)
  ∧ (∀ i d, NoDup directories → directories !! i = Some d →
            (length configs < i)%nat →
            getHierarchyLocalConfigs
              (setHierarchyLocalConfigs c directories configs) d
            = Some (take (2 * length configs - i) configs)).
Proof.
  split.
  - intros d Hd. unfold getHierarchyLocalConfigs, setHierarchyLocalConfigs.
    simpl. by apply setHierarchy_from_other.
  - intros i d Hnd Hi Hlt.
    unfold getHierarchyLocalConfigs, setHierarchyLocalConfigs. simpl.
    rewrite (setHierarchy_from_lookup _ 0 _ _ i d) by done.
    by rewrite slice_to_negative.
Qed.

(** Three configs and five directories: the fifth directory, at index 4,
    gets the first two configs. *)
Lemma setHierarchyLocalConfigs_surplus_witness :
  getHierarchyLocalConfigs
    (setHierarchyLocalConfigs ConfigCache.init
       ["/a/b/c/d"; "/a/b/c"; "/a/b"; "/a"; "/"]
       [VStr "base"; VStr "x"; VStr "y"]) "/"
  = Some [VStr "base"; VStr "x"].
Proof.
  refine (proj2 (setHierarchyLocalConfigs_surplus ConfigCache.init
                   ["/a/b/c/d"; "/a/b/c"; "/a/b"; "/a"; "/"]
                   [VStr "base"; VStr "x"; VStr "y"])
                4%nat "/" _ eq_refl _).
  - apply (bool_decide_unpack _). vm_compute. exact I.
  - simpl. lia.
Defined.

(** X16.  A call of [getConfigFromVector] that returns writes at most one
    entry: the one under the key of the whole vector, which then holds the
    returned config.  The entries under the keys of the vector's prefixes,
    every other entry, and the three other tables are as before. *)
Theorem getConfigFromVector_footprint (cache : ConfigCache.t) (v : vector)
    (c : value) (cache' : ConfigCache.t) :
  getConfigFromVector cache v = Ok (c, cache') →
  filePathCache cache' = filePathCache cache
  ∧ localHierarchyCache cache' = localHierarchyCache cache
  ∧ mergedCache cache' = mergedCache cache
  ∧ (∀ key, key ≠ hash v →
       mergedVectorCache cache' !! key = mergedVectorCache cache !! key)
  ∧ (cache' = cache ∨ mergedVectorCache cache' !! hash v = Some c).
Proof.
  intros Hr.
  destruct (getConfigFromVector_frame _ _ _ _ Hr) as (Hf & Hl & Hm & Hother).
  split_and!; try done.
  destruct (getConfigFromVector_cache _ _ _ _ Hr) as [[-> _]|(_ & -> & _)].
  - by left.
  - right. unfold setMergedVectorConfig, setMergedVectorKey. simpl.
    by rewrite lookup_insert_eq.
Qed.

Lemma getConfigFromVector_footprint_witness :
  ∃ c cache',
    getConfigFromVector Sample.loaded_cache Sample.sample_vector
    = Ok (c, cache')
    ∧ filePathCache cache' = filePathCache Sample.loaded_cache
    ∧ mergedVectorCache cache' !! hash [VStr ""; VStr "/x/.eslintrc"]
      = mergedVectorCache Sample.loaded_cache
          !! hash [VStr ""; VStr "/x/.eslintrc"].
Proof.
  lazymatch evaluated
    (getConfigFromVector Sample.loaded_cache Sample.sample_vector) with
  | Ok (?c, ?cache') =>
      exists c, cache';
      assert (getConfigFromVector Sample.loaded_cache Sample.sample_vector
              = Ok (c, cache')) as Hr by by_evaluation;
      pose proof (getConfigFromVector_footprint Sample.loaded_cache
                    Sample.sample_vector c cache' Hr)
        as (Hf & _ & _ & Hother & _)
  end.
  split; [exact Hr|]. split; [exact Hf|]. apply Hother.
  intros Heq. vm_compute in Heq. discriminate Heq.
Defined.

Lemma probe_nothing cache v k :
  (∀ j, (1 ≤ j ≤ k)%nat →
        truthy (getMergedVectorConfig cache (take j v)) = false) →
  probe cache v k = None.
Proof.
  induction k as [|k IH]; intros Hall; [done|].
  simpl. rewrite Hall by lia. apply IH. intros j Hj. apply Hall. lia.
Qed.

Lemma fold_vector_sources key rest config sub cache c cache' :
  fold_vector key rest config sub cache = Ok (c, cache') →
  filePathCache cache' = filePathCache cache.
Proof.
  revert config sub cache. induction rest as [|t rest IH];
    intros config sub cache Hf.
  - by injection Hf as _ <-.
  - simpl in Hf. apply bind_Ok in Hf as (sc & _ & Hf).
    apply bind_Ok in Hf as (c1 & _ & Hf).
    by apply IH in Hf.
Qed.

Lemma fold_vector_cons key t rest config sub cache :
  fold_vector key (t :: rest) config sub cache
  = sc ← match t with
         | VStr s =>
             subConfigs ← get (getConfig cache s) "overrides";
             Ok (getConfig cache s, subConfigs)
         | _ => shallowConfig ← get_value sub t; Ok (shallowConfig, sub)
         end;
    config ← merge config sc.1 false false;
    fold_vector key rest (strip_bookkeeping config) sc.2
      (setMergedVectorConfig cache key (strip_bookkeeping config)).
Proof. by destruct t. Qed.

Lemma fold_vector_unknown key p rest : ∀ config sub cache,
  VStr p ∈ rest → filePathCache cache !! p = None →
  ∃ e, fold_vector key rest config sub cache = Throw e.
Proof.
  induction rest as [|t rest IH]; intros config sub cache Hin Hp.
  - by apply elem_of_nil in Hin.
  - apply elem_of_cons in Hin as [<-|Hin].
    + simpl. unfold getConfig. rewrite Hp. simpl. by eexists.
    + rewrite fold_vector_cons.
      match goal with
      | |- ∃ e, mbind ?f ?m = Throw e => destruct m as [sc|e]
      end; [|by exists e].
      cbn [mbind result_bind].
      destruct (merge config sc.1 false false) as [c1|e]; [|by exists e].
      cbn [mbind result_bind]. by apply IH.
Qed.

(** X17.  A vector that names a path the shallow-config table does not hold
    never gets a config: with no usable entry in the merged-vector table,
    [getConfigFromVector] throws. *)
Theorem getConfigFromVector_unknown_source (cache : ConfigCache.t)
    (v : vector) (p : string) :
  (∀ k, (1 ≤ k ≤ length v)%nat →
        truthy (getMergedVectorConfig cache (take k v)) = false) →
  VStr p ∈ v → filePathCache cache !! p = None →
  ∃ e, getConfigFromVector cache v = Throw e.
Proof.
  intros Hcold Hin Hp. unfold getConfigFromVector.
  rewrite probe_nothing by done. by apply (fold_vector_unknown _ p).
Qed.

(** The sample vector against a cache that only knows the base config. *)
Lemma getConfigFromVector_unknown_source_witness :
  ∃ e, getConfigFromVector
         (setConfig ConfigCache.init "" Sample.base_config)
         Sample.sample_vector = Throw e.
Proof.
  apply (getConfigFromVector_unknown_source _ _ "/x/.eslintrc").
  - intros k Hk. simpl in Hk.
    destruct k as [|[|[|[|k]]]]; try lia; reflexivity.
  - apply elem_of_cons. right. apply elem_of_cons. by left.
  - reflexivity.
Defined.

(** ** Reusing a cached prefix is sound *)

Lemma config_of_Ok {A} (r : result (value * A)) c :
  config_of r = Ok c ↔ ∃ x, r = Ok (c, x).
Proof.
  destruct r as [[c' x]|e]; simpl; split.
  - intros [= ->]. by exists x.
  - by intros (x' & [= -> _]).
  - done.
  - by intros (x & ?).
Qed.

Lemma fold_vector_pure key rest : ∀ config sub cache,
  config_of (fold_vector key rest config sub cache)
  = config_of (merged_from (filePathCache cache) rest config sub).
Proof.
  induction rest as [|t rest IH]; intros config sub cache; [done|].
  rewrite fold_vector_cons. cbn [merged_from].
  assert (match t with
          | VStr s =>
              subConfigs ← get (getConfig cache s) "overrides";
              Ok (getConfig cache s, subConfigs)
          | _ => shallowConfig ← get_value sub t; Ok (shallowConfig, sub)
          end
          = match t with
            | VStr s =>
                let shallowConfig := default VUndef (filePathCache cache !! s) in
                subConfigs ← get shallowConfig "overrides";
                Ok (shallowConfig, subConfigs)
            | _ => shallowConfig ← get_value sub t; Ok (shallowConfig, sub)
            end) as -> by by destruct t.
  match goal with
  | |- config_of (mbind _ ?m) = _ => destruct m as [sc|e]
  end; [|done].
  cbn [mbind result_bind].
  destruct (merge config sc.1 false false) as [c1|e]; [|done].
  cbn [mbind result_bind]. by rewrite IH.
Qed.

Lemma merged_from_app sources a : ∀ b config sub,
  merged_from sources (a ++ b) config sub
  = p ← merged_from sources a config sub; merged_from sources b p.1 p.2.
Proof.
  induction a as [|t a IH]; intros b config sub; [done|].
  cbn [app merged_from].
  match goal with
  | |- mbind _ ?m = _ => destruct m as [sc|e]
  end; [|done].
  cbn [mbind result_bind].
  destruct (merge config sc.1 false false) as [c1|e]; [|done].
  cbn [mbind result_bind]. by rewrite IH.
Qed.

(** After a string token the [subConfigs] carried in do not matter. *)
Lemma merged_from_path sources p rest config sub sub' :
  merged_from sources (VStr p :: rest) config sub
  = merged_from sources (VStr p :: rest) config sub'.
Proof. done. Qed.

Lemma merged_from_step sources t config sub c sub' :
  merged_from sources [t] config sub = Ok (c, sub') →
  match t with
  | VStr p => get (default VUndef (sources !! p)) "overrides" = Ok sub'
  | _ => sub' = sub ∧ sub ≠ VUndef
  end.
Proof.
  cbn [merged_from]. intros Hm.
  apply bind_Ok in Hm as (sc & Hsc & Hm).
  apply bind_Ok in Hm as (c1 & _ & [= _ <-]).
  destruct t as [| | |n|p| | |];
    try (apply bind_Ok in Hsc as (x & Hx & [= <-]); simpl;
         split; [done|]; intros ->; unfold get_value in Hx;
         by repeat case_match).
  cbv zeta in Hsc. apply bind_Ok in Hsc as (x & Hx & [= <-]). exact Hx.
Qed.

Lemma find_parent_skip t t' before :
  match t with VStr _ => False | _ => True end →
  find_parent t (t' :: before) = find_parent t' before.
Proof. by destruct t. Qed.

(** The [subConfigs] the loop ends with are the overrides of the source the
    backward walk of [getConfigFromVector] finds. *)
Lemma merged_from_parent (cache : ConfigCache.t) a : ∀ c sub',
  a ≠ [] →
  merged_from (filePathCache cache) a (VObj []) VUndef = Ok (c, sub') →
  match rev a with
  | t :: before =>
      get (getConfig_value cache (find_parent t before)) "overrides" = Ok sub'
  | [] => False
  end.
Proof.
  induction a as [|t a IH] using rev_ind; intros c sub' Hne Hm; [done|].
  rewrite merged_from_app in Hm.
  apply bind_Ok in Hm as ([c1 sub1] & Ha & Ht). simpl in Ht.
  apply merged_from_step in Ht.
  rewrite rev_app_distr. simpl rev. simpl app.
  assert ((∃ p, t = VStr p) ∨ match t with VStr _ => False | _ => True end)
    as [[p ->]|Hns] by (destruct t; eauto).
  - destruct (rev a); exact Ht.
  - assert (sub' = sub1 ∧ sub1 ≠ VUndef) as [-> Hsub] by by destruct t.
    destruct a as [|t' a' _] using rev_ind; [by injection Ha as _ <-|].
    specialize (IH c1 sub1). rewrite rev_app_distr in IH |- *.
    simpl in IH. simpl app. rewrite find_parent_skip by done.
    apply IH; [by destruct a'|done].
Qed.

Lemma probe_without_merged_vectors cache v k :
  probe (without_merged_vectors cache) v k = None.
Proof. induction k as [|k IH]; [done|]. simpl. by rewrite IH. Qed.

Lemma scratch_merged_from cache v :
  config_of (getConfigFromVector (without_merged_vectors cache) v)
  = config_of (merged_from (filePathCache cache) v (VObj []) VUndef).
Proof.
  unfold getConfigFromVector. rewrite probe_without_merged_vectors.
  by rewrite fold_vector_pure.
Qed.

(** X18.  Starting from the longest cached prefix gives what merging the
    whole vector from the empty config gives, as long as each cached prefix
    holds what merging that prefix from the empty config gives: the same
    config, or the same exception. *)
Theorem prefix_reuse_sound (cache : ConfigCache.t) (v : vector) :
  Forall (λ t, typeof t = "string" ∨ typeof t = "number") v →
  (∀ k, (1 ≤ k ≤ length v)%nat →
        truthy (getMergedVectorConfig cache (take k v)) = true →
        config_of (getConfigFromVector (without_merged_vectors cache)
                                       (take k v))
        = Ok (getMergedVectorConfig cache (take k v))) →
  config_of (getConfigFromVector cache v)
  = config_of (getConfigFromVector (without_merged_vectors cache) v).
Proof.
  intros Htok Hcoherent. rewrite scratch_merged_from.
  unfold getConfigFromVector.
  destruct (probe cache v (length v)) as [[k e]|] eqn:Hp;
    [|by rewrite fold_vector_pure].
  apply probe_Some in Hp as (Hk & He & Ht).
  specialize (Hcoherent k Hk). rewrite He in Hcoherent.
  specialize (Hcoherent Ht). rewrite scratch_merged_from in Hcoherent.
  apply config_of_Ok in Hcoherent as (sub_a & Ha).
  assert (merged_from (filePathCache cache) v (VObj []) VUndef
          = p ← merged_from (filePathCache cache) (take k v) (VObj []) VUndef;
            merged_from (filePathCache cache) (drop k v) p.1 p.2) as ->
    by by rewrite <- merged_from_app, take_drop.
  rewrite Ha.
  cbn [mbind result_bind fst snd].
  destruct (Nat.eqb_spec k (length v)) as [->|Hlt].
  { by rewrite drop_all. }
  assert (k < length v)%nat as Hlt' by lia.
  match goal with
  | |- context [match ?x with Some _ => _ | None => _ end] =>
      destruct x as [t|] eqn:Hvk
  end; [|apply lookup_ge_None in Hvk; lia].
  rewrite (drop_S v t k Hvk).
  assert (take k v ≠ []) as Hne.
  { intros Hnil. apply (f_equal length) in Hnil.
    rewrite length_take in Hnil. simpl in Hnil. lia. }
  pose proof (merged_from_parent cache (take k v) e sub_a Hne Ha) as Hparent.
  pose proof (proj1 (Forall_forall _ _) Htok t
                (list_elem_of_lookup_2 _ _ _ Hvk)) as Hty.
  destruct t as [| | |n|p| | |]; try (by destruct Hty).
  - destruct (rev (take k v)) as [|t' before]; [done|].
    rewrite Hparent. cbn [mbind result_bind]. by rewrite fold_vector_pure.
  - cbn [mbind result_bind]. rewrite fold_vector_pure.
    by rewrite (merged_from_path _ p _ e VUndef sub_a).
Qed.

(** The sample vector against the cache of the sample project: the base
    config is cached under the key of the one-token vector, and it is what
    merging that vector from the empty config gives. *)
Lemma prefix_reuse_sound_witness :
  config_of (getConfigFromVector Sample.loaded_cache Sample.sample_vector)
  = config_of (getConfigFromVector
                 (without_merged_vectors Sample.loaded_cache)
                 Sample.sample_vector).
Proof.
  apply prefix_reuse_sound.
  - repeat (apply Forall_cons; split; [by auto|]). constructor.
  - intros k Hk Ht. simpl in Hk.
    destruct k as [|[|[|[|k]]]]; try lia;
      first [by_evaluation|vm_compute in Ht; discriminate Ht].
Defined.

(** ** The walk up the directory tree *)

Section Walk.
Context `{FileSystem}.

(** What the loop keeps true of its three accumulators: the root path is
    the directory of the last root config collected, every directory
    searched after a root config is inside the directory of the nearest
    root before it, and the home directory is searched only for the
    project's own config file. *)
Lemma walk_invariant project : ∀ files configs searched rootPath cache,
  let inv (configs : list value) (searched : list string)
          (rootPath : option string) :=
    length configs = length searched
    ∧ (∀ r c_r d_r,
         configs !! r = Some c_r → is_root c_r = true →
         searched !! r = Some d_r →
         (∀ m c_m, (r < m)%nat → configs !! m = Some c_m →
                   is_root c_m = false) →
         rootPath = Some d_r)
    ∧ (∀ r j c_r d_r d_j,
         (r < j)%nat → configs !! r = Some c_r → is_root c_r = true →
         searched !! r = Some d_r → d_r ≠ "" →
         searched !! j = Some d_j →
         (∀ m c_m, (r < m < j)%nat → configs !! m = Some c_m →
                   is_root c_m = false) →
         pathIsInside d_j d_r = true)
    ∧ (∀ d, d ∈ searched → Some d = Config.PERSONAL_CONFIG_DIR →
            ∃ f, project = Some f ∧ dirname f = d) in
  inv configs searched rootPath →
  ∃ rootPath',
    inv (Config.w_configs
           (Config.walk project files configs searched rootPath cache))
        (Config.w_searched
           (Config.walk project files configs searched rootPath cache))
        rootPath'.
Proof.
  intros files configs searched rootPath cache inv. subst inv. cbv beta.
  revert configs searched rootPath cache.
  induction files as [|f files IH]; intros configs searched rootPath cache
    Hinv; cbn [Config.walk]; [by exists rootPath|].
  destruct (getHierarchyLocalConfigs cache (dirname f)); [by exists rootPath|].
  destruct (_ && _) eqn:Hskip; [by apply IH|].
  destruct (match rootPath with Some _ => _ | None => _ end) eqn:Hcheck;
    [by apply IH|].
  destruct (Config.loadCached cache f) as [localConfig cache1].
  destruct (negb (truthy localConfig)); [by apply IH|].
  apply IH. clear IH.
  destruct Hinv as (Hlen & Hroot & Hin & Hhome). split_and!.
  - rewrite !length_app. simpl. lia.
  - intros r c_r d_r Hc Hr Hd Hlast.
    destruct (decide (r < length configs)%nat) as [Hlt|Hge].
    + rewrite lookup_app_l in Hc by done.
      rewrite lookup_app_l in Hd by lia.
      assert (is_root localConfig = false) as Hn.
      { apply (Hlast (length configs)); [done|].
        by rewrite lookup_app_r, Nat.sub_diag by lia. }
      unfold is_root in Hn. rewrite Hn.
      apply (Hroot r c_r d_r Hc Hr Hd).
      intros m c_m Hm Hcm. apply (Hlast m); [done|].
      rewrite lookup_app_l; [done|]. by eapply lookup_lt_Some.
    + pose proof (lookup_lt_Some _ _ _ Hc) as Hb.
      rewrite length_app in Hb. simpl in Hb.
      assert (r = length configs) as -> by lia.
      rewrite lookup_app_r, Nat.sub_diag in Hc by lia.
      rewrite Hlen, lookup_app_r, Nat.sub_diag in Hd by lia.
      injection Hc as <-. injection Hd as <-.
      unfold is_root in Hr. by rewrite Hr.
  - intros r j c_r d_r d_j Hrj Hc Hr Hd Hne Hj Hbetween.
    pose proof (lookup_lt_Some _ _ _ Hj) as Hb.
    rewrite length_app in Hb. simpl in Hb.
    assert (r < length configs)%nat as Hlt by lia.
    rewrite lookup_app_l in Hc by done. rewrite lookup_app_l in Hd by lia.
    destruct (decide (j < length searched)%nat) as [Hjl|Hjg].
    + rewrite lookup_app_l in Hj by done.
      apply (Hin r j c_r d_r d_j); try done.
      intros m c_m Hm Hcm. apply (Hbetween m); [done|].
      rewrite lookup_app_l; [done|]. lia.
    + assert (j = length searched) as -> by lia.
      rewrite lookup_app_r, Nat.sub_diag in Hj by lia. injection Hj as <-.
      assert (rootPath = Some d_r) as ->.
      { apply (Hroot r c_r d_r Hc Hr Hd).
        intros m c_m Hm Hcm. apply (Hbetween m).
        - apply lookup_lt_Some in Hcm. lia.
        - rewrite lookup_app_l; [done|]. by eapply lookup_lt_Some. }
      destruct (String.eqb_spec d_r ""); [done|].
      by destruct (pathIsInside (dirname f) d_r).
  - intros d [Hd| ->%list_elem_of_singleton]%elem_of_app Hp.
    + by apply Hhome.
    + rewrite bool_decide_eq_true_2 in Hskip by done. simpl in Hskip.
      apply negb_false_iff, bool_decide_eq_true in Hskip.
      by exists f.
Qed.

(** X19.  Root truncation during the walk.  Among the configs the loop of
    [getLocalConfigHierarchy] collects, whatever cache it starts from, every
    one that comes after a config with [root: true] was found in a directory
    inside the directory of the nearest such config before it. *)
Theorem walk_stays_inside_root (project : option string) (files : list string)
    (cache : ConfigCache.t) (r j : nat) (c_r : value) (d_r d_j : string) :
  let w := Config.walk project files [] [] None cache in
  (r < j)%nat →
  Config.w_configs w !! r = Some c_r → is_root c_r = true →
  Config.w_searched w !! r = Some d_r → d_r ≠ "" →
  Config.w_searched w !! j = Some d_j →
  (∀ m c_m, (r < m < j)%nat → Config.w_configs w !! m = Some c_m →
            is_root c_m = false) →
  pathIsInside d_j d_r = true.
Proof.
  intros w.
  destruct (walk_invariant project files [] [] None cache)
    as (rootPath' & _ & _ & Hin & _).
  { split_and!; try done. intros d Hd. by apply elem_of_nil in Hd. }
  apply Hin.
Qed.

(** X20.  The home directory is not part of the walk: a config file in the
    directory of the personal config is used as a local config only when it
    is the config file of the project itself. *)
Theorem walk_skips_home (project : option string) (files : list string)
    (cache : ConfigCache.t) (d : string) :
  d ∈ Config.w_searched (Config.walk project files [] [] None cache) →
  Some d = Config.PERSONAL_CONFIG_DIR →
  ∃ f, project = Some f ∧ dirname f = d.
Proof.
  destruct (walk_invariant project files [] [] None cache)
    as (rootPath' & _ & _ & _ & Hhome).
  { split_and!; try done. intros d' Hd. by apply elem_of_nil in Hd. }
  apply Hhome.
Qed.

End Walk.

(** The same config file twice in the list: the second copy is in the
    root's own directory, which counts as inside. *)
Lemma walk_stays_inside_root_witness :
  Config.w_searched
    (Config.walk (Some "/x/.eslintrc") ["/x/a/.eslintrc"; "/x/a/.eslintrc"]
                 [] [] None ConfigCache.init)
  = ["/x/a"; "/x/a"]
  ∧ pathIsInside "/x/a" "/x/a" = true.
Proof.
  split; [by_evaluation|].
  refine (walk_stays_inside_root (Some "/x/.eslintrc")
            ["/x/a/.eslintrc"; "/x/a/.eslintrc"] ConfigCache.init
            0 1 Sample.root_config "/x/a" "/x/a" _ _ _ _ _ _ _);
    [lia|by_evaluation|by_evaluation|by_evaluation|discriminate|by_evaluation|].
  intros m c_m Hm. lia.
Defined.

(** With the project in the home directory, its config file is used. *)
Lemma walk_skips_home_witness :
  "/x" ∈ Config.w_searched
           (@Config.walk home_is_project (Some "/x/.eslintrc")
              ["/x/.eslintrc"] [] [] None ConfigCache.init)
  ∧ ∃ f, Some "/x/.eslintrc" = Some f ∧ @dirname home_is_project f = "/x".
Proof.
  assert ("/x" ∈ Config.w_searched
                   (@Config.walk home_is_project (Some "/x/.eslintrc")
                      ["/x/.eslintrc"] [] [] None ConfigCache.init)) as Hin.
  { assert (Config.w_searched
              (@Config.walk home_is_project (Some "/x/.eslintrc")
                 ["/x/.eslintrc"] [] [] None ConfigCache.init) = ["/x"])
      as -> by by_evaluation.
    by left. }
  split; [exact Hin|].
  exact (@walk_skips_home home_is_project (Some "/x/.eslintrc")
           ["/x/.eslintrc"] ConfigCache.init "/x" Hin eq_refl).
Defined.

(** ** Without config files *)

Section WithoutConfigFiles.
Context `{GlobMatcher} `{EnvironmentRegistry} `{FileSystem}.

Lemma constructor_without_base o self cache :
  truthy (Config.opt_baseConfig o) = false →
  Config.opt_configFile o = None →
  Config.constructor o = Ok (self, cache) →
  Config.baseConfig self
  = VObj [("rules", VObj []); ("filePath", VStr "");
          ("baseDirectory", VStr (Config.cwd o))]
  ∧ Config.useEslintrc self
    = negb (strict_eq (VBool false) (Config.opt_useEslintrc o))
  ∧ Config.useSpecificConfig self = VUndef.
Proof.
  intros Hb Hf. unfold Config.constructor. rewrite Hb, Hf.
  cbn [mbind mret result_bind result_ret]. by intros [= <- _].
Qed.

(** X21.  With [useEslintrc: false], no config file on the command line and
    no base config, every file has the vector that names the base config
    alone, building it changes nothing, and once one file has its config
    every other file gets that same config from the cache. *)
Theorem without_config_files_one_config (o : Config.options)
    (self : Config.t) (cache0 : ConfigCache.t) :
  Config.constructor o = Ok (self, cache0) →
  Config.opt_useEslintrc o = VBool false →
  Config.opt_configFile o = None →
  truthy (Config.opt_baseConfig o) = false →
  ∀ cache file,
    Config.getConfigVector self cache file = Ok ([VStr ""], self, cache)
    ∧ ∀ c self1 cache1 file',
        Config.getConfig self cache file = Ok (c, self1, cache1) →
        self1 = self
        ∧ Config.getConfig self cache1 file' = Ok (c, self, cache1).
Proof.
  intros Hc Hu Hf Hb.
  destruct (constructor_without_base o self cache0 Hb Hf Hc)
    as (Hbase & Huse & Hspec).
  rewrite Hu in Huse. simpl in Huse.
  assert (∀ cache file,
            Config.getConfigVector self cache file
            = Ok ([VStr ""], self, cache)) as Hv.
  { intros cache file. unfold Config.getConfigVector, Config.getConfigHierarchy.
    rewrite Huse. cbn [mbind result_bind]. rewrite Hspec, Hbase. done. }
  intros cache file. split; [apply Hv|].
  intros c self1 cache1 file' Hg.
  apply getConfig_inv in Hg as (v & cache' & Hgv & Hfv).
  rewrite Hv in Hgv. injection Hgv as <- <- <-. split; [done|].
  unfold Config.getConfig. rewrite Hv. cbn [mbind result_bind].
  destruct (getConfigForVector_cached _ _ _ _ _ Hfv) as [Hin Ht].
  unfold Config.getConfigForVector, getMergedConfig. rewrite Hin. simpl.
  by rewrite Ht.
Qed.

End WithoutConfigFiles.

Lemma without_config_files_one_config_witness :
  ∃ self cache0 c cache1,
    Config.constructor Sample.no_eslintrc_options = Ok (self, cache0)
    ∧ Config.getConfigVector self cache0 (Some "/x/src/a.ts")
      = Ok ([VStr ""], self, cache0)
    ∧ Config.getConfig self cache0 (Some "/x/src/a.ts") = Ok (c, self, cache1)
    ∧ Config.getConfig self cache1 (Some "/x/a/b.js") = Ok (c, self, cache1).
Proof.
  lazymatch evaluated (Config.constructor Sample.no_eslintrc_options) with
  | Ok (?self, ?cache0) =>
      lazymatch evaluated (Config.getConfig self cache0 (Some "/x/src/a.ts"))
      with
      | Ok (?c, _, ?cache1) =>
          exists self, cache0, c, cache1;
          assert (Config.constructor Sample.no_eslintrc_options
                  = Ok (self, cache0)) as Hc by by_evaluation;
          assert (Config.getConfig self cache0 (Some "/x/src/a.ts")
                  = Ok (c, self, cache1)) as Hg by by_evaluation;
          pose proof (without_config_files_one_config
                        Sample.no_eslintrc_options self cache0 Hc
                        eq_refl eq_refl eq_refl cache0 (Some "/x/src/a.ts"))
            as [Hv Hsame];
          split_and!;
            [ exact Hc | exact Hv | exact Hg
            | exact (proj2 (Hsame _ _ _ (Some "/x/a/b.js") Hg)) ]
      end
  end.
Defined.

(** ** The vectors of a run *)

Section VectorsOfARun.
Context `{GlobMatcher} `{EnvironmentRegistry} `{FileSystem} `{!FileSystemContract}.

(** X22.  Every vector built in a run of the resolver has the same shape:
    the empty path of the base config first, then paths of loaded config
    files, none of them made of digits and commas only, and override
    indices that are natural numbers. *)
Theorem getConfigVector_shape (o : Config.options) self0 cache0 self cache
    file v self' cache' :
  (truthy (Config.opt_baseConfig o) = true →
   base_source (ConfigFile_loadObject (Config.opt_baseConfig o))) →
  Config.constructor o = Ok (self0, cache0) →
  rtc resolves (self0, cache0) (self, cache) →
  Config.getConfigVector self cache file = Ok (v, self', cache') →
  ∃ tail, v = VStr "" :: tail
          ∧ Forall (λ t, (∃ p, t = VStr p ∧ base_key p = false)
                         ∨ (∃ n : nat, t = VNum (Z.of_nat n))) tail.
Proof.
  intros Hbase Hc Hrun Hv.
  pose proof (constructor_ok _ _ _ Hbase Hc) as Hok.
  pose proof (run_ok _ _ Hok Hrun) as Hok'.
  by destruct (getConfigVector_ok _ _ _ _ _ _ Hok' Hv) as [_ Hvec].
Qed.

End VectorsOfARun.

Lemma getConfigVector_shape_witness :
  ∃ self cache self' cache' tail,
    Config.constructor Sample.sample_options = Ok (self, cache)
    ∧ Config.getConfigVector self cache (Some "/x/src/a.ts")
      = Ok (VStr "" :: tail, self', cache')
    ∧ Forall (λ t, (∃ p, t = VStr p ∧ base_key p = false)
                   ∨ (∃ n : nat, t = VNum (Z.of_nat n))) tail.
Proof.
  lazymatch evaluated (Config.constructor Sample.sample_options) with
  | Ok (?self, ?cache) =>
      lazymatch evaluated
        (Config.getConfigVector self cache (Some "/x/src/a.ts")) with
      | Ok (VStr "" :: ?tail, ?self', ?cache') =>
          exists self, cache, self', cache', tail;
          assert (Config.constructor Sample.sample_options = Ok (self, cache))
            as Hc by by_evaluation;
          assert (Config.getConfigVector self cache (Some "/x/src/a.ts")
                  = Ok (VStr "" :: tail, self', cache')) as Hv by by_evaluation;
          split; [exact Hc|]; split; [exact Hv|];
          pose proof (getConfigVector_shape Sample.sample_options self cache
                      self cache (Some "/x/src/a.ts") (VStr "" :: tail)
                      self' cache'
                      (λ Hb, False_ind _ (Bool.diff_false_true Hb)) Hc
                      (rtc_refl _ _) Hv) as (tail' & Heq & Htail);
          injection Heq as <-; exact Htail
      end
  end.
Defined.

(** ** Globals declared on the command line *)

Lemma split_on_nonempty sep s : Config.split_on sep s ≠ [].
Proof.
  destruct s as [|c s]; simpl; [done|].
  destruct (Ascii.eqb c sep); [done|]. by destruct (Config.split_on sep s).
Qed.

Lemma split_on_colon_free name :
  colon_free name = true → Config.split_on Config.SUBCONFIG_SEP name = [name].
Proof.
  induction name as [|c name IH]; [done|].
  unfold colon_free. simpl. intros [Hc Hn]%andb_true_iff.
  apply negb_true_iff in Hc. rewrite Hc, (IH Hn). done.
Qed.

Lemma split_on_declaration name rest :
  colon_free name = true →
  Config.split_on Config.SUBCONFIG_SEP (name +:+ ":" +:+ rest)
  = name :: Config.split_on Config.SUBCONFIG_SEP rest.
Proof.
  induction name as [|c name IH]; [done|].
  unfold colon_free. simpl. intros [Hc Hn]%andb_true_iff.
  apply negb_true_iff in Hc. rewrite Hc, (IH Hn). done.
Qed.

(** One turn of the loop over [options.globals]. *)
Local Abbreviation declare := (λ (globals : obj) (def : string),
  let parts := Config.split_on Config.SUBCONFIG_SEP def in
  obj_set (List.hd "" parts)
    (VBool ((1 <? length parts)%nat
            && strict_eq (VStr "true") (arr_get 1 (map VStr parts))))
    globals).

Lemma declare_others (after : list string) (globals : obj) name :
  Forall (λ later, declared_name later ≠ name) after →
  obj_get name (foldl declare globals after) = obj_get name globals.
Proof.
  revert globals. induction after as [|def after IH]; intros globals Hall;
    [done|].
  apply Forall_cons in Hall as [Hdef Hall].
  change (foldl declare globals (def :: after))
    with (foldl declare (declare globals def) after).
  rewrite IH by done. cbv beta zeta. by rewrite obj_get_set_ne.
Qed.

Section DeclaredGlobals.
Context `{FileSystem}.

Lemma constructor_globals o self cache :
  Config.constructor o = Ok (self, cache) →
  Config.globals self = VObj (foldl declare [] (Config.opt_globals o)).
Proof.
  unfold Config.constructor. intros Hr.
  apply bind_Ok in Hr as (b & _ & Hr).
  destruct (match Config.opt_configFile o with
            | Some _ => _
            | None => _
            end) as [specific cache1].
  by injection Hr as <- _.
Qed.

(** X23.  How a [globals] option is read.  The name is what precedes the
    first colon, and the global is writable exactly when what stands between
    the first colon and the next is the text "true"; a bare name is
    read-only.  Of several options for one name the last decides.  The name
    is not [__proto__]: an assignment under that name goes to the accessor
    the object inherits and declares nothing. *)
Theorem constructor_declared_globals (o : Config.options) (self : Config.t)
    (cache : ConfigCache.t) (before after : list string) (name : string) :
  Config.constructor o = Ok (self, cache) →
  colon_free name = true → name ≠ "__proto__" →
  Forall (λ later, declared_name later ≠ name) after →
  (Config.opt_globals o = before ++ name :: after →
   prop (Config.globals self) name = VBool false)
  ∧ (∀ rest,
       Config.opt_globals o = before ++ (name +:+ ":" +:+ rest) :: after →
       prop (Config.globals self) name
       = VBool (String.eqb "true" (declared_name rest))).
Proof.
  intros Hc Hname _ Hafter. rewrite (constructor_globals _ _ _ Hc). split.
  - intros ->. rewrite foldl_app.
    change (foldl declare ?a (name :: after))
      with (foldl declare (declare a name) after).
    simpl prop. rewrite declare_others by done. cbv beta zeta.
    rewrite split_on_colon_free by done. simpl. by rewrite obj_get_set_eq.
  - intros rest ->. rewrite foldl_app.
    change (foldl declare ?a ((name +:+ ":" +:+ rest) :: after))
      with (foldl declare (declare a (name +:+ ":" +:+ rest)) after).
    simpl prop. rewrite declare_others by done. cbv beta zeta.
    rewrite split_on_declaration by done.
    change (List.hd "" (name :: ?l)) with name.
    rewrite obj_get_set_eq. unfold declared_name.
    pose proof (split_on_nonempty Config.SUBCONFIG_SEP rest) as Hne.
    by destruct (Config.split_on Config.SUBCONFIG_SEP rest).
Qed.

End DeclaredGlobals.

(** [jQuery:true] declares a writable global, [process] a read-only one. *)
Lemma constructor_declared_globals_witness :
  ∃ self cache,
    Config.constructor globals_options = Ok (self, cache)
    ∧ prop (Config.globals self) "jQuery" = VBool true
    ∧ prop (Config.globals self) "process" = VBool false.
Proof.
  assert (Forall (λ later, declared_name later ≠ "jQuery") ["process"])
    as Hafter.
  { apply Forall_cons. split; [|constructor].
    intros Heq. vm_compute in Heq. discriminate Heq. }
  assert ("jQuery" ≠ "__proto__" ∧ "process" ≠ "__proto__") as [Hjq Hpr]
    by (split; discriminate).
  lazymatch evaluated (Config.constructor globals_options) with
  | Ok (?self, ?cache) =>
      exists self, cache;
      assert (Config.constructor globals_options = Ok (self, cache))
        as Hc by by_evaluation;
      pose proof (constructor_declared_globals globals_options self cache
                    [] ["process"] "jQuery" Hc eq_refl Hjq Hafter) as [_ Hj];
      pose proof (constructor_declared_globals globals_options self cache
                    ["jQuery:true"] [] "process" Hc eq_refl Hpr
                    (Forall_nil_2 _))
        as [Hp _];
      split; [exact Hc|]; split;
        [exact (Hj "true" eq_refl)|exact (Hp eq_refl)]
  end.
Defined.

(** ** The parser key of a merged config *)

Lemma merge_array_result target src combine isRule d :
  isArray src || isArray target = true →
  merge target src combine isRule = Ok d → ∃ l, d = VArr l.
Proof.
  destruct src; simpl; destruct (isArray target) eqn:Ht; simpl; try done;
    unfold merge_wrapped; intros _ Hm;
    repeat match goal with
    | H : _ ≫= _ = Ok _ |- _ => apply bind_Ok in H as (? & ? & H)
    | H : Ok _ = Ok _ |- _ => injection H as <-
    | H : Throw _ = Ok _ |- _ => discriminate H
    end; eauto.
Qed.

Lemma merge_object_result target src combine isRule d :
  isArray src || isArray target = false →
  merge target src combine isRule = Ok d → ∃ o, d = VObj o.
Proof.
  destruct src; simpl; destruct (isArray target) eqn:Ht; simpl; try done;
    intros _ Hm;
    repeat match goal with
    | H : _ ≫= _ = Ok _ |- _ => apply bind_Ok in H as (? & ? & H)
    | H : Ok _ = Ok _ |- _ => injection H as <-
    | H : Throw _ = Ok _ |- _ => discriminate H
    end; eauto.
Qed.

(** A merge that returns an object returns one with every key of the
    source. *)
Lemma merge_has_source_keys target (s : obj) combine isRule (o : obj) k :
  merge target (VObj s) combine isRule = Ok (VObj o) →
  is_Some (obj_get k s) → is_Some (obj_get k o).
Proof.
  intros Hm Hk.
  destruct (isArray target) eqn:Ht.
  { apply merge_array_result in Hm as [l ?]; [done|by rewrite Ht]. }
  rewrite merge_object_unfold in Hm by done.
  apply bind_Ok in Hm as (dst & Hl & [= <-]).
  apply (object_loop_keys _ _ _ _ _ _ k) in Hl. apply Hl. right.
  rewrite src_entries_keys. by apply obj_get_is_Some.
Qed.

Lemma has_key_truthy_prop config k :
  truthy (prop config k) = true → base_key k = false → k ≠ "length" →
  has_key k config = true.
Proof.
  intros Ht Hk Hl.
  destruct (truthy_named_prop config k (prop config k)) as [o ->]; try done.
  - by destruct config.
  - apply has_key_obj. simpl in Ht. by destruct (obj_get k o).
Qed.

Section ParserKey.
Context `{EnvironmentRegistry}.

Lemma applyEnvironments_keeps_keys (o : obj) d k :
  applyEnvironments (VObj o) = Ok d →
  has_key k (VObj o) = true → has_key k d = true.
Proof.
  unfold applyEnvironments. intros Ha Hk.
  apply bind_Ok in Ha as (env & _ & Ha).
  destruct (truthy env && String.eqb (typeof env) "object");
    [|by injection Ha as <-].
  pose proof Ha as Hd. apply merge_object_result in Hd as [o' ->]; [|done].
  apply has_key_obj. eapply merge_has_source_keys; [exact Ha|].
  by apply has_key_obj.
Qed.

Lemma applyEnvironments_array (l : list value) :
  applyEnvironments (VArr l) = Ok (VArr l).
Proof.
  unfold applyEnvironments.
  change (get (VArr l) "env") with (Ok (prop (VArr l) "env")).
  by rewrite prop_named.
Qed.

(** The steps of [getConfig] after the vector has been merged. *)
Lemma finish_pinned (self : Config.t) c0 c1 c2 c3 :
  merge c0 (Config.cliConfig self) false false = Ok c1 →
  (if truthy (Config.parser self) || negb (truthy (prop c1 "parser"))
   then merge c1 (VObj [("parser", Config.parser self)]) false false
   else Ok c1) = Ok c2 →
  (if truthy (prop c2 "env") then applyEnvironments c2 else Ok c2) = Ok c3 →
  parser_pinned c3.
Proof.
  intros H1 H2 H3.
  assert (parser_pinned c2) as [[l ->]|Hk].
  { destruct (merge_composite _ _ _ _ _ H1) as [[l ->]|[o ->]].
    - left. destruct (_ || _); [|injection H2 as <-; by eexists].
      by apply merge_array_result in H2.
    - right. destruct (truthy (Config.parser self)
                       || negb (truthy (prop (VObj o) "parser"))) eqn:Hc.
      + pose proof H2 as Hd.
        apply merge_object_result in Hd as [o' ->]; [|done].
        apply has_key_obj. eapply merge_has_source_keys; [exact H2|].
        by eexists.
      + injection H2 as <-. apply orb_false_iff in Hc as [_ Hc].
        apply negb_false_iff in Hc. by apply has_key_truthy_prop. }
  - left. rewrite prop_named in H3 by done. injection H3 as <-. by eexists.
  - right. destruct c2 as [| | | | | | |o2]; try done.
    destruct (truthy (prop (VObj o2) "env")); [|by injection H3 as <-].
    by eapply applyEnvironments_keeps_keys.
Qed.

Lemma getConfigForVector_pinned self cache v c cache' :
  (∀ key e, mergedCache cache !! key = Some e → truthy e = true →
            parser_pinned e) →
  Config.getConfigForVector self cache v = Ok (c, cache') →
  parser_pinned c
  ∧ (∀ key e, mergedCache cache' !! key = Some e → truthy e = true →
              parser_pinned e).
Proof.
  intros Htable. unfold Config.getConfigForVector.
  destruct (truthy (getMergedConfig cache v)) eqn:Hhit.
  - intros [= <- <-]. split; [|done].
    unfold getMergedConfig in *.
    destruct (mergedCache cache !! hash v) as [e|] eqn:He; [|done].
    by eapply Htable.
  - intros Hr. apply bind_Ok in Hr as ([c0 cache0] & Hv & Hr).
    apply bind_Ok in Hr as (c1 & H1 & Hr).
    apply bind_Ok in Hr as (parser' & Hp & Hr).
    apply bind_Ok in Hr as (c2 & H2 & Hr).
    apply bind_Ok in Hr as (env & He & Hr).
    apply bind_Ok in Hr as (c3 & H3 & [= <- <-]).
    assert (parser' = prop c1 "parser") as ->.
    { pose proof (merge_truthy _ _ _ _ _ H1).
      destruct c1; try done; by injection Hp. }
    assert (env = prop c2 "env") as ->.
    { assert (truthy c2 = true).
      { destruct (_ || _); [by eapply merge_truthy|].
        injection H2 as <-. by eapply merge_truthy. }
      destruct c2; try done; by injection He. }
    pose proof (finish_pinned self c0 c1 c2 c3 H1 H2 H3) as Hpin.
    split; [done|]. intros key e. simpl.
    destruct (getConfigFromVector_frame _ _ _ _ Hv) as (_ & _ & Hm & _).
    destruct (decide (key = hash v)) as [->|Hne].
    + rewrite lookup_insert_eq. by intros [= <-].
    + rewrite lookup_insert_ne, Hm by done. apply Htable.
Qed.

End ParserKey.

Section ParserKeyOfARun.
Context `{GlobMatcher} `{EnvironmentRegistry} `{FileSystem}.

Lemma constructor_merged_empty o self cache :
  Config.constructor o = Ok (self, cache) → mergedCache cache = ∅.
Proof.
  unfold Config.constructor. intros Hr.
  apply bind_Ok in Hr as (b & _ & Hr).
  destruct (Config.opt_configFile o) as [useConfig|].
  - destruct (String.eqb useConfig ""); [by injection Hr as _ <-|].
    match type of Hr with
    | context [Config.loadCached ?c ?p] =>
        pose proof (loadCached_merged c p) as [Hm _];
        destruct (Config.loadCached c p) as [specific cache1]
    end.
    injection Hr as _ <-. simpl in Hm. by rewrite Hm.
  - by injection Hr as _ <-.
Qed.

Lemma run_pinned s s' :
  (∀ key e, mergedCache s.2 !! key = Some e → truthy e = true →
            parser_pinned e) →
  rtc resolves s s' →
  ∀ key e, mergedCache s'.2 !! key = Some e → truthy e = true →
           parser_pinned e.
Proof.
  intros Htable Hrun. induction Hrun as [s|s1 s2 s3 Hstep _ IH]; [done|].
  apply IH. clear IH.
  inversion Hstep as [self cache file c self' cache' Hg]; subst. simpl in *.
  apply getConfig_inv in Hg as (v & cache1 & Hgv & Hfv).
  apply getConfigVector_merged in Hgv as [Hm _].
  refine (proj2 (getConfigForVector_pinned self' cache1 v c cache' _ Hfv)).
  by rewrite Hm.
Qed.

(** X24.  Every config [getConfig] returns in a run of the resolver, computed
    or taken from the cache, is an object with a [parser] key, unless a
    merge on the way met an array and the result is an array. *)
Theorem getConfig_has_parser (o : Config.options) self0 cache0 self cache
    file c self' cache' :
  Config.constructor o = Ok (self0, cache0) →
  rtc resolves (self0, cache0) (self, cache) →
  Config.getConfig self cache file = Ok (c, self', cache') →
  (∃ l, c = VArr l) ∨ has_key "parser" c = true.
Proof.
  intros Hc Hrun Hg.
  apply getConfig_inv in Hg as (v & cache1 & Hgv & Hfv).
  apply getConfigVector_merged in Hgv as [Hm _].
  refine (proj1 (getConfigForVector_pinned self' cache1 v c cache' _ Hfv)).
  rewrite Hm.
  apply (run_pinned (self0, cache0) (self, cache)); [|done].
  simpl. rewrite (constructor_merged_empty _ _ _ Hc). by intros key e.
Qed.

End ParserKeyOfARun.

Lemma getConfig_has_parser_witness :
  ∃ self cache c self' cache',
    Config.constructor Sample.sample_options = Ok (self, cache)
    ∧ Config.getConfig self cache (Some "/x/src/a.ts") = Ok (c, self', cache')
    ∧ has_key "parser" c = true.
Proof.
  lazymatch evaluated (Config.constructor Sample.sample_options) with
  | Ok (?self, ?cache) =>
      lazymatch evaluated (Config.getConfig self cache (Some "/x/src/a.ts"))
      with
      | Ok (?c, ?self', ?cache') =>
          exists self, cache, c, self', cache';
          assert (Config.constructor Sample.sample_options = Ok (self, cache))
            as Hc by by_evaluation;
          assert (Config.getConfig self cache (Some "/x/src/a.ts")
                  = Ok (c, self', cache')) as Hg by by_evaluation;
          pose proof (getConfig_has_parser Sample.sample_options self cache
                        self cache (Some "/x/src/a.ts") c self' cache'
                        Hc (rtc_refl _ _) Hg) as [[l Hl]|Hk];
          [discriminate Hl|];
          split; [exact Hc|]; split; [exact Hg|exact Hk]
      end
  end.
Defined.

(** ** Asking again *)

Section Again.
Context `{GlobMatcher} `{EnvironmentRegistry} `{FileSystem}.

Lemma stays_falsy_refl c : stays_falsy c c.
Proof. by intros p. Qed.

Lemma stays_falsy_trans c1 c2 c3 :
  stays_falsy c1 c2 → stays_falsy c2 c3 → stays_falsy c1 c3.
Proof. intros H12 H23 p Hl Hc. apply H23; [done|]. by apply H12. Qed.

Lemma loadCached_stays cache q : stays_falsy cache (Config.loadCached cache q).2.
Proof.
  intros p Hl Hc. unfold Config.loadCached.
  destruct (truthy (getConfig cache q)); [done|].
  destruct (truthy (ConfigFile_load q)) eqn:Hq; [|done].
  simpl. unfold getConfig. simpl.
  destruct (decide (p = q)) as [->|Hne]; [congruence|].
  by rewrite lookup_insert_ne.
Qed.

Lemma loadCached_hierarchy cache q :
  localHierarchyCache (Config.loadCached cache q).2 = localHierarchyCache cache.
Proof. unfold Config.loadCached. by repeat case_match. Qed.

Lemma loadCached_falsy cache f :
  truthy (Config.loadCached cache f).1 = false →
  (Config.loadCached cache f).2 = cache
  ∧ truthy (getConfig cache f) = false
  ∧ truthy (ConfigFile_load f) = false.
Proof.
  unfold Config.loadCached.
  destruct (truthy (getConfig cache f)) eqn:Hc; simpl; [congruence|].
  destruct (truthy (ConfigFile_load f)) eqn:Hl; simpl; [congruence|done].
Qed.

Lemma loadCached_again cache cache2 f :
  stays_falsy cache cache2 →
  truthy (Config.loadCached cache f).1 = false →
  Config.loadCached cache2 f = (ConfigFile_load f, cache2)
  ∧ truthy (ConfigFile_load f) = false.
Proof.
  intros Hs Hf. apply loadCached_falsy in Hf as (_ & Hc & Hl).
  specialize (Hs f Hl Hc). unfold Config.loadCached. by rewrite Hs, Hl.
Qed.

Lemma walk_store project files : ∀ configs searched rootPath cache,
  let w := Config.walk project files configs searched rootPath cache in
  stays_falsy cache (Config.w_store w)
  ∧ localHierarchyCache (Config.w_store w) = localHierarchyCache cache
  ∧ ∃ more, Config.w_searched w = searched ++ more
            ∧ more `sublist_of` (dirname <$> files).
Proof.
  induction files as [|f files IH]; intros configs searched rootPath cache;
    cbn [Config.walk].
  { split_and!; [apply stays_falsy_refl|done|]. exists [].
    by rewrite app_nil_r. }
  assert (∀ configs searched rootPath,
            let w := Config.walk project files configs searched rootPath cache in
            stays_falsy cache (Config.w_store w)
            ∧ localHierarchyCache (Config.w_store w) = localHierarchyCache cache
            ∧ ∃ more, Config.w_searched w = searched ++ more
                      ∧ more `sublist_of` (dirname <$> f :: files)) as Hskip.
  { intros cs ss rp. destruct (IH cs ss rp cache) as (? & ? & more & ? & ?).
    split_and!; [done|done|]. exists more. split; [done|].
    rewrite fmap_cons. by apply sublist_cons. }
  destruct (getHierarchyLocalConfigs cache (dirname f)).
  { split_and!; [apply stays_falsy_refl|done|]. exists [].
    rewrite app_nil_r. split; [done|]. apply sublist_nil_l. }
  destruct (_ && _); [apply Hskip|].
  destruct (match rootPath with Some _ => _ | None => _ end); [apply Hskip|].
  pose proof (loadCached_stays cache f) as Hs.
  pose proof (loadCached_hierarchy cache f) as Hh.
  destruct (Config.loadCached cache f) as [localConfig cache1]. simpl in Hs, Hh.
  destruct (negb (truthy localConfig)).
  - destruct (IH configs searched rootPath cache1) as (Hs' & Hh' & more & ? & ?).
    split_and!; [by eapply stays_falsy_trans|congruence|].
    exists more. split; [done|]. rewrite fmap_cons. by apply sublist_cons.
  - match goal with
    | |- context [Config.walk project files ?cs ?ss ?rp cache1] =>
        destruct (IH cs ss rp cache1) as (Hs' & Hh' & more & Hm & Hsub)
    end.
    split_and!; [by eapply stays_falsy_trans|congruence|].
    exists (dirname f :: more). rewrite Hm, <- app_assoc. split; [done|].
    rewrite fmap_cons. by apply sublist_skip.
Qed.

Lemma setHierarchyLocalConfigs_nothing cache h :
  setHierarchyLocalConfigs cache [] h = cache.
Proof. by destruct cache. Qed.

(** The walk over the same files against the cache the first call left:
    everything the first walk passed over is passed over again, and the
    first directory it used, or the cached hierarchy it ran into, is now a
    cache hit. *)
Lemma walk_again project files : ∀ cache cache2 h,
  NoDup (dirname <$> files) →
  stays_falsy cache cache2 →
  localHierarchyCache cache2
  = setHierarchy_from 0
      (Config.w_searched (Config.walk project files [] [] None cache)) h
      (localHierarchyCache cache) →
  Config.walk project files [] [] None cache2
  = {| Config.w_configs := []; Config.w_searched := [];
       Config.w_cache :=
         match Config.w_searched (Config.walk project files [] [] None cache)
         with
         | [] => Config.w_cache (Config.walk project files [] [] None cache)
         | _ => Some h
         end;
       Config.w_store := cache2 |}.
Proof.
  induction files as [|f files IH]; intros cache cache2 h Hnd Hs Hh; [done|].
  rewrite fmap_cons in Hnd. apply NoDup_cons in Hnd as [Hf Hnd].
  cbn [Config.walk] in Hh |- *.
  destruct (getHierarchyLocalConfigs cache (dirname f)) as [hit|] eqn:Hprobe.
  { simpl in Hh. unfold getHierarchyLocalConfigs in *.
    by rewrite Hh, Hprobe. }
  (* a directory the first walk did not use has no entry *)
  assert (∀ cache1,
            localHierarchyCache cache2
            = setHierarchy_from 0
                (Config.w_searched
                   (Config.walk project files [] [] None cache1))
                h (localHierarchyCache cache) →
            getHierarchyLocalConfigs cache2 (dirname f) = None) as Hnone.
  { intros c1 Heq. unfold getHierarchyLocalConfigs in *.
    rewrite Heq, setHierarchy_from_other; [done|].
    destruct (walk_store project files [] [] None c1)
      as (_ & _ & more & -> & Hsub).
    simpl. intros Hin. apply Hf. by eapply elem_of_sublist. }
  destruct (bool_decide (Some (dirname f) = Config.PERSONAL_CONFIG_DIR)
            && negb (bool_decide (Some f = project))) eqn:Hhome.
  { rewrite (Hnone cache Hh). by apply IH. }
  pose proof (loadCached_stays cache f) as Hs1.
  pose proof (loadCached_hierarchy cache f) as Hh1.
  pose proof (loadCached_falsy cache f) as Hfalsy.
  pose proof (loadCached_again cache cache2 f Hs) as Hagain.
  destruct (Config.loadCached cache f) as [localConfig cache1] eqn:Hload.
  simpl in Hs1, Hh1, Hfalsy, Hagain.
  destruct (truthy localConfig) eqn:Ht; cbn [negb] in Hh |- *.
  - (* the first file the first walk used *)
    destruct (walk_store project files ([] ++ [localConfig])
                ([] ++ [dirname f])
                (if strict_eq (VBool true) (prop localConfig "root")
                 then Some (dirname f) else None) cache1)
      as (_ & _ & more & Hm & Hsub).
    change (([] ++ [dirname f]) ++ more) with (dirname f :: more) in Hm.
    rewrite Hm in Hh |- *. cbv beta iota.
    unfold getHierarchyLocalConfigs.
    rewrite Hh, (setHierarchy_from_lookup _ 0 _ _ 0 (dirname f)); [|..|done].
    + rewrite (slice_to_take (0 + 0) h) by (simpl; lia).
      by rewrite take_ge by (simpl; lia).
    + apply NoDup_cons. split.
      * intros Hin. apply Hf. by eapply elem_of_sublist.
      * by eapply sublist_NoDup.
  - (* a file that parses to nothing *)
    destruct (Hfalsy eq_refl) as (-> & _ & _).
    destruct (Hagain eq_refl) as (Hl2 & Hlf).
    rewrite (Hnone cache Hh), Hl2, Hlf. cbn [negb]. by apply IH.
Qed.

Lemma walk_lengths project files cache :
  length (Config.w_configs (Config.walk project files [] [] None cache))
  = length (Config.w_searched (Config.walk project files [] [] None cache)).
Proof.
  destruct (walk_invariant project files [] [] None cache)
    as (rootPath' & Hlen & _).
  { split_and!; try done. intros d Hd. by apply elem_of_nil in Hd. }
  done.
Qed.

Lemma getPersonalConfig_again self cache p self1 cache1 :
  Config.getPersonalConfig self cache = (p, self1, cache1) →
  same_instance self self1
  ∧ stays_falsy cache cache1
  ∧ localHierarchyCache cache1 = localHierarchyCache cache
  ∧ ∀ cache2, Config.getPersonalConfig self1 cache2 = (p, self1, cache2).
Proof.
  unfold Config.getPersonalConfig.
  destruct (Config.personalConfig self) as [p0|] eqn:Hp.
  - intros [= <- <- <-]. split_and!; try done; [apply stays_falsy_refl|].
    intros cache2. by rewrite Hp.
  - destruct (match Config.PERSONAL_CONFIG_DIR with
              | Some home => _
              | None => _
              end) as [config cache0] eqn:Hload.
    intros [= <- <- <-]. split_and!; try done.
    + destruct Config.PERSONAL_CONFIG_DIR as [home|];
        [|injection Hload as _ <-; apply stays_falsy_refl].
      destruct (getFilenameForDirectory home) as [filename|];
        [|injection Hload as _ <-; apply stays_falsy_refl].
      pose proof (loadCached_stays cache filename) as Hs.
      by rewrite Hload in Hs.
    + destruct Config.PERSONAL_CONFIG_DIR as [home|];
        [|by injection Hload as _ <-].
      destruct (getFilenameForDirectory home) as [filename|];
        [|by injection Hload as _ <-].
      pose proof (loadCached_hierarchy cache filename) as Hh.
      by rewrite Hload in Hh.
Qed.

(** The local hierarchy of a directory, asked for again against a cache
    that holds what the first call left in the two tables the walk reads. *)
Lemma getLocalConfigHierarchy_again self cache directory h self' cache' :
  Config.getLocalConfigHierarchy self cache directory = Ok (h, self', cache') →
  NoDup (dirname <$> Config.findLocalConfigFiles self directory) →
  same_instance self self'
  ∧ ∀ cache2,
      filePathCache cache2 = filePathCache cache' →
      localHierarchyCache cache2 = localHierarchyCache cache' →
      Config.getLocalConfigHierarchy self' cache2 directory
      = Ok (h, self', cache2).
Proof.
  unfold Config.getLocalConfigHierarchy, Config.findLocalConfigFiles.
  set (files := findAllInDirectoryAndParents (Config.cwd (Config.opts self))
                                             directory).
  set (project := getFilenameForDirectory (Config.cwd (Config.opts self))).
  set (w := Config.walk project files [] [] None cache).
  intros Hr Hnd.
  apply bind_Ok in Hr as ([[configs self1] cache1] & Hr & Hk).
  injection Hk as <- <- <-.
  destruct (walk_store project files [] [] None cache) as (Hws & Hwh & _).
  fold w in Hws, Hwh.
  pose proof (walk_lengths project files cache) as Hlen. fold w in Hlen.
  (* what the branch of the first call gives *)
  assert (same_instance self self1
          ∧ stays_falsy cache cache1
          ∧ localHierarchyCache cache1 = localHierarchyCache cache
          ∧ ((length (Config.w_configs w) =? 0)%nat
             && negb (bool_decide (is_Some (Config.w_cache w)))
             && negb (truthy (Config.useSpecificConfig self)) = false
             ∧ configs = Config.w_configs w ∧ self1 = self
             ∨ Config.w_configs w = [] ∧ Config.w_cache w = None
               ∧ truthy (Config.useSpecificConfig self) = false
               ∧ ∃ p, (∀ cache2, Config.getPersonalConfig self1 cache2
                                 = (p, self1, cache2))
                      ∧ (if truthy p then Ok (Config.w_configs w ++ [p], self1, cache1)
                         else if negb (Config.hasRules (Config.opts self1))
                                 && negb (truthy (Config.opt_baseConfig
                                                    (Config.opts self1)))
                              then Throw (NoConfigFound directory files)
                              else Ok (Config.w_configs w, self1, cache1))
                        = Ok (configs, self1, cache1)))
    as (Hsame & Hs1 & Hh1 & Hbranch).
  { destruct ((length (Config.w_configs w) =? 0)%nat
              && negb (bool_decide (is_Some (Config.w_cache w)))
              && negb (truthy (Config.useSpecificConfig self))) eqn:Hcond.
    - apply andb_true_iff in Hcond as [[Hc0 Hc1]%andb_true_iff Hc2].
      apply Nat.eqb_eq, nil_length_inv in Hc0.
      apply negb_true_iff, bool_decide_eq_false in Hc1.
      apply negb_true_iff in Hc2.
      destruct (Config.getPersonalConfig self (Config.w_store w))
        as [[p self2] cache2] eqn:Hp.
      destruct (getPersonalConfig_again _ _ _ _ _ Hp)
        as (Hsm & Hst & Hhi & Hmemo).
      assert (self2 = self1 ∧ cache2 = cache1) as [-> ->].
      { repeat case_match; simplify_eq; done. }
      split_and!; [done|by eapply stays_falsy_trans|congruence|].
      right. split_and!; [done| |done|].
      + destruct (Config.w_cache w); [|done]. destruct Hc1. by eexists.
      + exists p. split; [done|]. exact Hr.
    - injection Hr as <- <- <-. split_and!; try done. left. done. }
  split; [done|]. destruct Hsame as (Hopts & Hspec & _ & _).
  intros cache2 Hf2 Hh2. rewrite Hopts. fold files project.
  assert (stays_falsy cache cache2) as Hs2.
  { intros p Hl Hc. unfold getConfig. rewrite Hf2. simpl. by apply Hs1. }
  set (result := match Config.w_cache w with
                 | Some hit => hit ++ rev configs
                 | None => rev configs
                 end) in *.
  rewrite (walk_again project files cache cache2 result Hnd Hs2);
    [|by rewrite Hh2; simpl; rewrite Hh1].
  fold w. cbn [Config.w_configs Config.w_searched Config.w_cache Config.w_store].
  destruct (Config.w_searched w) as [|d ds] eqn:Hsearched.
  - (* the first call used no file *)
    apply nil_length_inv in Hlen. cbv beta iota.
    destruct Hbranch as [(Hcond & -> & ->)|(_ & Hnone & Hsp & p & Hmemo & Hp)].
    + rewrite Hlen in Hcond. rewrite Hcond.
      cbn [mbind result_bind]. rewrite setHierarchyLocalConfigs_nothing.
      subst result. rewrite Hlen. by destruct (Config.w_cache w).
    + rewrite Hnone, Hspec, Hsp. simpl negb. simpl andb. cbv iota.
      rewrite Hmemo. cbv beta iota. rewrite Hlen in Hp. subst result.
      rewrite Hnone.
      destruct (truthy p).
      * injection Hp as <-. cbn [mbind result_bind].
        by rewrite setHierarchyLocalConfigs_nothing.
      * destruct (negb (Config.hasRules (Config.opts self1))
                  && negb (truthy (Config.opt_baseConfig (Config.opts self1))));
          [done|].
        injection Hp as <-. cbn [mbind result_bind].
        by rewrite setHierarchyLocalConfigs_nothing.
  - (* the first directory it used is a cache hit now *)
    simpl. by rewrite app_nil_r, setHierarchyLocalConfigs_nothing.
Qed.

Lemma getConfigHierarchy_again self cache directory configs self' cache' :
  Config.getConfigHierarchy self cache directory = Ok (configs, self', cache') →
  NoDup (dirname <$> Config.findLocalConfigFiles self directory) →
  ∀ cache2,
    filePathCache cache2 = filePathCache cache' →
    localHierarchyCache cache2 = localHierarchyCache cache' →
    Config.getConfigHierarchy self' cache2 directory
    = Ok (configs, self', cache2).
Proof.
  unfold Config.getConfigHierarchy. intros Hr Hnd cache2 Hf2 Hh2.
  apply bind_Ok in Hr as ([[cs self1] cache1] & Hr & Hk).
  destruct (Config.useEslintrc self) eqn:Huse.
  - apply bind_Ok in Hr as ([[locals self2] cache3] & Hr & [= <- <- <-]).
    destruct (getLocalConfigHierarchy_again _ _ _ _ _ _ Hr Hnd)
      as ((_ & Hspec & Hbase & Huse') & Hagain).
    assert (self' = self2 ∧ cache' = cache3
            ∧ configs = (if truthy (Config.useSpecificConfig self2)
                         then ([Config.baseConfig self] ++ locals)
                              ++ [Config.useSpecificConfig self2]
                         else [Config.baseConfig self] ++ locals))
      as (-> & -> & ->).
    { destruct (truthy (Config.useSpecificConfig self2));
        by injection Hk as <- <- <-. }
    rewrite Huse', Huse, (Hagain cache2 Hf2 Hh2), Hbase.
    cbn [mbind result_bind].
    by destruct (truthy (Config.useSpecificConfig self2)).
  - injection Hr as <- <- <-.
    assert (self' = self ∧ cache' = cache
            ∧ configs = (if truthy (Config.useSpecificConfig self)
                         then [Config.baseConfig self]
                              ++ [Config.useSpecificConfig self]
                         else [Config.baseConfig self]))
      as (-> & -> & ->).
    { destruct (truthy (Config.useSpecificConfig self));
        by injection Hk as <- <- <-. }
    rewrite Huse. cbn [mbind result_bind].
    by destruct (truthy (Config.useSpecificConfig self)).
Qed.

Lemma getConfigForVector_tables self cache v c cache' :
  Config.getConfigForVector self cache v = Ok (c, cache') →
  filePathCache cache' = filePathCache cache
  ∧ localHierarchyCache cache' = localHierarchyCache cache.
Proof.
  unfold Config.getConfigForVector.
  destruct (truthy (getMergedConfig cache v)); [by intros [= _ <-]|].
  intros Hr. apply bind_Ok in Hr as ([c0 cache0] & Hv & Hr).
  apply bind_Ok in Hr as (c1 & _ & Hr).
  apply bind_Ok in Hr as (parser' & _ & Hr).
  apply bind_Ok in Hr as (c2 & _ & Hr).
  apply bind_Ok in Hr as (env & _ & Hr).
  apply bind_Ok in Hr as (c3 & _ & [= _ <-]).
  by destruct (getConfigFromVector_frame _ _ _ _ Hv) as (? & ? & _).
Qed.

(** X25.  Asking again changes nothing.  When [getConfig] has returned a
    config for a file, the next call for the same file returns the same
    config and leaves the instance and all four cache tables as they are,
    provided the config files the finder lists lie in different
    directories. *)
Theorem getConfig_again (self : Config.t) (cache : ConfigCache.t)
    (file : option string) (c : value) (self' : Config.t)
    (cache' : ConfigCache.t) :
  Config.getConfig self cache file = Ok (c, self', cache') →
  NoDup (dirname <$> Config.findLocalConfigFiles self
                       (match Config.truthy_path file with
                        | Some p => dirname p
                        | None => Config.cwd (Config.opts self)
                        end)) →
  Config.getConfig self' cache' file = Ok (c, self', cache').
Proof.
  intros Hg Hnd.
  apply getConfig_inv in Hg as (v & cache1 & Hgv & Hfv).
  destruct (getConfigForVector_tables _ _ _ _ _ Hfv) as [Hf Hh].
  destruct (getConfigForVector_cached _ _ _ _ _ Hfv) as [Hin Ht].
  unfold Config.getConfigVector in Hgv.
  apply bind_Ok in Hgv as ([[configs self1] cache2] & Hch & Hgv).
  apply bind_Ok in Hgv as (v' & Hvec & [= <- <- <-]).
  pose proof (getConfigHierarchy_again _ _ _ _ _ _ Hch Hnd cache' Hf Hh)
    as Hagain.
  assert (Config.cwd (Config.opts self1) = Config.cwd (Config.opts self))
    as Hcwd.
  { unfold Config.getConfigHierarchy in Hch.
    apply bind_Ok in Hch as ([[cs self2] cache3] & Hr & Hk).
    assert (self1 = self2) as ->.
    { destruct (truthy (Config.useSpecificConfig self2));
        by injection Hk as _ <- _. }
    destruct (Config.useEslintrc self); [|by injection Hr as _ <- _].
    apply bind_Ok in Hr as ([[locals self3] cache4] & Hr & [= _ <- _]).
    by destruct (getLocalConfigHierarchy_again _ _ _ _ _ _ Hr Hnd)
      as ((-> & _) & _). }
  unfold Config.getConfig, Config.getConfigVector.
  rewrite Hcwd, Hagain. cbn [mbind result_bind]. rewrite Hvec.
  cbn [mbind result_bind].
  unfold Config.getConfigForVector, getMergedConfig. rewrite Hin. simpl.
  by rewrite Ht.
Qed.

End Again.

(** Twice the same file of the sample project. *)
Lemma getConfig_again_witness :
  ∃ self cache c self' cache',
    Config.constructor Sample.sample_options = Ok (self, cache)
    ∧ Config.getConfig self cache (Some "/x/src/a.ts") = Ok (c, self', cache')
    ∧ Config.getConfig self' cache' (Some "/x/src/a.ts") = Ok (c, self', cache').
Proof.
  lazymatch evaluated (Config.constructor Sample.sample_options) with
  | Ok (?self, ?cache) =>
      lazymatch evaluated (Config.getConfig self cache (Some "/x/src/a.ts"))
      with
      | Ok (?c, ?self', ?cache') =>
          exists self, cache, c, self', cache';
          assert (Config.constructor Sample.sample_options = Ok (self, cache))
            as Hc by by_evaluation;
          assert (Config.getConfig self cache (Some "/x/src/a.ts")
                  = Ok (c, self', cache')) as Hg by by_evaluation;
          split; [exact Hc|]; split; [exact Hg|];
          apply (getConfig_again self cache (Some "/x/src/a.ts") c self' cache'
                   Hg);
          apply (bool_decide_unpack _); vm_compute; exact I
      end
  end.
Defined.

(** ** Nothing cached is replaced *)

Section Kept.
Context `{GlobMatcher} `{EnvironmentRegistry} `{FileSystem}.

Lemma kept_refl table : kept table table.
Proof. by intros key e. Qed.

Lemma kept_trans t1 t2 t3 : kept t1 t2 → kept t2 t3 → kept t1 t3.
Proof. intros H12 H23 key e He Ht. apply H23; [|done]. by apply H12. Qed.

Lemma loadCached_kept cache p :
  kept (filePathCache cache) (filePathCache (Config.loadCached cache p).2).
Proof.
  unfold Config.loadCached.
  destruct (truthy (getConfig cache p)) eqn:Hc; [apply kept_refl|].
  destruct (truthy (ConfigFile_load p)); [|apply kept_refl].
  intros key e He Ht. simpl.
  destruct (decide (key = p)) as [->|Hne].
  - unfold getConfig in Hc. rewrite He in Hc. simpl in Hc. congruence.
  - by rewrite lookup_insert_ne.
Qed.

Lemma walk_kept project files : ∀ configs searched rootPath cache,
  kept (filePathCache cache)
       (filePathCache
          (Config.w_store
             (Config.walk project files configs searched rootPath cache))).
Proof.
  induction files as [|f files IH]; intros configs searched rootPath cache;
    cbn [Config.walk]; [apply kept_refl|].
  destruct (getHierarchyLocalConfigs cache (dirname f)); [apply kept_refl|].
  destruct (_ && _); [apply IH|].
  destruct (match rootPath with Some _ => _ | None => _ end); [apply IH|].
  pose proof (loadCached_kept cache f) as Hl.
  destruct (Config.loadCached cache f) as [localConfig cache1]. simpl in Hl.
  destruct (negb (truthy localConfig));
    (eapply kept_trans; [exact Hl|apply IH]).
Qed.

Lemma getPersonalConfig_kept self cache :
  kept (filePathCache cache)
       (filePathCache (Config.getPersonalConfig self cache).2).
Proof.
  unfold Config.getPersonalConfig.
  destruct (Config.personalConfig self); [apply kept_refl|].
  destruct Config.PERSONAL_CONFIG_DIR as [home|]; [|apply kept_refl].
  destruct (getFilenameForDirectory home) as [filename|]; [|apply kept_refl].
  pose proof (loadCached_kept cache filename) as Hl.
  by destruct (Config.loadCached cache filename).
Qed.

Lemma getLocalConfigHierarchy_kept self cache directory h self' cache' :
  Config.getLocalConfigHierarchy self cache directory = Ok (h, self', cache') →
  kept (filePathCache cache) (filePathCache cache').
Proof.
  unfold Config.getLocalConfigHierarchy.
  set (w := Config.walk _ _ _ _ _ _).
  pose proof (walk_kept (getFilenameForDirectory (Config.cwd (Config.opts self)))
                (Config.findLocalConfigFiles self directory) [] [] None cache)
    as Hw. fold w in Hw.
  intros Hr. apply bind_Ok in Hr as ([[configs self1] cache1] & Hr & Hk).
  injection Hk as _ _ <-. simpl.
  destruct (_ && _ && _) in Hr; [|by injection Hr as _ _ <-].
  pose proof (getPersonalConfig_kept self (Config.w_store w)) as Hp.
  destruct (Config.getPersonalConfig self (Config.w_store w))
    as [[personalConfig self2] cache2]; simpl in Hp.
  assert (cache1 = cache2) as ->.
  { repeat case_match; simplify_eq; done. }
  by eapply kept_trans.
Qed.

Lemma getConfigVector_kept self cache file v self' cache' :
  Config.getConfigVector self cache file = Ok (v, self', cache') →
  kept (filePathCache cache) (filePathCache cache').
Proof.
  unfold Config.getConfigVector, Config.getConfigHierarchy. intros Hr.
  apply bind_Ok in Hr as ([[configs self1] cache1] & Hr & Hk).
  apply bind_Ok in Hk as (v' & _ & [= _ _ <-]).
  apply bind_Ok in Hr as ([[cs self2] cache2] & Hr & Hk).
  assert (cache1 = cache2) as ->.
  { destruct (truthy (Config.useSpecificConfig self2));
      by injection Hk as _ _ <-. }
  destruct (Config.useEslintrc self);
    [|injection Hr as _ _ <-; apply kept_refl].
  apply bind_Ok in Hr as ([[locals self3] cache3] & Hr & [= _ _ <-]).
  by eapply getLocalConfigHierarchy_kept.
Qed.

Lemma getConfigFromVector_kept cache v c cache' :
  getConfigFromVector cache v = Ok (c, cache') →
  kept (mergedVectorCache cache) (mergedVectorCache cache').
Proof.
  intros Hr.
  destruct (getConfigFromVector_cache _ _ _ _ Hr)
    as [[-> _]|(Hne & -> & Hc)]; [apply kept_refl|].
  intros key e He Ht. simpl.
  destruct (decide (key = hash v)) as [->|Hkey]; [|by rewrite lookup_insert_ne].
  assert (getMergedVectorConfig cache v = e) as Hg
    by (unfold getMergedVectorConfig; by rewrite He).
  pose proof (probe_full cache v Hne) as Hp. rewrite Hg in Hp.
  unfold getConfigFromVector in Hr. rewrite (Hp Ht), Nat.eqb_refl in Hr.
  injection Hr as <- _. by rewrite lookup_insert_eq.
Qed.

Lemma getConfigForVector_kept self cache v c cache' :
  Config.getConfigForVector self cache v = Ok (c, cache') →
  kept (mergedVectorCache cache) (mergedVectorCache cache').
Proof.
  unfold Config.getConfigForVector.
  destruct (truthy (getMergedConfig cache v));
    [intros [= _ <-]; apply kept_refl|].
  intros Hr. apply bind_Ok in Hr as ([c0 cache0] & Hv & Hr).
  apply bind_Ok in Hr as (c1 & _ & Hr).
  apply bind_Ok in Hr as (parser' & _ & Hr).
  apply bind_Ok in Hr as (c2 & _ & Hr).
  apply bind_Ok in Hr as (env & _ & Hr).
  apply bind_Ok in Hr as (c3 & _ & [= _ <-]).
  by apply getConfigFromVector_kept in Hv.
Qed.

(** X26.  Nothing cached is replaced.  In a run of the resolver, a truthy
    entry of the shallow-config table, of the merged-vector table or of the
    final table stays what it is: later calls add entries and never
    overwrite one. *)
Theorem cached_entries_are_kept (s s' : Config.t * ConfigCache.t) :
  rtc resolves s s' →
  (∀ p e, filePathCache s.2 !! p = Some e → truthy e = true →
          filePathCache s'.2 !! p = Some e)
  ∧ (∀ key e, mergedVectorCache s.2 !! key = Some e → truthy e = true →
              mergedVectorCache s'.2 !! key = Some e)
  ∧ (∀ key e, mergedCache s.2 !! key = Some e → truthy e = true →
              mergedCache s'.2 !! key = Some e).
Proof.
  intros Hrun. split_and!; [| |intros key e; by apply resolves_keeps].
  - induction Hrun as [s|s1 s2 s3 Hstep _ IH]; [apply kept_refl|].
    eapply kept_trans; [|exact IH].
    inversion Hstep as [self cache file c self' cache' Hg]; subst. simpl.
    apply getConfig_inv in Hg as (v & cache1 & Hgv & Hfv).
    destruct (getConfigForVector_tables _ _ _ _ _ Hfv) as [-> _].
    by eapply getConfigVector_kept.
  - induction Hrun as [s|s1 s2 s3 Hstep _ IH]; [apply kept_refl|].
    eapply kept_trans; [|exact IH].
    inversion Hstep as [self cache file c self' cache' Hg]; subst. simpl.
    apply getConfig_inv in Hg as (v & cache1 & Hgv & Hfv).
    apply getConfigVector_merged in Hgv as [_ Hm]. rewrite <- Hm.
    by eapply getConfigForVector_kept.
Qed.

End Kept.

(** The project's config file, loaded for one file, is still the cached
    source after another file has been resolved. *)
Lemma cached_entries_are_kept_witness :
  ∃ self cache c1 self1 cache1 c2 self2 cache2,
    Config.constructor Sample.sample_options = Ok (self, cache)
    ∧ Config.getConfig self cache (Some "/x/src/a.ts") = Ok (c1, self1, cache1)
    ∧ Config.getConfig self1 cache1 (Some "/x/a/b.js") = Ok (c2, self2, cache2)
    ∧ filePathCache cache1 !! "/x/.eslintrc" = Some Sample.project_config
    ∧ filePathCache cache2 !! "/x/.eslintrc" = Some Sample.project_config.
Proof.
  lazymatch evaluated (Config.constructor Sample.sample_options) with
  | Ok (?self, ?cache) =>
      lazymatch evaluated (Config.getConfig self cache (Some "/x/src/a.ts"))
      with
      | Ok (?c1, ?self1, ?cache1) =>
          lazymatch evaluated
            (Config.getConfig self1 cache1 (Some "/x/a/b.js")) with
          | Ok (?c2, ?self2, ?cache2) =>
              exists self, cache, c1, self1, cache1, c2, self2, cache2;
              assert (Config.getConfig self1 cache1 (Some "/x/a/b.js")
                      = Ok (c2, self2, cache2)) as Hg by by_evaluation;
              assert (filePathCache cache1 !! "/x/.eslintrc"
                      = Some Sample.project_config) as H1 by by_evaluation;
              pose proof (proj1 (cached_entries_are_kept
                                   (self1, cache1) (self2, cache2)
                                   (rtc_once _ _
                                      (resolves_call self1 cache1
                                         (Some "/x/a/b.js") c2 self2 cache2 Hg)))
                                "/x/.eslintrc" Sample.project_config
                                H1 eq_refl) as H2;
              split_and!; [by_evaluation|by_evaluation|exact Hg|exact H1|exact H2]
          end
      end
  end.
Defined.

(** ** The parser given on the command line *)

Lemma obj_set_keys_NoDup k x (o : obj) :
  NoDup (obj_keys o) → NoDup (obj_keys (obj_set k x o)).
Proof.
  induction o as [|[k' v'] o IH]; simpl.
  - intros _. apply NoDup_singleton.
  - intros [Hk' Hnd]%NoDup_cons.
    destruct (String.eqb_spec k k') as [->|Hne]; simpl.
    + by apply NoDup_cons.
    + apply NoDup_cons. split; [|by apply IH].
      intros Hin. apply Hk'.
      apply obj_get_is_Some in Hin. apply obj_get_set_is_Some in Hin.
      destruct Hin as [->|Hin]; [done|]. by apply obj_get_is_Some.
Qed.

Lemma object_loop_NoDup target combine isRule es : ∀ dst d,
  object_loop target combine isRule es dst = Ok d →
  NoDup (obj_keys dst) → NoDup (obj_keys d).
Proof.
  induction es as [|[[key sv] recur] es IH]; intros dst d Hl Hnd.
  - by injection Hl as <-.
  - simpl in Hl. apply bind_Ok in Hl as (dst' & Hs & Hl).
    apply (IH _ _ Hl). unfold object_step in Hs.
    apply bind_Ok in Hs as (x & _ & [= <-]). by apply obj_set_keys_NoDup.
Qed.

Lemma merge_objects_NoDup (t s : obj) combine isRule d :
  merge (VObj t) (VObj s) combine isRule = Ok d →
  NoDup (obj_keys t) → ∃ o, d = VObj o ∧ NoDup (obj_keys o).
Proof.
  intros Hm Hnd. rewrite merge_object_unfold in Hm by done.
  apply bind_Ok in Hm as (dst & Hl & [= <-]). exists dst. split; [done|].
  by eapply object_loop_NoDup.
Qed.

Section CommandLineParser.
Context `{EnvironmentRegistry}.

(** X27.  A parser given on the command line is the parser of the config
    [getConfig] computes, whatever the config files say: when the merged
    config of the vector is an object whose own [parser] is not an array,
    the result has the command line's parser. *)
Theorem command_line_parser_wins (self : Config.t) (cache : ConfigCache.t)
    (v : vector) (c0 cli : obj) (cache0 : ConfigCache.t) (c : value)
    (cache' : ConfigCache.t) (p : string) :
  Config.parser self = VStr p → p ≠ "" →
  Config.cliConfig self = VObj cli → obj_get "parser" cli = None →
  truthy (getMergedConfig cache v) = false →
  getConfigFromVector cache v = Ok (VObj c0, cache0) →
  NoDup (obj_keys c0) → isArray (prop (VObj c0) "parser") = false →
  Config.getConfigForVector self cache v = Ok (c, cache') →
  prop c "parser" = VStr p.
Proof.
  intros Hp Hne Hcli Hnone Hmiss Hv Hnd Harr.
  unfold Config.getConfigForVector. rewrite Hmiss, Hv, Hp, Hcli.
  cbn [mbind result_bind]. intros Hr.
  apply bind_Ok in Hr as (c1 & H1 & Hr).
  apply bind_Ok in Hr as (parser' & _ & Hr).
  apply bind_Ok in Hr as (c2 & H2 & Hr).
  apply bind_Ok in Hr as (env & He & Hr).
  apply bind_Ok in Hr as (c3 & H3 & [= <- _]).
  assert (truthy (VStr p) = true) as Htp.
  { simpl. by destruct (String.eqb_spec p ""). }
  rewrite Htp in H2. cbn [orb] in H2.
  destruct (merge_objects_NoDup _ _ _ _ _ H1 Hnd) as (o1 & -> & Hnd1).
  assert (isArray (prop (VObj o1) "parser") = false) as Harr1
    by by rewrite (merge_lookup_other _ _ _ _ _ "parser" H1 Hnone).
  destruct (merge_objects_NoDup _ _ _ _ _ H2 Hnd1) as (o2 & -> & Hnd2).
  assert (prop (VObj o2) "parser" = VStr p) as Hp2.
  { destruct (merge_lookup o1 [("parser", VStr p)] false false (VObj o2)
                "parser" (VStr p)) as (x & Hx & ->); try done.
    { apply NoDup_singleton. }
    rewrite (object_value_scalar _ _ _ _ _ _ (prop (VObj o1) "parser")) in Hx;
      try done; [by injection Hx|by left]. }
  assert (env = prop (VObj o2) "env") as -> by by injection He.
  destruct (truthy (prop (VObj o2) "env")) eqn:Henv;
    [|by injection H3 as <-].
  unfold applyEnvironments in H3.
  change (get (VObj o2) "env") with (Ok (prop (VObj o2) "env")) in H3.
  cbn [mbind result_bind] in H3. rewrite Henv in H3.
  destruct (String.eqb (typeof (prop (VObj o2) "env")) "object");
    [|by injection H3 as <-].
  cbn [andb] in H3.
  assert (obj_get "parser" o2 = Some (VStr p)) as Hget.
  { simpl in Hp2. destruct (obj_get "parser" o2) as [x|]; simpl in Hp2;
      [by subst|done]. }
  destruct (merge_lookup _ _ _ _ _ "parser" _ Hnd2 H3 Hget) as (x & Hx & ->).
  assert (get (VObj (createEnvironmentConfig (prop (VObj o2) "env"))) "parser"
          = Ok VUndef) as HE.
  { pose proof (createEnvironmentConfig_keys (prop (VObj o2) "env") "parser")
      as Hkeys.
    set (E := createEnvironmentConfig (prop (VObj o2) "env")) in *. simpl.
    destruct (obj_get "parser" E) eqn:Hk; [|done].
    assert ("parser" ∈ ["globals"; "env"; "rules"; "parserOptions"]) as Hin
      by (apply Hkeys; by eexists).
    repeat (apply elem_of_cons in Hin as [Hin|Hin]; [discriminate Hin|]).
    by apply elem_of_nil in Hin. }
  rewrite (object_value_scalar _ _ _ _ _ _ VUndef HE) in Hx; try done.
  - by injection Hx.
  - by left.
Qed.

End CommandLineParser.

(** The sample project with [babel-eslint] given on the command line. *)
Lemma command_line_parser_wins_witness :
  ∃ self cache v self1 cache1 c cache',
    Config.constructor parser_options = Ok (self, cache)
    ∧ Config.getConfigVector self cache (Some "/x/src/a.ts")
      = Ok (v, self1, cache1)
    ∧ Config.getConfigForVector self1 cache1 v = Ok (c, cache')
    ∧ prop c "parser" = VStr "babel-eslint".
Proof.
  lazymatch evaluated (Config.constructor parser_options) with
  | Ok (?self, ?cache) =>
    lazymatch evaluated (Config.getConfigVector self cache (Some "/x/src/a.ts"))
    with
    | Ok (?v, ?self1, ?cache1) =>
      lazymatch evaluated (getConfigFromVector cache1 v) with
      | Ok (VObj ?c0, ?cache0) =>
        lazymatch evaluated (Config.getConfigForVector self1 cache1 v) with
        | Ok (?c, ?cache') =>
          lazymatch evaluated (Config.cliConfig self1) with
          | VObj ?cli =>
            exists self, cache, v, self1, cache1, c, cache';
            assert (Config.getConfigForVector self1 cache1 v = Ok (c, cache'))
              as Hg by by_evaluation;
            assert (getConfigFromVector cache1 v = Ok (VObj c0, cache0))
              as Hv by by_evaluation;
            assert (NoDup (obj_keys c0)) as Hnd
              by (apply (bool_decide_unpack _); vm_compute; exact I);
            assert ("babel-eslint" ≠ "") as Hne by discriminate;
            pose proof (command_line_parser_wins self1 cache1 v c0 cli cache0
                          c cache' "babel-eslint" eq_refl Hne eq_refl eq_refl
                          eq_refl Hv Hnd eq_refl Hg) as Hp;
            split_and!; [by_evaluation|by_evaluation|exact Hg|exact Hp]
          end
        end
      end
    end
  end.
Defined.
